(** * deepfillv2/trainer.py: the training orchestration, embedded in Rocq

    The development follows [trainer.py]: the checkpoint manager ([restore],
    [save_state]), the learning-rate schedule ([adjust_learning_rate]), the
    parameter/optimizer bindings ([create_optimizers] and the inline
    construction of [LSGAN_trainer]) and the two training loops
    ([WGAN_trainer], [LSGAN_trainer]).

    Conventions.
    - Python exceptions are the [Raise] branch of [Py.result]; stateful code
      threads an explicit state through [Py.M].
    - A float is modelled by an exact rational ([Q]); "equal" on tensor
      entries is [Qeq].  Rounding, infinities and NaN are outside the model.
    - A dense tensor of rank [n] is an [n]-fold nested list; elementwise
      binary operators follow torch's broadcasting rule dimension by
      dimension and raise [RuntimeError] on a size mismatch.
    - The networks, autograd, Adam's update rule and the data loader are
      code of other modules: they enter as the fields of the [Torch]
      interface. *)

From Stdlib Require Import Ascii QArith Qabs Qpower Lqa.
From stdpp Require Import base option list gmap strings pretty.

Set Default Proof Using "Type".
Local Open Scope Z_scope.

(** ** Python results and the state-and-exception monad *)

Module Py.

Inductive exn : Type :=
| RuntimeError        (* torch: shapes that do not broadcast *)
| TypeError           (* subscripting None *)
| AttributeError      (* attribute lookup on an object that lacks it *)
| KeyError
| ZeroDivisionError
| FileNotFoundError
| SameFileError       (* shutil.copyfile with src = dst *)
| CommError           (* wandb: the run does not exist or is unreachable *)
| ValueError
| UnpicklingError.    (* torch.load on bytes that are no pickle *)

#[global] Instance exn_eq_dec : EqDecision exn.
Proof. solve_decision. Defined.

Inductive result (A : Type) : Type :=
| Ok (a : A)
| Raise (e : exn).
Arguments Ok {A} a.
Arguments Raise {A} e.

Definition rbind {A B} (r : result A) (k : A -> result B) : result B :=
  match r with
  | Ok a => k a
  | Raise e => Raise e
  end.

Definition is_ok {A} (r : result A) : bool :=
  match r with Ok _ => true | Raise _ => false end.

(** [M S A]: a computation over a mutable state [S] that returns an [A] or
    raises; the state reached when the exception is raised is kept, as a
    Python [except] clause sees it. *)
Definition M (S A : Type) : Type := S -> result A * S.

Definition ret {S A} (a : A) : M S A := fun s => (Ok a, s).
Definition raise {S A} (e : exn) : M S A := fun s => (Raise e, s).
Definition bind {S A B} (m : M S A) (k : A -> M S B) : M S B :=
  fun s => match m s with
           | (Ok a, s') => k a s'
           | (Raise e, s') => (Raise e, s')
           end.
Definition lift {S A} (r : result A) : M S A := fun s => (r, s).
Definition get {S} : M S S := fun s => (Ok s, s).
Definition modify {S} (f : S -> S) : M S unit := fun s => (Ok tt, f s).

(** [try: body except Exception: handler] *)
Definition try_except {S A} (body : M S A) (handler : exn -> M S A) : M S A :=
  fun s => match body s with
           | (Ok a, s') => (Ok a, s')
           | (Raise e, s') => handler e s'
           end.

(** [for x in xs: body], the loop-carried variables being [b]. *)
Fixpoint foldM {S A B} (body : B -> A -> M S B) (b : B) (xs : list A) : M S B :=
  match xs with
  | [] => ret b
  | x :: xs' => bind (body b x) (fun b' => foldM body b' xs')
  end.

End Py.

Import Py.

#[global] Instance result_ret : MRet result := fun A a => Ok a.
#[global] Instance result_bind : MBind result := fun A B k r => rbind r k.
#[global] Instance M_ret {S} : MRet (M S) := fun A a => ret a.
#[global] Instance M_bind {S} : MBind (M S) := fun A B k m => bind m k.

(** ** Dense tensors *)

Module Tensor.

Fixpoint tensor (n : nat) : Type :=
  match n with
  | O => Q
  | S k => list (tensor k)
  end.

(** [t.shape == s] for a rectangular tensor. *)
Fixpoint has_shape (n : nat) : list nat -> tensor n -> bool :=
  match n with
  | O => fun s _ => match s with [] => true | _ => false end
  | S k => fun s (t : list (tensor k)) =>
      match s with
      | d :: s' => Nat.eqb (length t) d && forallb (has_shape k s') t
      | [] => false
      end
  end.

(** [t[i0, i1, ...]] *)
Fixpoint tget (n : nat) : tensor n -> list nat -> option Q :=
  match n with
  | O => fun q idx => match idx with [] => Some q | _ => None end
  | S k => fun (t : list (tensor k)) idx =>
      match idx with
      | i :: idx' => match t !! i with
                     | Some u => tget k u idx'
                     | None => None
                     end
      | [] => None
      end
  end.

(** [np.ones(shape)], [np.zeros(shape)] *)
Fixpoint full (q : Q) (s : list nat) : tensor (length s) :=
  match s with
  | [] => q
  | d :: s' => replicate d (full q s')
  end.

(** An operator applied to every entry ([1 - t], [(t + 1) / 2]). *)
Fixpoint tmap (f : Q -> Q) (n : nat) : tensor n -> tensor n :=
  match n with
  | O => f
  | S k => map (tmap f k)
  end.

Fixpoint zipM {A B C} (f : A -> B -> result C) (xs : list A) (ys : list B)
  : result (list C) :=
  match xs, ys with
  | x :: xs', y :: ys' =>
      c ← f x y; cs ← zipM f xs' ys'; Ok (c :: cs)
  | _, _ => Ok []
  end.

Fixpoint mapM {A C} (f : A -> result C) (xs : list A) : result (list C) :=
  match xs with
  | [] => Ok []
  | x :: xs' => c ← f x; cs ← mapM f xs'; Ok (c :: cs)
  end.

(** One dimension of torch's broadcasting: equal sizes pair up, a size of 1
    is repeated against the other operand, anything else is an error. *)
Definition bzip {A B C} (f : A -> B -> result C) (xs : list A) (ys : list B)
  : result (list C) :=
  if Nat.eqb (length xs) (length ys) then zipM f xs ys
  else match xs, ys with
       | [x], _ => mapM (f x) ys
       | _, [y] => mapM (fun x => f x y) xs
       | _, _ => Raise RuntimeError
       end.

(** An elementwise binary operator on two tensors of the same rank. *)
Fixpoint pointwise (f : Q -> Q -> Q) (n : nat)
  : tensor n -> tensor n -> result (tensor n) :=
  match n with
  | O => fun a b => Ok (f a b)
  | S k => bzip (pointwise f k)
  end.

Definition mul {n} (a b : tensor n) : result (tensor n) := pointwise Qmult n a b.
Definition add {n} (a b : tensor n) : result (tensor n) := pointwise Qplus n a b.
Definition sub {n} (a b : tensor n) : result (tensor n) := pointwise Qminus n a b.

(** [t.sum()] and [t.numel()] *)
Fixpoint tsum (n : nat) : tensor n -> Q :=
  match n with
  | O => fun q => q
  | S k => fun (t : list (tensor k)) => foldr (fun u acc => (tsum k u + acc)%Q) 0%Q t
  end.

Fixpoint numel (n : nat) : tensor n -> nat :=
  match n with
  | O => fun _ => 1%nat
  | S k => fun (t : list (tensor k)) => foldr (fun u acc => (numel k u + acc)%nat) 0%nat t
  end.

(** [torch.mean(t)]; of an empty tensor torch returns nan, the model 0. *)
Definition mean {n} (t : tensor n) : Q :=
  (tsum n t / inject_Z (Z.of_nat (numel n t)))%Q.

(** [nn.L1Loss()(a, b)] and [nn.MSELoss()(a, b)], reduction 'mean'. *)
Definition L1Loss {n} (a b : tensor n) : result Q :=
  d ← sub a b; Ok (mean (tmap Qabs n d)).

Definition MSELoss {n} (a b : tensor n) : result Q :=
  d ← sub a b; Ok (mean (tmap (fun v => v * v)%Q n d)).

(** The size of a broadcast dimension and of a broadcast shape. *)
Definition bdim (a b : nat) : option nat :=
  if Nat.eqb a b then Some a
  else if Nat.eqb a 1 then Some b
  else if Nat.eqb b 1 then Some a
  else None.

Fixpoint bshape (sa sb : list nat) : option (list nat) :=
  match sa, sb with
  | [], [] => Some []
  | a :: sa', b :: sb' =>
      match bdim a b, bshape sa' sb' with
      | Some d, Some s => Some (d :: s)
      | _, _ => None
      end
  | _, _ => None
  end.

(** The entry of an operand that position [idx] of the result reads: along
    a dimension of size 1 it is entry 0. *)
Fixpoint bidx (s : list nat) (idx : list nat) : list nat :=
  match s, idx with
  | d :: s', i :: idx' => (if Nat.eqb d 1 then O else i) :: bidx s' idx'
  | _, _ => idx
  end.

Fixpoint in_range (s : list nat) (idx : list nat) : bool :=
  match s, idx with
  | [], [] => true
  | d :: s', i :: idx' => Nat.ltb i d && in_range s' idx'
  | _, _ => false
  end.

End Tensor.


Import Tensor.

(** ** Configuration: the fields of [opt] that [trainer.py] reads

    [opt.restore] is [opt_restore] here (the name [restore] is the
    function's); the empty string is the unset, falsy value.
    [num_workers] and [cudnn_benchmark] have no effect on the model. *)

Record Opt : Type := mkOpt {
  lr_g : Q;
  lr_d : Q;
  b1 : Q;
  b2 : Q;
  weight_decay : Q;
  lr_decrease_factor : Q;
  lr_decrease_epoch : Z;
  perceptual_param : Q;
  gan_param : Q;
  batch_size : Z;
  epochs : Z;
  log_every : Z;
  checkpoint_every : Z;
  checkpoint_interval : Z;
  multi_gpu : bool;
  opt_restore : string;
  wandb_runpath : string
}.

(** ** Python values that reach a checkpoint file *)

(** What [torch.optim.Adam] keeps for one parameter. *)
Record AdamState : Type := mkAdamState {
  step_count : Z;
  exp_avg : Q;
  exp_avg_sq : Q
}.

Record ParamGroup : Type := mkParamGroup {
  pg_params : list nat;
  pg_lr : Q;
  pg_betas : Q * Q;
  pg_weight_decay : Q
}.

(** An optimizer refers to the parameters it updates by their address in
    the parameter store; its state is keyed by the same addresses. *)
Record Optimizer : Type := mkOptimizer {
  param_groups : list ParamGroup;
  opt_state : gmap nat AdamState
}.

(** An [nn.Module] is known by the addresses of its [parameters()]. *)
Record NNModule : Type := mkModule {
  parameters : list nat
}.

(** A network as the trainer holds it: the module itself, or the module
    wrapped by [nn.DataParallel]. *)
Inductive Net : Type :=
| Plain (m : NNModule)
| DataParallel (m : NNModule).

Definition net_module (n : Net) : NNModule :=
  match n with
  | Plain m => m
  | DataParallel m => m
  end.

(** [n.parameters()] *)
Definition net_parameters (n : Net) : list nat := parameters (net_module n).

(** The objects [save_state]'s [package] is applied to. *)
Inductive Obj : Type :=
| ONet (n : Net)
| OOptim (o : Optimizer).

(** [state_dict()] of a network (its values, with the "module." key prefix
    of a DataParallel wrapper or without) and of an optimizer (the state
    per parameter, and per group the hyperparameters and the group size). *)
Inductive StateDict : Type :=
| SDNet (prefixed : bool) (vals : list Q)
| SDOptim (states : list (option AdamState))
          (groups : list (Q * (Q * Q) * Q * nat)).

Inductive PyVal : Type :=
| VInt (z : Z)
| VFloat (q : Q)
| VState (sd : StateDict).

Inductive PyObj : Type :=
| PNone
| PDict (d : gmap string PyVal)
| PModule (vals : list Q).            (* a pickled network object *)

Inductive Blob : Type :=
| Pickle (o : PyObj)
| Garbage.                            (* bytes that torch.load rejects *)

(** [if o:] *)
Definition truthy (o : PyObj) : bool :=
  match o with
  | PNone => false
  | PDict d => negb (bool_decide (d = ∅))
  | PModule _ => true
  end.

(** [o[key]] *)
Definition subscript (o : PyObj) (key : string) : result PyVal :=
  match o with
  | PNone => Raise TypeError
  | PDict d => match d !! key with
               | Some v => Ok v
               | None => Raise KeyError
               end
  | PModule _ => Raise TypeError
  end.

(** [if s:] for a string *)
Definition nonempty (s : string) : bool :=
  match s with
  | EmptyString => false
  | String _ _ => true
  end.

(** [sub in s] *)
Fixpoint contains (sub s : string) : bool :=
  String.prefix sub s ||
  match s with
  | EmptyString => false
  | String _ s' => contains sub s'
  end.

Fixpoint ends_with_slash (s : string) : bool :=
  match s with
  | EmptyString => false
  | String c EmptyString => bool_decide (c = "/"%char)
  | String _ s' => ends_with_slash s'
  end.

(** [os.path.join(d, name)] for a relative [name]. *)
Definition path_join (d name : string) : string :=
  if negb (nonempty d) then name
  else if ends_with_slash d then d +:+ name
  else d +:+ "/" +:+ name.

(** [a // b] and [a % b] on Python ints. *)
Definition floordiv (a b : Z) : result Z :=
  if decide (b = 0) then Raise ZeroDivisionError else Ok (a `div` b).

Definition pymod (a b : Z) : result Z :=
  if decide (b = 0) then Raise ZeroDivisionError else Ok (a `mod` b).

(** [x ** n] for a float [x] and an int [n]. *)
Definition fpow (x : Q) (n : Z) : result Q :=
  if Qeq_bool x 0 && (n <? 0) then Raise ZeroDivisionError
  else Ok (Qpower x n).

(** ** The state the trainer runs in *)

(** A parameter tensor, one scalar per address: its value and its [.grad]. *)
Record Param : Type := mkParam {
  data : Q;
  grad : option Q
}.

(** What the run emits: the Logger's calls and the [torch.save] calls. *)
Inductive Event : Type :=
| EvImage (name : string) (n : Z) (image : tensor 4)
| EvScalars (n : Z) (scalars : list (string * Q))
| EvSave (path : string) (b : Blob).

(** [fs] is the local file system, [cloud] the files of the wandb runs by
    run path, [run_dir] is [wandb.run.dir], [current_iteration] is the
    Logger's field and [heap] the parameter store.  The upload of new
    checkpoint files that [auto_sync_checkpoints_to_wandb] asks the wandb
    client for happens in the background and is not part of the state. *)
Record State : Type := mkState {
  fs : gmap string Blob;
  cloud : gmap string (gmap string Blob);
  run_dir : string;
  trace : list Event;
  current_iteration : Z;
  heap : list Param
}.

Definition set_fs (f : gmap string Blob -> gmap string Blob) (s : State) : State :=
  mkState (f (fs s)) (cloud s) (run_dir s) (trace s) (current_iteration s) (heap s).

Definition emit (e : Event) (s : State) : State :=
  mkState (fs s) (cloud s) (run_dir s) (trace s ++ [e]) (current_iteration s) (heap s).

Definition set_current_iteration (n : Z) (s : State) : State :=
  mkState (fs s) (cloud s) (run_dir s) (trace s) n (heap s).

Definition set_heap (f : list Param -> list Param) (s : State) : State :=
  mkState (fs s) (cloud s) (run_dir s) (trace s) (current_iteration s) (f (heap s)).

(** *** Files: torch.save, torch.load, shutil.copyfile, wandb.restore *)

Definition torch_save (o : PyObj) (path : string) : M State unit :=
  modify (fun s => emit (EvSave path (Pickle o)) (set_fs <[path := Pickle o]> s)).

Definition torch_load (path : string) : M State PyObj :=
  s ← get;
  match fs s !! path with
  | None => raise FileNotFoundError
  | Some Garbage => raise UnpicklingError
  | Some (Pickle o) => mret o
  end.

Definition copyfile (src dst : string) : M State unit :=
  if decide (src = dst) then raise SameFileError
  else
    s ← get;
    match fs s !! src with
    | None => raise FileNotFoundError
    | Some b => modify (set_fs <[dst := b]>)
    end.

(** [wandb.restore(name, run_path=run_path)]: the run is looked up first; a
    file already present in the run directory is kept (replace=False);
    otherwise the run's file, if it has one, is downloaded there. *)
Definition wandb_restore (name run_path : string) : M State unit :=
  s ← get;
  match cloud s !! run_path with
  | None => raise CommError
  | Some files =>
      let path := path_join (run_dir s) name in
      match fs s !! path with
      | Some _ => mret tt
      | None => match files !! name with
                | Some b => modify (set_fs <[path := b]>)
                | None => mret tt
                end
      end
  end.

(** *** The Logger *)

Module Logger.

Definition begin (n_iter : Z) : M State unit :=
  modify (set_current_iteration n_iter).

Definition add_image (image : tensor 4) (name : string) : M State unit :=
  modify (fun s => emit (EvImage name (current_iteration s) image) s).

Definition add_scalars (dictionary : list (string * Q)) : M State unit :=
  modify (fun s => emit (EvScalars (current_iteration s) dictionary) s).

End Logger.

(** *** The parameter store *)

Definition value_at (h : list Param) (l : nat) : Q :=
  from_option data 0%Q (h !! l).

Definition values (m : NNModule) : M State (list Q) :=
  s ← get; mret (value_at (heap s) <$> parameters m).

(** A fresh module with the given initial values. *)
Definition new_module (init : list Q) : M State NNModule :=
  s ← get;
  modify (set_heap (fun h => h ++ ((fun v => mkParam v None) <$> init)));;
  mret (mkModule (seq (length (heap s)) (length init))).

(** [net.module] *)
Definition getattr_module (o : Obj) : result Obj :=
  match o with
  | ONet (DataParallel m) => Ok (ONet (Plain m))
  | ONet (Plain _) => Raise AttributeError
  | OOptim _ => Raise AttributeError
  end.

Definition group_hyper (g : ParamGroup) : Q * (Q * Q) * Q * nat :=
  (pg_lr g, pg_betas g, pg_weight_decay g, length (pg_params g)).

(** [o.state_dict()] *)
Definition state_dict (o : Obj) : M State StateDict :=
  match o with
  | ONet (Plain m) => vs ← values m; mret (SDNet false vs)
  | ONet (DataParallel m) => vs ← values m; mret (SDNet true vs)
  | OOptim opt =>
      mret (SDOptim ((fun l => opt_state opt !! l) <$>
                       concat (pg_params <$> param_groups opt))
                    (group_hyper <$> param_groups opt))
  end.

Fixpoint write_values (ls : list nat) (vs : list Q) (h : list Param) : list Param :=
  match ls, vs with
  | l :: ls', v :: vs' =>
      write_values ls' vs' (alter (fun p => mkParam v (grad p)) l h)
  | _, _ => h
  end.

(** [net.load_state_dict(v)] *)
Definition load_state_dict (m : NNModule) (v : PyVal) : M State unit :=
  match v with
  | VState (SDNet false vs) =>
      if decide (length vs = length (parameters m))
      then modify (set_heap (write_values (parameters m) vs))
      else raise RuntimeError
  | _ => raise RuntimeError
  end.

Fixpoint load_groups (gs : list ParamGroup) (hs : list (Q * (Q * Q) * Q * nat))
  : option (list ParamGroup) :=
  match gs, hs with
  | [], [] => Some []
  | g :: gs', (lr, betas, wd, n) :: hs' =>
      if decide (length (pg_params g) = n)
      then cons (mkParamGroup (pg_params g) lr betas wd) <$> load_groups gs' hs'
      else None
  | _, _ => None
  end.

Fixpoint load_states (ls : list nat) (sts : list (option AdamState))
  : gmap nat AdamState :=
  match ls, sts with
  | l :: ls', Some st :: sts' => <[l := st]> (load_states ls' sts')
  | _ :: ls', None :: sts' => load_states ls' sts'
  | _, _ => ∅
  end.

(** [optimizer.load_state_dict(v)] *)
Definition optimizer_load_state_dict (o : Optimizer) (v : PyVal) : result Optimizer :=
  match v with
  | VState (SDOptim sts hs) =>
      match load_groups (param_groups o) hs with
      | Some gs => Ok (mkOptimizer gs
                         (load_states (concat (pg_params <$> param_groups o)) sts))
      | None => Raise ValueError
      end
  | _ => Raise ValueError
  end.

(** [torch.optim.Adam(params, lr=lr, betas=betas, weight_decay=wd)] *)
Definition Adam (params : list nat) (lr : Q) (betas : Q * Q) (wd : Q) : Optimizer :=
  mkOptimizer [mkParamGroup params lr betas wd] ∅.

Definition optimizer_params (o : Optimizer) : list nat :=
  concat (pg_params <$> param_groups o).

(** [optimizer.zero_grad()]: an existing gradient is zeroed in place. *)
Definition zero_grad (o : Optimizer) : M State unit :=
  modify (set_heap (fun h =>
    foldr (alter (fun p => mkParam (data p) ((fun _ => 0%Q) <$> grad p)))
          h (optimizer_params o))).

(** What [loss.backward()] does to the leaves of the graph: the derivative
    is added to [.grad]. *)
Fixpoint accumulate (ls : list nat) (gs : list Q) (h : list Param) : list Param :=
  match ls, gs with
  | l :: ls', g :: gs' =>
      accumulate ls' gs'
        (alter (fun p => mkParam (data p)
                           (Some (from_option (fun g0 => g0 + g) g (grad p))%Q)) l h)
  | _, _ => h
  end.

(** ** The checkpoint manager: [restore] and [save_state] *)

Definition restore (opt : Opt) : M State PyObj :=
  if negb (nonempty (opt_restore opt)) then mret PNone
  else
    try_except
      (s ← get;
       let file := "checkpoint_" +:+ opt_restore opt +:+ ".pth" in
       (if contains "/home" (wandb_runpath opt)
        then copyfile (wandb_runpath opt) (path_join (run_dir s) file)
        else wandb_restore file (wandb_runpath opt));;
       checkpoint ← torch_load (path_join (run_dir s) file);
       mret checkpoint)
      (fun e => mret PNone).

Definition package (opt : Opt) (model : Obj) : M State StateDict :=
  if multi_gpu opt
  then m ← lift (getattr_module model); state_dict m
  else state_dict model.

Definition save_state (epoch batch n_iter : Z)
    (G optimizer_g D optimizer_d : Obj) (loss : Q) (opt : Opt) : M State unit :=
  sd_G ← package opt G;
  sd_optimizer_g ← package opt optimizer_g;
  sd_D ← package opt D;
  sd_optimizer_d ← package opt optimizer_d;
  let state : gmap string PyVal :=
    <["epoch" := VInt epoch]> (
    <["G" := VState sd_G]> (
    <["optimizer_g" := VState sd_optimizer_g]> (
    <["D" := VState sd_D]> (
    <["optimizer_d" := VState sd_optimizer_d]> (
    <["n_iter" := VInt n_iter]> (
    <["loss" := VFloat loss]> ∅)))))) in
  s ← get;
  torch_save (PDict state)
    (path_join (run_dir s) ("checkpoint_" +:+ pretty n_iter +:+ ".pth"));;
  torch_save (PDict state) (path_join (run_dir s) "checkpoint_latest.pth").

(** ** The learning-rate schedule *)

Definition set_lr (lr : Q) (g : ParamGroup) : ParamGroup :=
  mkParamGroup (pg_params g) lr (pg_betas g) (pg_weight_decay g).

Definition adjust_learning_rate (lr_in : Q) (optimizer : Optimizer) (epoch : Z)
    (opt : Opt) : result Optimizer :=
  k ← floordiv epoch (lr_decrease_epoch opt);
  d ← fpow (lr_decrease_factor opt) k;
  let lr := (lr_in * d)%Q in
  Ok (mkOptimizer (set_lr lr <$> param_groups optimizer) (opt_state optimizer)).


(** ** The code of other modules

    [utils.create_*] (the initial parameter values of the three networks),
    the networks' forward passes as functions of their parameter values,
    [utils.normalize_ImageNet_stats], autograd (the derivative of a scalar
    function of parameter values at a point), Adam's update of one
    parameter, and the batches [DataLoader] yields in each epoch. *)

Class Torch : Type := mkTorch {
  create_generator : Opt -> list Q;
  create_discriminator : Opt -> list Q;
  create_perceptualnet : list Q;
  generator_forward : list Q -> tensor 4 -> tensor 4 -> result (tensor 4 * tensor 4);
  discriminator_forward : list Q -> tensor 4 -> tensor 4 -> result (tensor 4);
  perceptualnet_forward : list Q -> tensor 4 -> result (tensor 4);
  normalize_ImageNet_stats : tensor 4 -> result (tensor 4);
  gradient : (list Q -> result Q) -> list Q -> list Q;
  adam_update : Q -> Q * Q -> Q -> option AdamState -> Q -> Q -> Q * AdamState;
  dataloader : Opt -> Z -> list (tensor 4 * tensor 4)
}.

Section Trainer.
Context {T : Torch}.

(** *** Optimizer steps and backward passes *)

(** [optimizer.step()] on one parameter: a parameter without gradient is
    skipped. *)
Definition step_param (g : ParamGroup) (acc : list Param * gmap nat AdamState)
    (l : nat) : list Param * gmap nat AdamState :=
  match acc.1 !! l with
  | Some (mkParam v (Some d)) =>
      let r := adam_update (pg_lr g) (pg_betas g) (pg_weight_decay g)
                           (acc.2 !! l) v d in
      (<[l := mkParam r.1 (Some d)]> acc.1, <[l := r.2]> acc.2)
  | _ => acc
  end.

Definition step_group (acc : list Param * gmap nat AdamState) (g : ParamGroup)
  : list Param * gmap nat AdamState :=
  foldl (step_param g) acc (pg_params g).

Definition step (o : Optimizer) : M State Optimizer :=
  s ← get;
  let r := foldl step_group (heap s, opt_state o) (param_groups o) in
  modify (set_heap (fun _ => r.1));;
  mret (mkOptimizer (param_groups o) r.2).

(** [loss.backward()], as far as the parameters of [m] are concerned: [f] is
    the loss as a function of their values. *)
Definition backward (f : list Q -> result Q) (m : NNModule) : M State unit :=
  θ ← values m;
  modify (set_heap (accumulate (parameters m) (gradient f θ))).

(** *** Model and optimizer assembly *)

Definition create_networks (opt : Opt) (checkpoint : PyObj)
  : M State (Net * Net * Net) :=
  generator ← new_module (create_generator opt);
  discriminator ← new_module (create_discriminator opt);
  perceptualnet ← new_module create_perceptualnet;
  (if truthy checkpoint
   then
     sd_G ← lift (subscript checkpoint "G");
     load_state_dict generator sd_G;;
     sd_D ← lift (subscript checkpoint "D");
     load_state_dict discriminator sd_D
   else mret tt);;
  if multi_gpu opt
  then mret (DataParallel generator, DataParallel discriminator,
             DataParallel perceptualnet)
  else mret (Plain generator, Plain discriminator, Plain perceptualnet).

Definition create_optimizers (generator discriminator : Net) (opt : Opt)
    (checkpoint : PyObj) : result (Optimizer * Optimizer) :=
  let optimizer_g := Adam (net_parameters generator) (lr_g opt)
                          (b1 opt, b2 opt) (weight_decay opt) in
  let optimizer_d := Adam (net_parameters discriminator) (lr_d opt)
                          (b1 opt, b2 opt) (weight_decay opt) in
  if truthy checkpoint
  then
    sd_g ← subscript checkpoint "optimizer_g";
    optimizer_g ← optimizer_load_state_dict optimizer_g sd_g;
    sd_d ← subscript checkpoint "optimizer_d";
    optimizer_d ← optimizer_load_state_dict optimizer_d sd_d;
    Ok (optimizer_g, optimizer_d)
  else Ok (optimizer_g, optimizer_d).

(** *** What both training loops share *)

(** [img * (1 - mask) + out * mask] *)
Definition whole_image (img mask out : tensor 4) : result (tensor 4) :=
  keep ← mul img (tmap (fun m => 1 - m)%Q 4 mask);
  fill ← mul out mask;
  add keep fill.

(** [(t + 1) / 2] *)
Definition to_unit_range (t : tensor 4) : tensor 4 :=
  tmap (fun v => (v + 1) / 2)%Q 4 t.

(** The perceptual loss of the refined composite (the five lines after
    "Get the deep semantic feature maps"). *)
Definition perceptual_loss (θP : list Q) (img second_out_wholeimg : tensor 4)
  : result Q :=
  img' ← normalize_ImageNet_stats (to_unit_range img);
  img_featuremaps ← perceptualnet_forward θP img';
  second' ← normalize_ImageNet_stats (to_unit_range second_out_wholeimg);
  second_out_wholeimg_featuremaps ← perceptualnet_forward θP second';
  L1Loss second_out_wholeimg_featuremaps img_featuremaps.

Record Losses : Type := mkLosses {
  first_MaskL1Loss : Q;
  second_MaskL1Loss : Q;
  GAN_Loss : Q;
  second_PerceptualLoss : Q;
  loss : Q
}.

Definition enumerate {A} (l : list A) : list (Z * A) :=
  zip (seqZ 0 (Z.of_nat (length l))) l.

Definition as_int (v : PyVal) : result Z :=
  match v with
  | VInt z => Ok z
  | _ => Raise TypeError
  end.

(** *** [WGAN_trainer] *)

(** [loss_D] as a function of the discriminator's parameter values; the
    composite is detached. *)
Definition WGAN_loss_D (θD : list Q) (second_out_wholeimg img mask : tensor 4)
  : result Q :=
  fake_scalar ← discriminator_forward θD second_out_wholeimg mask;
  true_scalar ← discriminator_forward θD img mask;
  Ok (- mean true_scalar + mean fake_scalar)%Q.

(** The generator's loss terms, from "Mask L1 Loss" to "Compute losses". *)
Definition WGAN_generator_losses (opt : Opt) (θD θP : list Q)
    (img mask first_out_wholeimg second_out_wholeimg : tensor 4) : result Losses :=
  first_MaskL1Loss ← L1Loss first_out_wholeimg img;
  second_MaskL1Loss ← L1Loss second_out_wholeimg img;
  fake_scalar ← discriminator_forward θD second_out_wholeimg mask;
  let GAN_Loss := (- mean fake_scalar)%Q in
  second_PerceptualLoss ← perceptual_loss θP img second_out_wholeimg;
  let loss := (first_MaskL1Loss + second_MaskL1Loss
               + perceptual_param opt * second_PerceptualLoss
               + gan_param opt * GAN_Loss)%Q in
  Ok (mkLosses first_MaskL1Loss second_MaskL1Loss GAN_Loss
               second_PerceptualLoss loss).

(** [loss] as a function of the parameter values of both players: what
    [loss.backward()] differentiates. *)
Definition WGAN_loss (opt : Opt) (θP : list Q) (img mask : tensor 4)
    (θG θD : list Q) : result Q :=
  outs ← generator_forward θG img mask;
  first_out_wholeimg ← whole_image img mask outs.1;
  second_out_wholeimg ← whole_image img mask outs.2;
  terms ← WGAN_generator_losses opt θD θP img mask
             first_out_wholeimg second_out_wholeimg;
  Ok (loss terms).

(** From "Fake samples" to [optimizer_d.step()]. *)
Definition WGAN_discriminator_step (discriminator : Net) (optimizer_d : Optimizer)
    (img mask second_out_wholeimg : tensor 4) : M State (Q * Optimizer) :=
  θD ← values (net_module discriminator);
  loss_D ← lift (WGAN_loss_D θD second_out_wholeimg img mask);
  backward (fun θ => WGAN_loss_D θ second_out_wholeimg img mask)
           (net_module discriminator);;
  optimizer_d ← step optimizer_d;
  mret (loss_D, optimizer_d).

(** From [optimizer_g.zero_grad()] to [optimizer_g.step()]. *)
Definition WGAN_generator_step (opt : Opt) (generator discriminator perceptualnet : Net)
    (optimizer_g : Optimizer)
    (img mask first_out_wholeimg second_out_wholeimg : tensor 4)
  : M State (Losses * Optimizer) :=
  zero_grad optimizer_g;;
  θG ← values (net_module generator);
  θD ← values (net_module discriminator);
  θP ← values (net_module perceptualnet);
  terms ← lift (WGAN_generator_losses opt θD θP img mask
                  first_out_wholeimg second_out_wholeimg);
  backward (fun θ => WGAN_loss opt θP img mask θ θD) (net_module generator);;
  backward (fun θ => WGAN_loss opt θP img mask θG θ) (net_module discriminator);;
  optimizer_g ← step optimizer_g;
  mret (terms, optimizer_g).

(** The body of the inner loop; [vars] are [n_iter], [optimizer_g] and
    [optimizer_d].  The console prints are left out. *)
Definition WGAN_batch (opt : Opt) (generator discriminator perceptualnet : Net)
    (epoch : Z) (vars : Z * Optimizer * Optimizer)
    (item : Z * (tensor 4 * tensor 4)) : M State (Z * Optimizer * Optimizer) :=
  let batch_idx := item.1 in
  let img := item.2.1 in
  let mask := item.2.2 in
  let n_iter := vars.1.1 + 1 in
  Logger.begin n_iter;;
  zero_grad vars.2;;
  θG ← values (net_module generator);
  outs ← lift (generator_forward θG img mask);
  first_out_wholeimg ← lift (whole_image img mask outs.1);
  second_out_wholeimg ← lift (whole_image img mask outs.2);
  r ← lift (pymod n_iter (log_every opt));
  (if decide (r = 1)
   then
     Logger.add_image img "image/training";;
     Logger.add_image mask "mask/training";;
     Logger.add_image first_out_wholeimg "image/first iteration";;
     Logger.add_image second_out_wholeimg "image/second iteration"
   else mret tt);;
  d ← WGAN_discriminator_step discriminator vars.2 img mask second_out_wholeimg;
  g ← WGAN_generator_step opt generator discriminator perceptualnet vars.1.2
        img mask first_out_wholeimg second_out_wholeimg;
  Logger.add_scalars
    [("Epoch", inject_Z (epoch + 1));
     ("Iteration", inject_Z n_iter);
     ("loss/first Mask L1 Loss", first_MaskL1Loss g.1);
     ("loss/second Mask L1 Loss", second_MaskL1Loss g.1);
     ("gan/D Loss", d.1);
     ("gan/G Loss", GAN_Loss g.1);
     ("Perceptual Loss", second_PerceptualLoss g.1)];;
  r ← lift (pymod n_iter (checkpoint_every opt));
  (if decide (r = 1)
   then save_state epoch batch_idx n_iter
          (ONet generator) (OOptim g.2) (ONet discriminator) (OOptim d.2)
          (loss g.1) opt
   else mret tt);;
  mret (n_iter, g.2, d.2).

(** The body of the outer loop: the batches of the epoch, then the
    learning-rate decrease of both optimizers. *)
Definition WGAN_epoch (opt : Opt) (generator discriminator perceptualnet : Net)
    (vars : Z * Optimizer * Optimizer) (epoch : Z)
  : M State (Z * Optimizer * Optimizer) :=
  vars ← foldM (WGAN_batch opt generator discriminator perceptualnet epoch)
               vars (enumerate (dataloader opt epoch));
  optimizer_g ← lift (adjust_learning_rate (lr_g opt) vars.1.2 (epoch + 1) opt);
  optimizer_d ← lift (adjust_learning_rate (lr_d opt) vars.2 (epoch + 1) opt);
  mret (vars.1.1, optimizer_g, optimizer_d).

Definition WGAN_trainer (opt : Opt) : M State unit :=
  Logger.begin 0;;
  checkpoint ← restore opt;
  nets ← create_networks opt checkpoint;
  let generator := nets.1.1 in
  let discriminator := nets.1.2 in
  let perceptualnet := nets.2 in
  optimizers ← lift (create_optimizers generator discriminator opt checkpoint);
  initial_epoch ←
    (if nonempty (opt_restore opt)
     then lift (v ← subscript checkpoint "epoch"; as_int v)
     else mret 0);
  n_iter ←
    (if nonempty (opt_restore opt)
     then lift (v ← subscript checkpoint "n_iter"; as_int v)
     else mret 0);
  foldM (WGAN_epoch opt generator discriminator perceptualnet)
        (n_iter, optimizers.1, optimizers.2)
        (seqZ initial_epoch (epochs opt - initial_epoch));;
  mret tt.

(** *** [LSGAN_trainer] *)

(** [loss_D] from the two score maps and the LSGAN target maps. *)
Definition LSGAN_discriminator_loss (fake_scalar true_scalar valid fake : tensor 4)
  : result Q :=
  loss_fake ← MSELoss fake_scalar fake;
  loss_true ← MSELoss true_scalar valid;
  Ok ((1 # 2) * (loss_fake + loss_true))%Q.

Definition LSGAN_loss_D (θD : list Q) (second_out_wholeimg img mask valid fake : tensor 4)
  : result Q :=
  fake_scalar ← discriminator_forward θD second_out_wholeimg mask;
  true_scalar ← discriminator_forward θD img mask;
  LSGAN_discriminator_loss fake_scalar true_scalar valid fake.

Definition LSGAN_generator_losses (opt : Opt) (θD θP : list Q)
    (img mask valid first_out_wholeimg second_out_wholeimg : tensor 4)
  : result Losses :=
  first_MaskL1Loss ← L1Loss first_out_wholeimg img;
  second_MaskL1Loss ← L1Loss second_out_wholeimg img;
  fake_scalar ← discriminator_forward θD second_out_wholeimg mask;
  GAN_Loss ← MSELoss fake_scalar valid;
  second_PerceptualLoss ← perceptual_loss θP img second_out_wholeimg;
  let loss := (first_MaskL1Loss + second_MaskL1Loss
               + perceptual_param opt * second_PerceptualLoss
               + gan_param opt * GAN_Loss)%Q in
  Ok (mkLosses first_MaskL1Loss second_MaskL1Loss GAN_Loss
               second_PerceptualLoss loss).

Definition LSGAN_loss (opt : Opt) (θP : list Q) (img mask valid : tensor 4)
    (θG θD : list Q) : result Q :=
  outs ← generator_forward θG img mask;
  first_out_wholeimg ← whole_image img mask outs.1;
  second_out_wholeimg ← whole_image img mask outs.2;
  terms ← LSGAN_generator_losses opt θD θP img mask valid
             first_out_wholeimg second_out_wholeimg;
  Ok (loss terms).

(** The two optimizers as [LSGAN_trainer] constructs them: both over
    [generator.parameters()]. *)
Definition LSGAN_optimizers (generator : Net) (opt : Opt) : Optimizer * Optimizer :=
  (Adam (net_parameters generator) (lr_g opt) (b1 opt, b2 opt) (weight_decay opt),
   Adam (net_parameters generator) (lr_d opt) (b1 opt, b2 opt) (weight_decay opt)).

(** [net.module] on a network. *)
Definition net_getattr_module (net : Net) : result Net :=
  match net with
  | DataParallel m => Ok (Plain m)
  | Plain _ => Raise AttributeError
  end.

(** [torch.save(net, path)] pickles the network object with its values. *)
Definition torch_save_net (net : Net) (path : string) : M State unit :=
  vs ← values (net_module net);
  torch_save (PModule vs) path.

Definition save_model (net : Net) (epoch : Z) (opt : Opt) : M State unit :=
  let name := "deepfillNet_epoch" +:+ pretty epoch +:+ "_batchsize"
              +:+ pretty (batch_size opt) +:+ ".pth" in
  if multi_gpu opt
  then
    r ← lift (pymod epoch (checkpoint_interval opt));
    if decide (r = 0)
    then m ← lift (net_getattr_module net); torch_save_net m name
    else mret tt
  else
    r ← lift (pymod epoch (checkpoint_interval opt));
    if decide (r = 0)
    then torch_save_net net name
    else mret tt.

(** The body of the inner loop; [vars] are [optimizer_g] and [optimizer_d].
    The console prints are left out. *)
Definition LSGAN_batch (opt : Opt) (generator discriminator perceptualnet : Net)
    (epoch : Z) (vars : Optimizer * Optimizer)
    (item : Z * (tensor 4 * tensor 4)) : M State (Optimizer * Optimizer) :=
  let img := item.2.1 in
  let mask := item.2.2 in
  let valid : tensor 4 := full 1%Q [length img; 1; 8; 8]%nat in
  let fake : tensor 4 := full 0%Q [length img; 1; 8; 8]%nat in
  zero_grad vars.2;;
  θG ← values (net_module generator);
  outs ← lift (generator_forward θG img mask);
  first_out_wholeimg ← lift (whole_image img mask outs.1);
  second_out_wholeimg ← lift (whole_image img mask outs.2);
  θD ← values (net_module discriminator);
  loss_D ← lift (LSGAN_loss_D θD second_out_wholeimg img mask valid fake);
  backward (fun θ => LSGAN_loss_D θ second_out_wholeimg img mask valid fake)
           (net_module discriminator);;
  optimizer_d ← step vars.2;
  zero_grad vars.1;;
  θG' ← values (net_module generator);
  θD' ← values (net_module discriminator);
  θP ← values (net_module perceptualnet);
  terms ← lift (LSGAN_generator_losses opt θD' θP img mask valid
                  first_out_wholeimg second_out_wholeimg);
  backward (fun θ => LSGAN_loss opt θP img mask valid θ θD') (net_module generator);;
  backward (fun θ => LSGAN_loss opt θP img mask valid θG' θ) (net_module discriminator);;
  optimizer_g ← step vars.1;
  mret (optimizer_g, optimizer_d).

Definition LSGAN_epoch (opt : Opt) (generator discriminator perceptualnet : Net)
    (vars : Optimizer * Optimizer) (epoch : Z) : M State (Optimizer * Optimizer) :=
  vars ← foldM (LSGAN_batch opt generator discriminator perceptualnet epoch)
               vars (enumerate (dataloader opt epoch));
  optimizer_g ← lift (adjust_learning_rate (lr_g opt) vars.1 (epoch + 1) opt);
  optimizer_d ← lift (adjust_learning_rate (lr_d opt) vars.2 (epoch + 1) opt);
  save_model generator (epoch + 1) opt;;
  mret (optimizer_g, optimizer_d).

Definition LSGAN_trainer (opt : Opt) : M State unit :=
  generator ← new_module (create_generator opt);
  discriminator ← new_module (create_discriminator opt);
  perceptualnet ← new_module create_perceptualnet;
  let wrap := if multi_gpu opt then DataParallel else Plain in
  let generator := wrap generator in
  let discriminator := wrap discriminator in
  let perceptualnet := wrap perceptualnet in
  foldM (LSGAN_epoch opt generator discriminator perceptualnet)
        (LSGAN_optimizers generator opt)
        (seqZ 0 (epochs opt));;
  mret tt.

End Trainer.


(** ** Notions the statements below use *)

(** [adjusted lr_in opt o o']: [o'] is [o] after any number of earlier calls
    of [adjust_learning_rate], at any epochs. *)
Inductive adjusted (lr_in : Q) (opt : Opt) (o : Optimizer) : Optimizer -> Prop :=
| adjusted_refl : adjusted lr_in opt o o
| adjusted_step o1 o2 e :
    adjusted lr_in opt o o1 ->
    adjust_learning_rate lr_in o1 e opt = Ok o2 ->
    adjusted lr_in opt o o2.

(** The rate the schedule prescribes once [e] epochs are completed. *)
Definition scheduled_lr (lr_in : Q) (opt : Opt) (e : Z) : Q :=
  (lr_in * lr_decrease_factor opt ^ (e `div` lr_decrease_epoch opt))%Q.


(** Two states that differ at most in the parameter store. *)
Definition same_world (s s' : State) : Prop :=
  fs s' = fs s /\ cloud s' = cloud s /\ run_dir s' = run_dir s /\
  trace s' = trace s /\ current_iteration s' = current_iteration s.

(** A computation that touches nothing but the parameter store. *)
Definition heap_only {A} (m : M State A) : Prop :=
  forall s, same_world s (m s).2.

(** A computation that emits nothing and leaves the run directory. *)
Definition quiet {A} (m : M State A) : Prop :=
  forall s, trace (m s).2 = trace s /\ run_dir (m s).2 = run_dir s.


(** A computation that leaves the parameter store as it is, and one that
    leaves the value of every parameter outside [ls] as it is, whatever its
    outcome. *)
Definition keeps_heap {A} (m : M State A) : Prop :=
  forall s, heap (m s).2 = heap s.

Definition keeps_values {A} (ls : list nat) (m : M State A) : Prop :=
  forall s l, l ∉ ls -> value_at (heap (m s).2) l = value_at (heap s) l.


(** The file names [save_state] writes to. *)
Definition checkpoint_path (rd : string) (n_iter : Z) : string :=
  path_join rd ("checkpoint_" +:+ pretty n_iter +:+ ".pth").

Definition latest_path (rd : string) : string :=
  path_join rd "checkpoint_latest.pth".

(** The dictionary [save_state] pickles holds the full training state. *)
Definition training_state (d : gmap string PyVal) (epoch n_iter : Z) (loss : Q)
  : Prop :=
  d !! "epoch" = Some (VInt epoch) /\
  d !! "n_iter" = Some (VInt n_iter) /\
  d !! "loss" = Some (VFloat loss) /\
  (exists sd, d !! "G" = Some (VState sd)) /\
  (exists sd, d !! "D" = Some (VState sd)) /\
  (exists sd, d !! "optimizer_g" = Some (VState sd)) /\
  (exists sd, d !! "optimizer_d" = Some (VState sd)).

(** The names of the scalars logged in each iteration. *)
Definition scalar_names : list string :=
  ["Epoch"; "Iteration"; "loss/first Mask L1 Loss"; "loss/second Mask L1 Loss";
   "gan/D Loss"; "gan/G Loss"; "Perceptual Loss"].


(** The four images logged on the logging cadence. *)
Definition image_events (n : Z) (img mask first_out_wholeimg second_out_wholeimg : tensor 4)
  : list Event :=
  [EvImage "image/training" n img;
   EvImage "mask/training" n mask;
   EvImage "image/first iteration" n first_out_wholeimg;
   EvImage "image/second iteration" n second_out_wholeimg].

(** What iteration [n] of [WGAN_trainer], on the batch [(img, mask)], emits:
    on the logging cadence the four images, then always the scalars, then on
    the checkpoint cadence the two copies of the training state. *)
Definition batch_events (opt : Opt) (rd : string) (n : Z) (img mask : tensor 4)
    (evs : list Event) : Prop :=
  exists images scalars saves,
    evs = images ++ EvScalars n scalars :: saves /\
    scalars.*1 = scalar_names /\
    (if decide (n `mod` log_every opt = 1)
     then exists first_out second_out fw sw,
            whole_image img mask first_out = Ok fw /\
            whole_image img mask second_out = Ok sw /\
            images = image_events n img mask fw sw
     else images = []) /\
    (if decide (n `mod` checkpoint_every opt = 1)
     then exists d epoch loss,
            training_state d epoch n loss /\
            saves = [EvSave (checkpoint_path rd n) (Pickle (PDict d));
                     EvSave (latest_path rd) (Pickle (PDict d))]
     else saves = []).

(** What a run emits on the batches [batches], the iteration counter being
    [n0] before the first of them. *)
Fixpoint run_events (opt : Opt) (rd : string) (n0 : Z)
    (batches : list (tensor 4 * tensor 4)) (evs : list Event) : Prop :=
  match batches with
  | [] => evs = []
  | b :: rest =>
      exists e1 e2,
        evs = e1 ++ e2 /\
        batch_events opt rd (n0 + 1) b.1 b.2 e1 /\
        run_events opt rd (n0 + 1) rest e2
  end.



Definition image_iterations (tr : list Event) : list Z :=
  omap (fun e => match e with EvImage _ n _ => Some n | _ => None end) tr.

(** The files a trace saves to. *)
Definition saved_paths (tr : list Event) : list string :=
  omap (fun e => match e with EvSave p _ => Some p | _ => None end) tr.


(** The file [save_model] writes at the end of epoch [epoch] (counted
    from 1). *)
Definition model_path (opt : Opt) (epoch : Z) : string :=
  "deepfillNet_epoch" +:+ pretty epoch +:+ "_batchsize"
  +:+ pretty (batch_size opt) +:+ ".pth".

(** The file system after the saves of a trace. *)
Definition fs_after (evs : list Event) (f : gmap string Blob) : gmap string Blob :=
  foldl (fun f e => match e with
                    | EvSave p b => <[p := b]> f
                    | _ => f
                    end) f evs.

(** An event that saves a network object of [n_params] values at the end
    of one of the epochs [1 .. epochs] that is a multiple of
    [checkpoint_interval]. *)
Definition generator_save (opt : Opt) (n_params : nat) (ev : Event) : Prop :=
  exists epoch vals,
    ev = EvSave (model_path opt epoch) (Pickle (PModule vals)) /\
    1 <= epoch <= epochs opt /\
    epoch `mod` checkpoint_interval opt = 0 /\
    length vals = n_params.


(** ** Sample inputs

    Small concrete configurations, states and stand-ins for the external
    code, on which the model is run. *)

Module Sample.

Definition opt : Opt :=
  {| lr_g := 1 # 10000; lr_d := 4 # 10000; b1 := 1 # 2; b2 := 999 # 1000;
     weight_decay := 1 # 100;
     lr_decrease_factor := 1 # 2; lr_decrease_epoch := 10;
     perceptual_param := 10; gan_param := 1;
     batch_size := 1; epochs := 2;
     log_every := 3; checkpoint_every := 2; checkpoint_interval := 2;
     multi_gpu := false; opt_restore := ""; wandb_runpath := "" |}.

Definition with_multi_gpu (o : Opt) : Opt :=
  mkOpt (lr_g o) (lr_d o) (b1 o) (b2 o) (weight_decay o)
        (lr_decrease_factor o) (lr_decrease_epoch o)
        (perceptual_param o) (gan_param o) (batch_size o) (epochs o)
        (log_every o) (checkpoint_every o) (checkpoint_interval o)
        true (opt_restore o) (wandb_runpath o).

Definition with_restore (id run_path : string) (o : Opt) : Opt :=
  mkOpt (lr_g o) (lr_d o) (b1 o) (b2 o) (weight_decay o)
        (lr_decrease_factor o) (lr_decrease_epoch o)
        (perceptual_param o) (gan_param o) (batch_size o) (epochs o)
        (log_every o) (checkpoint_every o) (checkpoint_interval o)
        (multi_gpu o) id run_path.

(** --restore latest, from a remote run and from a local file. *)
Definition opt_latest : Opt := with_restore "latest" "user/inpainting/run0" opt.
Definition opt_local : Opt :=
  with_restore "latest" "/home/user/run0/checkpoint_7.pth" opt.
Definition opt_multi_gpu : Opt := with_multi_gpu opt.

(** The same options with other cadences: the decay period, the logging
    cadence and the checkpoint cadence. *)
Definition with_cadences (decay_epoch log checkpoint : Z) (o : Opt) : Opt :=
  mkOpt (lr_g o) (lr_d o) (b1 o) (b2 o) (weight_decay o)
        (lr_decrease_factor o) decay_epoch
        (perceptual_param o) (gan_param o) (batch_size o) (epochs o)
        log checkpoint (checkpoint_interval o)
        (multi_gpu o) (opt_restore o) (wandb_runpath o).

Definition opt_no_decay_period : Opt := with_cadences 0 3 2 opt.
Definition opt_cadence_1 : Opt := with_cadences 10 1 1 opt.
Definition opt_log_every_0 : Opt := with_cadences 10 0 2 opt.

(** A fresh run: nothing on disk, no remote run, nothing logged. *)
Definition empty_state : State :=
  {| fs := ∅; cloud := ∅; run_dir := "/home/user/wandb/run1/files";
     trace := []; current_iteration := 0; heap := [] |}.


(** An older checkpoint lies at a local path. *)
Definition old_checkpoint : gmap string PyVal :=
  <["epoch" := VInt 7]> (<["n_iter" := VInt 70]> (<["loss" := VFloat 3]> ∅)).

Definition state_with_file : State :=
  {| fs := {[ "/home/user/run0/checkpoint_7.pth" := Pickle (PDict old_checkpoint) ]};
     cloud := ∅; run_dir := "/home/user/wandb/run1/files";
     trace := []; current_iteration := 0; heap := [mkParam 1 None; mkParam 2 None] |}.

Definition G : Net := Plain (mkModule [0%nat]).
Definition D : Net := Plain (mkModule [1%nat]).
Definition P : Net := Plain (mkModule [2%nat]).
Definition optimizer_g : Optimizer := Adam [0%nat] (1 # 10000) (1 # 2, 999 # 1000) 0.
Definition optimizer_d : Optimizer := Adam [1%nat] (4 # 10000) (1 # 2, 999 # 1000) 0.

(** The three networks hold one parameter each. *)
Definition state_with_nets : State :=
  {| fs := ∅; cloud := ∅; run_dir := "/home/user/wandb/run1/files";
     trace := []; current_iteration := 0;
     heap := [mkParam 1 None; mkParam 2 None; mkParam 1 None] |}.

(** A 1x1x2x2 image, a mask that selects its right column, and two stage
    outputs. *)
Definition img : tensor 4 := [[[[1 # 2; -1 # 2]; [1 # 4; 3 # 4]]]]%Q.
Definition mask : tensor 4 := [[[[0; 1]; [0; 1]]]]%Q.
Definition first_out : tensor 4 := [[[[1 # 10; 2 # 10]; [3 # 10; 4 # 10]]]]%Q.
Definition second_out : tensor 4 := [[[[5 # 10; 6 # 10]; [7 # 10; 8 # 10]]]]%Q.

(** Stand-ins for the external code: one-parameter networks, a difference
    quotient for autograd, and for Adam a unit step against the sign of the
    decayed gradient.  Fractions are kept in lowest terms. *)
Definition scale (c : Q) (t : tensor 4) : tensor 4 :=
  tmap (fun v => Qred (c * v)) 4 t.

Definition first_value (θ : list Q) : Q := default 0%Q (head θ).

Definition bump (θ : list Q) (i : nat) : list Q := alter (fun v => v + 1)%Q i θ.

Definition difference (f : list Q -> result Q) (θ : list Q) (i : nat) : Q :=
  match f (bump θ i), f θ with
  | Ok a, Ok b => Qred (a - b)
  | _, _ => 0%Q
  end.

Definition sign (q : Q) : Q := inject_Z (Z.sgn (Qnum q)).

Definition torch : Torch :=
  {| create_generator := fun _ => [1]%Q;
     create_discriminator := fun _ => [2]%Q;
     create_perceptualnet := [1]%Q;
     generator_forward := fun θ img mask =>
       Ok (scale (first_value θ) img, scale (first_value θ * first_value θ) img);
     discriminator_forward := fun θ x mask =>
       Ok [[[[ Qred (first_value θ * mean x) ]]]];
     perceptualnet_forward := fun θ x => Ok (scale (first_value θ) x);
     normalize_ImageNet_stats := fun x => Ok x;
     gradient := fun f θ => difference f θ <$> seq 0 (length θ);
     adam_update := fun lr betas wd st p g =>
       (Qred (p - sign (g + wd * p)),
        mkAdamState (from_option step_count 0 st + 1) g (Qred (g * g)));
     dataloader := fun _ _ => [(img, mask); (img, mask); (img, mask)] |}.

(** A second run that resumes from the "latest" checkpoint the first run
    left in its run directory. *)
Definition opt_resume : Opt :=
  with_restore "latest" "/home/user/wandb/run1/files/checkpoint_latest.pth" opt.

Definition resume_state : State :=
  {| fs := fs (WGAN_trainer (T := torch) opt empty_state).2;
     cloud := ∅; run_dir := "/home/user/wandb/run2/files";
     trace := []; current_iteration := 0; heap := [] |}.

(** A checkpoint that holds the values of a generator and of a
    discriminator of one parameter each. *)
Definition net_checkpoint : gmap string PyVal :=
  <["G" := VState (SDNet false [5%Q])]> (<["D" := VState (SDNet false [6%Q])]> ∅).

(** Optimizers after some steps, with learning rates other than those of
    [opt], and a checkpoint that holds their state dictionaries. *)
Definition trained_optimizer_g : Optimizer :=
  mkOptimizer [mkParamGroup [0%nat] (1 # 20000) (1 # 2, 999 # 1000) 0]
              {[ 0%nat := mkAdamState 3 1 1 ]}.
Definition trained_optimizer_d : Optimizer :=
  mkOptimizer [mkParamGroup [1%nat] (1 # 5000) (1 # 2, 999 # 1000) 0]
              {[ 1%nat := mkAdamState 3 2 4 ]}.
Definition optimizer_checkpoint : gmap string PyVal :=
  <["optimizer_g" :=
       VState (SDOptim [Some (mkAdamState 3 1 1)]
                       [(1 # 20000, (1 # 2, 999 # 1000), 0%Q, 1%nat)])]>
    (<["optimizer_d" :=
       VState (SDOptim [Some (mkAdamState 3 2 4)]
                       [(1 # 5000, (1 # 2, 999 # 1000), 0%Q, 1%nat)])]> ∅).

(** A mask without a hole. *)
Definition no_hole : tensor 4 := [[[[0; 0]; [0; 0]]]]%Q.

(** A coarse output that differs from [first_out] in the left column only,
    where [mask] is 0. *)
Definition first_out_elsewhere : tensor 4 :=
  [[[[9 # 10; 2 # 10]; [-1 # 10; 4 # 10]]]]%Q.

End Sample.


(** * Facts *)

(** ** Broadcasting *)

Section TensorFacts.
Import Tensor.

Lemma has_shape_cons k d s (t : list (tensor k)) :
  has_shape (S k) (d :: s) t = true <->
  length t = d /\ Forall (fun u => has_shape k s u = true) t.
Proof.
  cbn [has_shape]. rewrite andb_true_iff, Nat.eqb_eq, forallb_forall, Forall_forall.
  split; intros [Hl Ha]; split; auto; intros u Hu; apply Ha;
    [apply list_elem_of_In | apply list_elem_of_In in Hu]; exact Hu.
Qed.

Lemma tget_cons k (t : list (tensor k)) i idx u :
  t !! i = Some u -> tget (S k) t (i :: idx) = tget k u idx.
Proof. intros H. cbn [tget]. by rewrite H. Qed.

Lemma bidx_cons d s i idx :
  bidx (d :: s) (i :: idx) = (if Nat.eqb d 1 then O else i) :: bidx s idx.
Proof. reflexivity. Qed.

Lemma mapM_spec {A C} (g : A -> result C) (R : A -> C -> Prop) xs :
  (forall i x, xs !! i = Some x -> exists c, g x = Ok c /\ R x c) ->
  exists cs, mapM g xs = Ok cs /\ length cs = length xs /\
    forall i x, xs !! i = Some x -> exists c, cs !! i = Some c /\ R x c.
Proof.
  induction xs as [|x xs IH]; intros Hg.
  - exists []. repeat split. intros i x Hx. destruct i; discriminate Hx.
  - destruct (Hg O x eq_refl) as (c & Hc & HR).
    destruct IH as (cs & Hcs & Hlen & Hall).
    { intros i y Hy. apply (Hg (S i) y Hy). }
    exists (c :: cs). cbn [mapM]. rewrite Hc. cbn. rewrite Hcs. cbn.
    repeat split; [by rewrite Hlen|].
    intros [|i] y Hy; cbn in *; [injection Hy as <-; eauto | eauto].
Qed.

Lemma zipM_spec {A B C} (f : A -> B -> result C) (R : A -> B -> C -> Prop) xs ys :
  length xs = length ys ->
  (forall i x y, xs !! i = Some x -> ys !! i = Some y ->
                 exists c, f x y = Ok c /\ R x y c) ->
  exists cs, zipM f xs ys = Ok cs /\ length cs = length xs /\
    forall i x y, xs !! i = Some x -> ys !! i = Some y ->
                  exists c, cs !! i = Some c /\ R x y c.
Proof.
  revert ys. induction xs as [|x xs IH]; intros [|y ys] Hlen Hf; try discriminate Hlen.
  - exists []. repeat split. intros i x y Hx. destruct i; discriminate Hx.
  - destruct (Hf O x y eq_refl eq_refl) as (c & Hc & HR).
    destruct (IH ys) as (cs & Hcs & Hl & Hall).
    { by injection Hlen. }
    { intros i x' y' Hx Hy. apply (Hf (S i) x' y' Hx Hy). }
    exists (c :: cs). cbn [zipM]. rewrite Hc. cbn. rewrite Hcs. cbn.
    repeat split; [by rewrite Hl|].
    intros [|i] x' y' Hx Hy; cbn in *;
      [injection Hx as <-; injection Hy as <-; eauto | eauto].
Qed.

Lemma bzip_same {A B C} (f : A -> B -> result C) xs ys :
  length xs = length ys -> bzip f xs ys = zipM f xs ys.
Proof. intros H. unfold bzip. by rewrite H, Nat.eqb_refl. Qed.

Lemma bzip_left {A B C} (f : A -> B -> result C) x ys :
  length ys <> 1%nat -> bzip f [x] ys = mapM (f x) ys.
Proof.
  intros H. unfold bzip. cbn [length].
  destruct (Nat.eqb_spec 1 (length ys)); [congruence|done].
Qed.

Lemma bzip_right {A B C} (f : A -> B -> result C) xs y :
  length xs <> 1%nat -> bzip f xs [y] = mapM (fun x => f x y) xs.
Proof.
  intros H. unfold bzip. cbn [length].
  destruct (Nat.eqb_spec (length xs) 1); [congruence|].
  by destruct xs as [|x0 [|x1 xs']].
Qed.

Lemma bdim_cases a b d :
  bdim a b = Some d ->
  (a = b /\ d = a) \/ (a <> b /\ a = 1%nat /\ d = b) \/
  (a <> b /\ a <> 1%nat /\ b = 1%nat /\ d = a).
Proof.
  unfold bdim. destruct (Nat.eqb_spec a b) as [->|Hab].
  - intros [= <-]. by left.
  - destruct (Nat.eqb_spec a 1) as [->|Ha].
    + intros [= <-]. right; left. done.
    + destruct (Nat.eqb_spec b 1) as [->|Hb]; [|discriminate].
      intros [= <-]. right; right. done.
Qed.

(** What a broadcast elementwise operator computes: on operands whose shapes
    broadcast it returns a tensor of the broadcast shape, whose entry at
    [idx] is the operator applied to the entries the operands contribute. *)
Lemma pointwise_spec f n :
  forall sa sb sc (a b : tensor n),
    has_shape n sa a = true -> has_shape n sb b = true ->
    bshape sa sb = Some sc ->
    exists c, pointwise f n a b = Ok c /\ has_shape n sc c = true /\
      forall idx, in_range sc idx = true ->
        exists x y, tget n a (bidx sa idx) = Some x /\
                    tget n b (bidx sb idx) = Some y /\
                    tget n c idx = Some (f x y).
Proof.
  induction n as [|k IH]; intros sa sb sc a b Ha Hb Hs.
  - destruct sa, sb; try discriminate. injection Hs as <-.
    exists (f a b). repeat split. intros [|] Hi; [|discriminate].
    exists a, b. done.
  - change (tensor (S k)) with (list (tensor k)) in a, b.
    destruct sa as [|da sa]; [discriminate|]. destruct sb as [|db sb]; [discriminate|].
    cbn [bshape] in Hs.
    destruct (bdim da db) as [d|] eqn:Hd; [|discriminate].
    destruct (bshape sa sb) as [sc'|] eqn:Hs'; [|discriminate].
    injection Hs as <-.
    apply has_shape_cons in Ha as [Hla Ha], Hb as [Hlb Hb].
    rewrite Forall_lookup in Ha, Hb.
    set (R := fun (x y : tensor k) (c : tensor k) =>
      has_shape k sc' c = true /\
      forall idx, in_range sc' idx = true ->
        exists u v, tget k x (bidx sa idx) = Some u /\
                    tget k y (bidx sb idx) = Some v /\
                    tget k c idx = Some (f u v)).
    assert (Hstep : forall x y, has_shape k sa x = true -> has_shape k sb y = true ->
              exists c, pointwise f k x y = Ok c /\ R x y c).
    { intros x y Hx Hy. destruct (IH sa sb sc' x y Hx Hy Hs') as (c & ? & ? & ?).
      exists c. by repeat split. }
    change (pointwise f (S k) a b) with (bzip (pointwise f k) a b).
    destruct (bdim_cases _ _ _ Hd) as [[-> ->]|[(Hne & -> & ->)|(Hne & Hna & -> & ->)]].
    + (* equal sizes *)
      rewrite bzip_same by congruence.
      destruct (zipM_spec (pointwise f k) R a b) as (c & Hc & Hlc & Hall).
      { congruence. }
      { intros i x y Hx Hy. apply Hstep; eauto. }
      exists c. split; [done|]. split.
      { apply has_shape_cons. split; [congruence|]. apply Forall_lookup.
        intros i u Hu.
        destruct (lookup_lt_is_Some_2 a i) as [x Hx].
        { rewrite <- Hlc. by eapply lookup_lt_Some. }
        destruct (lookup_lt_is_Some_2 b i) as [y Hy].
        { rewrite Hlb, <- Hla, <- Hlc. by eapply lookup_lt_Some. }
        destruct (Hall i x y Hx Hy) as (c' & Hc' & HR & _). congruence. }
      intros [|i idx] Hi; [discriminate|]. cbn [in_range] in Hi.
      apply andb_true_iff in Hi as [Hi Hidx]. apply Nat.ltb_lt in Hi.
      destruct (lookup_lt_is_Some_2 a i) as [x Hx]; [lia|].
      destruct (lookup_lt_is_Some_2 b i) as [y Hy]; [lia|].
      destruct (Hall i x y Hx Hy) as (c' & Hc' & _ & Hget).
      destruct (Hget idx Hidx) as (u & v & Hu & Hv & Huv).
      exists u, v. rewrite !bidx_cons.
      assert ((if Nat.eqb db 1 then O else i) = i) as ->.
      { destruct (Nat.eqb_spec db 1); lia. }
      by rewrite (tget_cons _ _ _ _ _ Hx), (tget_cons _ _ _ _ _ Hy),
        (tget_cons _ _ _ _ _ Hc').
    + (* the left operand has size 1 *)
      destruct a as [|x [|]]; try discriminate Hla.
      rewrite bzip_left by congruence.
      pose proof (Ha O x eq_refl) as Hx.
      destruct (mapM_spec (pointwise f k x) (R x) b) as (c & Hc & Hlc & Hall).
      { intros i y Hy. apply Hstep; eauto. }
      exists c. split; [done|]. split.
      { apply has_shape_cons. split; [congruence|]. apply Forall_lookup.
        intros i u Hu.
        destruct (lookup_lt_is_Some_2 b i) as [y Hy].
        { rewrite <- Hlc. by eapply lookup_lt_Some. }
        destruct (Hall i y Hy) as (c' & Hc' & HR & _). congruence. }
      intros [|i idx] Hi; [discriminate|]. cbn [in_range] in Hi.
      apply andb_true_iff in Hi as [Hi Hidx]. apply Nat.ltb_lt in Hi.
      destruct (lookup_lt_is_Some_2 b i) as [y Hy]; [lia|].
      destruct (Hall i y Hy) as (c' & Hc' & _ & Hget).
      destruct (Hget idx Hidx) as (u & v & Hu & Hv & Huv).
      exists u, v. rewrite !bidx_cons. cbn [Nat.eqb].
      destruct (Nat.eqb_spec db 1) as [?|_]; [congruence|].
      by rewrite (tget_cons _ [x] O _ x eq_refl), (tget_cons _ _ _ _ _ Hy),
        (tget_cons _ _ _ _ _ Hc').
    + (* the right operand has size 1 *)
      destruct b as [|y [|]]; try discriminate Hlb.
      rewrite bzip_right by congruence.
      pose proof (Hb O y eq_refl) as Hy.
      destruct (mapM_spec (fun x => pointwise f k x y) (fun x c => R x y c) a)
        as (c & Hc & Hlc & Hall).
      { intros i x Hx. apply Hstep; eauto. }
      exists c. split; [done|]. split.
      { apply has_shape_cons. split; [congruence|]. apply Forall_lookup.
        intros i u Hu.
        destruct (lookup_lt_is_Some_2 a i) as [x Hx].
        { rewrite <- Hlc. by eapply lookup_lt_Some. }
        destruct (Hall i x Hx) as (c' & Hc' & HR & _). congruence. }
      intros [|i idx] Hi; [discriminate|]. cbn [in_range] in Hi.
      apply andb_true_iff in Hi as [Hi Hidx]. apply Nat.ltb_lt in Hi.
      destruct (lookup_lt_is_Some_2 a i) as [x Hx]; [lia|].
      destruct (Hall i x Hx) as (c' & Hc' & _ & Hget).
      destruct (Hget idx Hidx) as (u & v & Hu & Hv & Huv).
      exists u, v. rewrite !bidx_cons. cbn [Nat.eqb].
      destruct (Nat.eqb_spec da 1) as [?|_]; [congruence|].
      by rewrite (tget_cons _ _ _ _ _ Hx), (tget_cons _ [y] O _ y eq_refl),
        (tget_cons _ _ _ _ _ Hc').
Qed.

End TensorFacts.

(** ** The whole-image composite *)

Section BlendFacts.
Import Tensor.

Lemma tmap_spec f n :
  forall s (t : tensor n),
    has_shape n s t = true ->
    has_shape n s (tmap f n t) = true /\
    forall idx, tget n (tmap f n t) idx = f <$> tget n t idx.
Proof.
  induction n as [|k IH]; intros s t Hs.
  - split; [exact Hs|]. intros [|]; reflexivity.
  - change (tensor (S k)) with (list (tensor k)) in t.
    destruct s as [|d s]; [discriminate|].
    apply has_shape_cons in Hs as [Hl Hall]. rewrite Forall_lookup in Hall.
    change (tmap f (S k) t) with (map (tmap f k) t). split.
    + apply has_shape_cons. split; [by rewrite length_map|].
      apply Forall_lookup. intros i u Hu.
      change (map (tmap f k) t) with (tmap f k <$> t) in Hu.
      rewrite list_lookup_fmap in Hu.
      destruct (t !! i) as [u0|] eqn:Hu0; [|discriminate].
      injection Hu as <-. by apply (IH s u0), (Hall i).
    + intros [|i idx]; [reflexivity|]. cbn [tget].
      change (map (tmap f k) t) with (tmap f k <$> t).
      rewrite list_lookup_fmap.
      destruct (t !! i) as [u0|] eqn:Hu0; [|reflexivity].
      cbn. by apply (IH s u0), (Hall i).
Qed.

Lemma bdim_refl a : bdim a a = Some a.
Proof. unfold bdim. by rewrite Nat.eqb_refl. Qed.

Lemma bdim_one_r a : bdim a 1 = Some a.
Proof.
  unfold bdim. destruct (Nat.eqb_spec a 1) as [->|]; [done|].
  by rewrite Nat.eqb_refl.
Qed.

Lemma bshape_refl s : bshape s s = Some s.
Proof. induction s as [|d s IH]; [done|]. cbn. by rewrite bdim_refl, IH. Qed.

Lemma bidx_in_range s idx : in_range s idx = true -> bidx s idx = idx.
Proof.
  revert idx. induction s as [|d s IH]; intros [|i idx] Hi; try done.
  cbn in Hi. apply andb_true_iff in Hi as [Hi Hidx]. apply Nat.ltb_lt in Hi.
  rewrite bidx_cons, (IH idx Hidx).
  destruct (Nat.eqb_spec d 1); [f_equal; lia | done].
Qed.

Lemma in_range_4 B C H W b c h w :
  (b < B)%nat -> (c < C)%nat -> (h < H)%nat -> (w < W)%nat ->
  in_range [B; C; H; W] [b; c; h; w] = true.
Proof.
  intros. cbn. repeat (apply andb_true_iff; split); try done; by apply Nat.ltb_lt.
Qed.

(** One composite: it is defined on an image and a stage output of shape
    [B, C, H, W] and a mask of shape [B, 1, H, W], and its entry at
    [b, c, h, w] is [x * (1 - m) + y * m] for the entries [x], [y] there and
    the mask entry [m] at [b, 0, h, w]. *)
Lemma whole_image_spec (B C H W : nat) (img mask out : tensor 4) :
  has_shape 4 [B; C; H; W] img = true ->
  has_shape 4 [B; 1%nat; H; W] mask = true ->
  has_shape 4 [B; C; H; W] out = true ->
  exists comp, whole_image img mask out = Ok comp /\
    has_shape 4 [B; C; H; W] comp = true /\
    forall b c h w, (b < B)%nat -> (c < C)%nat -> (h < H)%nat -> (w < W)%nat ->
      exists x m y,
        tget 4 img [b; c; h; w] = Some x /\
        tget 4 mask [b; O; h; w] = Some m /\
        tget 4 out [b; c; h; w] = Some y /\
        tget 4 comp [b; c; h; w] = Some (x * (1 - m) + y * m)%Q.
Proof.
  intros Himg Hmask Hout.
  destruct (tmap_spec (fun m => 1 - m)%Q 4 _ mask Hmask) as [Hinv Hinv_get].
  assert (Hbs : bshape [B; C; H; W] [B; 1%nat; H; W] = Some [B; C; H; W]).
  { cbn. by rewrite !bdim_refl, bdim_one_r. }
  destruct (pointwise_spec Qmult 4 _ _ _ img _ Himg Hinv Hbs)
    as (keep & Hkeep & Hks & Hkget).
  destruct (pointwise_spec Qmult 4 _ _ _ out mask Hout Hmask Hbs)
    as (fill & Hfill & Hfs & Hfget).
  destruct (pointwise_spec Qplus 4 _ _ _ keep fill Hks Hfs (bshape_refl _))
    as (comp & Hcomp & Hcs & Hcget).
  exists comp. split.
  { unfold whole_image, mul, add, mbind, result_bind, rbind.
    rewrite Hkeep. cbv beta iota. rewrite Hfill. exact Hcomp. }
  split; [exact Hcs|].
  intros b c h w Hb Hc Hh Hw.
  pose proof (in_range_4 _ _ _ _ _ _ _ _ Hb Hc Hh Hw) as Hin.
  assert (Hmidx : bidx [B; 1%nat; H; W] [b; c; h; w] = [b; O; h; w]).
  { cbn. destruct (Nat.eqb_spec B 1), (Nat.eqb_spec H 1), (Nat.eqb_spec W 1);
      repeat f_equal; lia. }
  destruct (Hkget _ Hin) as (x & m' & Hx & Hm' & Hk).
  destruct (Hfget _ Hin) as (y & m & Hy & Hm & Hf).
  destruct (Hcget _ Hin) as (k & f & Hk' & Hf' & Hc').
  rewrite (bidx_in_range _ _ Hin) in Hx, Hy, Hk', Hf'.
  rewrite Hmidx in Hm, Hm'. rewrite Hinv_get, Hm in Hm'. injection Hm' as <-.
  rewrite Hk in Hk'. rewrite Hf in Hf'. injection Hk' as <-. injection Hf' as <-.
  exists x, m, y. done.
Qed.

(** C1. For an image [x], a mask [m] and the two stage outputs of the
    generator, the coarse and the refined composite [x*(1-m) + y*m] built
    in each batch step are defined, and at every position each equals the
    image where the mask is 0 and the stage output where the mask is 1. *)
Theorem whole_image_blend (B C H W : nat)
    (img mask first_out second_out : tensor 4) :
  has_shape 4 [B; C; H; W] img = true ->
  has_shape 4 [B; 1%nat; H; W] mask = true ->
  has_shape 4 [B; C; H; W] first_out = true ->
  has_shape 4 [B; C; H; W] second_out = true ->
  exists first_out_wholeimg second_out_wholeimg,
    whole_image img mask first_out = Ok first_out_wholeimg /\
    whole_image img mask second_out = Ok second_out_wholeimg /\
    forall b c h w, (b < B)%nat -> (c < C)%nat -> (h < H)%nat -> (w < W)%nat ->
      exists x m y1 y2 v1 v2,
        tget 4 img [b; c; h; w] = Some x /\
        tget 4 mask [b; O; h; w] = Some m /\
        tget 4 first_out [b; c; h; w] = Some y1 /\
        tget 4 second_out [b; c; h; w] = Some y2 /\
        tget 4 first_out_wholeimg [b; c; h; w] = Some v1 /\
        tget 4 second_out_wholeimg [b; c; h; w] = Some v2 /\
        (m == 0 -> v1 == x /\ v2 == x)%Q /\
        (m == 1 -> v1 == y1 /\ v2 == y2)%Q.
Proof.
  intros Himg Hmask H1 H2.
  destruct (whole_image_spec B C H W img mask first_out Himg Hmask H1)
    as (fw & Hfw & _ & Hfget).
  destruct (whole_image_spec B C H W img mask second_out Himg Hmask H2)
    as (sw & Hsw & _ & Hsget).
  exists fw, sw. do 2 (split; [done|]).
  intros b c h w Hb Hc Hh Hw.
  destruct (Hfget b c h w Hb Hc Hh Hw) as (x & m & y1 & Hx & Hm & Hy1 & Hv1).
  destruct (Hsget b c h w Hb Hc Hh Hw) as (x' & m' & y2 & Hx' & Hm' & Hy2 & Hv2).
  assert (x' = x) as -> by congruence. assert (m' = m) as -> by congruence.
  exists x, m, y1, y2, (x * (1 - m) + y1 * m)%Q, (x * (1 - m) + y2 * m)%Q.
  repeat (split; [done|]).
  split; intros ->; split; ring.
Qed.

Lemma whole_image_blend_witness :
  exists first_out_wholeimg second_out_wholeimg,
    whole_image Sample.img Sample.mask Sample.first_out = Ok first_out_wholeimg /\
    whole_image Sample.img Sample.mask Sample.second_out = Ok second_out_wholeimg /\
    forall b c h w, (b < 1)%nat -> (c < 1)%nat -> (h < 2)%nat -> (w < 2)%nat ->
      exists x m y1 y2 v1 v2,
        tget 4 Sample.img [b; c; h; w] = Some x /\
        tget 4 Sample.mask [b; O; h; w] = Some m /\
        tget 4 Sample.first_out [b; c; h; w] = Some y1 /\
        tget 4 Sample.second_out [b; c; h; w] = Some y2 /\
        tget 4 first_out_wholeimg [b; c; h; w] = Some v1 /\
        tget 4 second_out_wholeimg [b; c; h; w] = Some v2 /\
        (m == 0 -> v1 == x /\ v2 == x)%Q /\
        (m == 1 -> v1 == y1 /\ v2 == y2)%Q.
Proof.
  apply (whole_image_blend 1 1 2 2 Sample.img Sample.mask
           Sample.first_out Sample.second_out); reflexivity.
Defined.

End BlendFacts.

(** ** The learning-rate schedule *)

Section ScheduleFacts.

Lemma adjust_learning_rate_inv lr_in o e opt o' :
  adjust_learning_rate lr_in o e opt = Ok o' ->
  param_groups o' = set_lr (scheduled_lr lr_in opt e) <$> param_groups o /\
  opt_state o' = opt_state o.
Proof.
  unfold adjust_learning_rate, floordiv, fpow, scheduled_lr.
  destruct (decide (lr_decrease_epoch opt = 0)); [discriminate|]. cbn.
  destruct (Qeq_bool _ 0 && _); [discriminate|]. cbn.
  intros [= <-]. done.
Qed.

Lemma adjust_learning_rate_ok lr_in o e opt :
  0 <= e -> 0 < lr_decrease_epoch opt ->
  adjust_learning_rate lr_in o e opt =
    Ok (mkOptimizer (set_lr (scheduled_lr lr_in opt e) <$> param_groups o)
                    (opt_state o)).
Proof.
  intros He Hd. unfold adjust_learning_rate, floordiv, fpow, scheduled_lr.
  destruct (decide (lr_decrease_epoch opt = 0)); [lia|]. cbn.
  assert (0 <= e `div` lr_decrease_epoch opt) as Hq by (apply Z.div_pos; lia).
  destruct (Z.ltb_spec (e `div` lr_decrease_epoch opt) 0); [lia|].
  by rewrite andb_false_r.
Qed.

Lemma set_lr_set_lr a b (gs : list ParamGroup) :
  set_lr a <$> (set_lr b <$> gs) = set_lr a <$> gs.
Proof. rewrite <- list_fmap_compose. by apply list_fmap_ext; intros ? []. Qed.

Lemma adjusted_groups lr_in opt o o0 :
  adjusted lr_in opt o o0 ->
  opt_state o0 = opt_state o /\
  forall a, set_lr a <$> param_groups o0 = set_lr a <$> param_groups o.
Proof.
  induction 1 as [|o1 o2 e _ [IHs IHg] Hadj]; [done|].
  apply adjust_learning_rate_inv in Hadj as [Hg Hs].
  split; [congruence|]. intros a. by rewrite Hg, set_lr_set_lr.
Qed.

(** C5. Once [e] epochs are completed, the end-of-epoch adjustment sets the
    learning rate of every parameter group of each optimizer to
    [baseLr * decayFactor ^ (e // decayEvery)], with [baseLr] the
    optimizer's own base rate; the rate is recomputed from the base rate, so
    the optimizer reached is the same after any earlier adjustments. *)
Theorem learning_rate_recomputed (opt : Opt) (optimizer_g optimizer_d : Optimizer)
    (e : Z) :
  0 <= e -> 0 < lr_decrease_epoch opt ->
  exists og od,
    adjust_learning_rate (lr_g opt) optimizer_g e opt = Ok og /\
    adjust_learning_rate (lr_d opt) optimizer_d e opt = Ok od /\
    pg_lr <$> param_groups og =
      replicate (length (param_groups optimizer_g))
        (lr_g opt * lr_decrease_factor opt ^ (e `div` lr_decrease_epoch opt))%Q /\
    pg_lr <$> param_groups od =
      replicate (length (param_groups optimizer_d))
        (lr_d opt * lr_decrease_factor opt ^ (e `div` lr_decrease_epoch opt))%Q /\
    (forall o0, adjusted (lr_g opt) opt optimizer_g o0 ->
                adjust_learning_rate (lr_g opt) o0 e opt = Ok og) /\
    (forall o0, adjusted (lr_d opt) opt optimizer_d o0 ->
                adjust_learning_rate (lr_d opt) o0 e opt = Ok od).
Proof.
  intros He Hd.
  assert (Hlrs : forall a gs, pg_lr <$> (set_lr a <$> gs) = replicate (length gs) a).
  { intros a gs. induction gs as [|g gs IH]; [done|]. cbn. by f_equal. }
  eexists _, _.
  split; [by apply adjust_learning_rate_ok|].
  split; [by apply adjust_learning_rate_ok|].
  cbn [param_groups]. rewrite !Hlrs. do 2 (split; [done|]).
  split; intros o0 Ho0; apply adjusted_groups in Ho0 as [Hs Hg];
    rewrite adjust_learning_rate_ok by done; by rewrite Hs, Hg.
Qed.

Lemma learning_rate_recomputed_witness :
  exists og od,
    adjust_learning_rate (lr_g Sample.opt) Sample.optimizer_g 20 Sample.opt = Ok og /\
    adjust_learning_rate (lr_d Sample.opt) Sample.optimizer_d 20 Sample.opt = Ok od /\
    pg_lr <$> param_groups og =
      replicate (length (param_groups Sample.optimizer_g))
        (lr_g Sample.opt * lr_decrease_factor Sample.opt
                           ^ (20 `div` lr_decrease_epoch Sample.opt))%Q /\
    pg_lr <$> param_groups od =
      replicate (length (param_groups Sample.optimizer_d))
        (lr_d Sample.opt * lr_decrease_factor Sample.opt
                           ^ (20 `div` lr_decrease_epoch Sample.opt))%Q /\
    (forall o0, adjusted (lr_g Sample.opt) Sample.opt Sample.optimizer_g o0 ->
                adjust_learning_rate (lr_g Sample.opt) o0 20 Sample.opt = Ok og) /\
    (forall o0, adjusted (lr_d Sample.opt) Sample.opt Sample.optimizer_d o0 ->
                adjust_learning_rate (lr_d Sample.opt) o0 20 Sample.opt = Ok od).
Proof.
  apply (learning_rate_recomputed Sample.opt Sample.optimizer_g Sample.optimizer_d 20);
    [discriminate | reflexivity].
Defined.

End ScheduleFacts.

(** ** Reasoning about [M] computations *)

Section MonadFacts.
Context {S : Type}.

Lemma bind_Ok {A B} (m : M S A) (k : A -> M S B) s b s' :
  (x ← m; k x) s = (Ok b, s') ->
  exists a s1, m s = (Ok a, s1) /\ k a s1 = (Ok b, s').
Proof.
  unfold mbind, M_bind, bind. destruct (m s) as [[a|e] s1]; [eauto|discriminate].
Qed.

Lemma bind_run {A B} (m : M S A) (k : A -> M S B) s a s1 :
  m s = (Ok a, s1) -> (x ← m; k x) s = k a s1.
Proof. intros H. unfold mbind, M_bind, bind. by rewrite H. Qed.

Lemma bind_raise {A B} (m : M S A) (k : A -> M S B) s e s1 :
  m s = (Raise e, s1) -> (x ← m; k x) s = (Raise e, s1).
Proof. intros H. unfold mbind, M_bind, bind. by rewrite H. Qed.

Lemma lift_Ok {A} (r : result A) (s : S) a s' :
  lift r s = (Ok a, s') -> r = Ok a /\ s' = s.
Proof. unfold lift. by intros [= -> ->]. Qed.

Lemma mret_Ok {A} (a b : A) (s s' : S) :
  (mret a : M S A) s = (Ok b, s') -> b = a /\ s' = s.
Proof. by intros [= -> ->]. Qed.

Lemma bind_inv {A B} (m : M S A) (k : A -> M S B) s r s' :
  (x ← m; k x) s = (r, s') ->
  (exists a s1, m s = (Ok a, s1) /\ k a s1 = (r, s')) \/
  (exists e, m s = (Raise e, s') /\ r = Raise e).
Proof.
  unfold mbind, M_bind, bind. destruct (m s) as [[a|e] s1]; [eauto|].
  intros [= <- <-]. eauto.
Qed.

Lemma rbind_Ok {A B} (r : result A) (k : A -> result B) b :
  (x ← r; k x) = Ok b -> exists a, r = Ok a /\ k a = Ok b.
Proof. destruct r as [a|e]; [eauto|discriminate]. Qed.

End MonadFacts.

(** ** Computations that touch only the parameter store *)

Section HeapOnly.
Context {T : Torch}.

Lemma same_world_refl s : same_world s s.
Proof. by repeat split. Qed.

Lemma same_world_trans s1 s2 s3 :
  same_world s1 s2 -> same_world s2 s3 -> same_world s1 s3.
Proof. unfold same_world. intros (?&?&?&?&?) (?&?&?&?&?). repeat split; congruence. Qed.

Lemma same_world_set_heap f s : same_world s (set_heap f s).
Proof. by repeat split. Qed.

Lemma heap_only_ret {A} (a : A) : heap_only (mret a).
Proof. intros s. apply same_world_refl. Qed.

Lemma heap_only_lift {A} (r : result A) : heap_only (lift r).
Proof. intros s. apply same_world_refl. Qed.

Lemma heap_only_raise {A} e : heap_only (raise e : M State A).
Proof. intros s. apply same_world_refl. Qed.

Lemma heap_only_get : heap_only get.
Proof. intros s. apply same_world_refl. Qed.

Lemma heap_only_set_heap f : heap_only (modify (set_heap f)).
Proof. intros s. apply same_world_set_heap. Qed.

Lemma heap_only_bind {A B} (m : M State A) (k : A -> M State B) :
  heap_only m -> (forall a, heap_only (k a)) -> heap_only (x ← m; k x).
Proof.
  intros Hm Hk s. unfold mbind, M_bind, bind.
  specialize (Hm s). destruct (m s) as [[a|e] s1]; cbn in *; [|done].
  eapply same_world_trans; [exact Hm|apply Hk].
Qed.

Lemma heap_only_foldM {A B} (body : B -> A -> M State B) xs :
  (forall b x, heap_only (body b x)) -> forall b, heap_only (foldM body b xs).
Proof.
  intros Hb. induction xs as [|x xs IH]; intros b.
  - apply (heap_only_ret b).
  - apply (heap_only_bind (body b x) (fun b' => foldM body b' xs)); auto.
Qed.

End HeapOnly.

Ltac heap_only_step :=
  first
    [ apply heap_only_ret
    | apply heap_only_lift
    | apply heap_only_raise
    | apply heap_only_get
    | apply heap_only_set_heap
    | apply heap_only_bind; [|intros ?]
    | solve [auto] ].

Ltac heap_only_tac := repeat heap_only_step.

Section HeapOnlyOps.
Context {T : Torch}.

Lemma heap_only_values m : heap_only (values m).
Proof. unfold values. heap_only_tac. Qed.

Lemma heap_only_new_module init : heap_only (new_module init).
Proof. unfold new_module. heap_only_tac. Qed.

Lemma heap_only_zero_grad o : heap_only (zero_grad o).
Proof. unfold zero_grad. heap_only_tac. Qed.

Lemma heap_only_backward f m : heap_only (backward f m).
Proof. unfold backward. pose proof heap_only_values. heap_only_tac. Qed.

Lemma heap_only_step o : heap_only (step o).
Proof. unfold step. heap_only_tac. Qed.

Lemma heap_only_load_state_dict m v : heap_only (load_state_dict m v).
Proof.
  unfold load_state_dict. destruct v as [| |[[] vs|]]; try apply heap_only_raise.
  case_decide; heap_only_tac.
Qed.

End HeapOnlyOps.

(** ** The checkpoint manager *)

Section CheckpointFacts.

Lemma values_run m s : values m s = (Ok (value_at (heap s) <$> parameters m), s).
Proof. reflexivity. Qed.

Lemma state_dict_run o s : exists sd, state_dict o s = (Ok sd, s).
Proof. destruct o as [[m|m]|o]; cbn; eauto. Qed.

Lemma package_Ok opt o s sd s' :
  package opt o s = (Ok sd, s') -> s' = s.
Proof.
  unfold package. destruct (multi_gpu opt).
  - intros H. apply bind_Ok in H as (m & s1 & Hm & H).
    apply lift_Ok in Hm as [_ ->].
    destruct (state_dict_run m s) as [sd' Hsd]. congruence.
  - destruct (state_dict_run o s) as [sd' Hsd]. congruence.
Qed.

Lemma package_single opt o s :
  multi_gpu opt = false -> exists sd, package opt o s = (Ok sd, s).
Proof. intros H. unfold package. rewrite H. apply state_dict_run. Qed.

Lemma package_optimizer_multi_gpu opt o s :
  multi_gpu opt = true -> package opt (OOptim o) s = (Raise AttributeError, s).
Proof. intros H. unfold package. by rewrite H. Qed.

Lemma package_raise opt o s e s' :
  package opt o s = (Raise e, s') -> e = AttributeError /\ s' = s.
Proof.
  unfold package. destruct (multi_gpu opt).
  - destruct o as [[m|m]|o]; cbn; intros [= <- <-]; done.
  - destruct (state_dict_run o s) as [sd' Hsd]. congruence.
Qed.

(** The dictionary [save_state] builds from its arguments. *)
Lemma save_state_dict_fields epoch n_iter loss sd_G sd_g sd_D sd_d :
  training_state
    (<["epoch" := VInt epoch]> (
     <["G" := VState sd_G]> (
     <["optimizer_g" := VState sd_g]> (
     <["D" := VState sd_D]> (
     <["optimizer_d" := VState sd_d]> (
     <["n_iter" := VInt n_iter]> (
     <["loss" := VFloat loss]> (∅ : gmap string PyVal))))))))
    epoch n_iter loss.
Proof.
  unfold training_state. repeat split; try (eexists); by simplify_map_eq.
Qed.

(** Where [save_state] ends when it returns: the two writes, of one and
    the same dictionary, and nothing else. *)
Lemma save_state_Ok epoch batch n_iter G optimizer_g D optimizer_d loss opt s s' :
  save_state epoch batch n_iter G optimizer_g D optimizer_d loss opt s = (Ok tt, s') ->
  exists d,
    training_state d epoch n_iter loss /\
    s' = emit (EvSave (latest_path (run_dir s)) (Pickle (PDict d)))
           (set_fs <[latest_path (run_dir s) := Pickle (PDict d)]>
             (emit (EvSave (checkpoint_path (run_dir s) n_iter) (Pickle (PDict d)))
               (set_fs <[checkpoint_path (run_dir s) n_iter := Pickle (PDict d)]> s))).
Proof.
  unfold save_state. intros H.
  apply bind_Ok in H as (sd_G & s1 & H1 & H). apply package_Ok in H1 as ->.
  apply bind_Ok in H as (sd_g & s1 & H1 & H). apply package_Ok in H1 as ->.
  apply bind_Ok in H as (sd_D & s1 & H1 & H). apply package_Ok in H1 as ->.
  apply bind_Ok in H as (sd_d & s1 & H1 & H). apply package_Ok in H1 as ->.
  eexists. split; [apply (save_state_dict_fields epoch n_iter loss sd_G sd_g sd_D sd_d)|].
  cbn in H. by injection H as <-.
Qed.

Lemma save_state_single epoch batch n_iter G optimizer_g D optimizer_d loss opt s :
  multi_gpu opt = false ->
  exists s', save_state epoch batch n_iter G optimizer_g D optimizer_d loss opt s
             = (Ok tt, s').
Proof.
  intros Hm. unfold save_state.
  destruct (package_single opt G s Hm) as [sd_G H1].
  destruct (package_single opt optimizer_g s Hm) as [sd_g H2].
  destruct (package_single opt D s Hm) as [sd_D H3].
  destruct (package_single opt optimizer_d s Hm) as [sd_d H4].
  rewrite (bind_run _ _ _ _ _ H1), (bind_run _ _ _ _ _ H2),
    (bind_run _ _ _ _ _ H3), (bind_run _ _ _ _ _ H4).
  cbn. eauto.
Qed.

(** With [opt.multi_gpu] set, [package] asks the optimizer for [.module]:
    [save_state] raises before it writes anything. *)
Lemma save_state_multi_gpu epoch batch n_iter G o D optimizer_d loss opt s :
  multi_gpu opt = true ->
  save_state epoch batch n_iter G (OOptim o) D optimizer_d loss opt s
    = (Raise AttributeError, s).
Proof.
  intros Hm. unfold save_state.
  destruct (package opt G s) as [[sd|e] s1] eqn:HG.
  - apply package_Ok in HG as Hs. subst s1.
    rewrite (bind_run _ _ _ _ _ HG).
    apply bind_raise. by apply package_optimizer_multi_gpu.
  - apply package_raise in HG as Hs. destruct Hs as [-> ->].
    by apply bind_raise.
Qed.

(** [restore] never raises. *)
Lemma restore_total opt s : exists o s', restore opt s = (Ok o, s').
Proof.
  unfold restore. destruct (negb _); [by eexists _, _|].
  unfold try_except.
  match goal with |- context [match ?b with (_, _) => _ end] =>
    destruct b as [[o|e] s'] end; by eexists _, _.
Qed.

Lemma restore_unset opt s :
  opt_restore opt = "" -> restore opt s = (Ok PNone, s).
Proof. intros H. unfold restore. by rewrite H. Qed.

(** With nothing on disk and no remote run, every requested restore
    comes back with [None], the state untouched. *)
Lemma restore_empty_store opt s :
  fs s = ∅ -> cloud s = ∅ -> restore opt s = (Ok PNone, s).
Proof.
  intros Hfs Hcl. unfold restore. destruct (negb _); [done|].
  unfold try_except, mbind, M_bind, bind, get.
  destruct (contains "/home" (wandb_runpath opt)).
  - unfold copyfile. case_decide; [done|].
    unfold mbind, M_bind, bind, get. by rewrite Hfs, lookup_empty.
  - unfold wandb_restore, mbind, M_bind, bind, get. by rewrite Hcl, lookup_empty.
Qed.




End CheckpointFacts.

Section RestoreFacts.
Context {T : Torch}.

Lemma create_networks_fresh opt s :
  exists nets s', create_networks opt PNone s = (Ok nets, s').
Proof.
  unfold create_networks. cbn. destruct (multi_gpu opt); by eexists _, _.
Qed.

(** A requested restore that came back with [None] stops the run: the
    start of [WGAN_trainer] subscripts the checkpoint whenever
    [opt.restore] is set. *)
Lemma WGAN_trainer_restore_none opt s s1 :
  nonempty (opt_restore opt) = true ->
  restore opt (set_current_iteration 0 s) = (Ok PNone, s1) ->
  exists s', WGAN_trainer opt s = (Raise TypeError, s').
Proof.
  intros Hr Hnone. unfold WGAN_trainer.
  rewrite (bind_run (Logger.begin 0) _ s tt (set_current_iteration 0 s) eq_refl).
  rewrite (bind_run _ _ _ _ _ Hnone).
  destruct (create_networks_fresh opt s1) as (nets & s2 & Hnets).
  rewrite (bind_run _ _ _ _ _ Hnets).
  cbn [create_optimizers truthy].
  rewrite (bind_run (lift (Ok _)) _ s2 _ s2 eq_refl).
  rewrite Hr. eexists. apply bind_raise. reflexivity.
Qed.

End RestoreFacts.

Section CheckpointClaims.

(** C2 (the code departs from it). [restore] itself returns no state
    without raising when "latest" is requested and the store is empty, but
    the run does not proceed from epoch 0 and iteration 0: [WGAN_trainer]
    then reads [checkpoint['epoch']] from [None] and raises [TypeError]. *)
Theorem WGAN_trainer_failed_restore_raises (T : Torch) :
  restore Sample.opt_latest Sample.empty_state = (Ok PNone, Sample.empty_state) /\
  (WGAN_trainer Sample.opt_latest Sample.empty_state).1 = Raise TypeError.
Proof.
  split; [by apply restore_empty_store|].
  destruct (WGAN_trainer_restore_none Sample.opt_latest Sample.empty_state
              (set_current_iteration 0 Sample.empty_state) eq_refl) as [s' Hs'].
  { by apply restore_empty_store. }
  by rewrite Hs'.
Qed.

(** C3 (the code departs from it). With [opt.multi_gpu] set, every call of
    [save_state] on an optimizer raises [AttributeError] while it builds the
    dictionary, and writes nothing, neither the per-iteration file nor
    "latest". *)
Theorem save_state_multi_gpu_raises epoch batch n_iter G o D optimizer_d loss s :
  save_state epoch batch n_iter G (OOptim o) D optimizer_d loss
             Sample.opt_multi_gpu s
  = (Raise AttributeError, s).
Proof. by apply save_state_multi_gpu. Qed.




End CheckpointClaims.

(** ** The least-squares discriminator loss *)

Section LSGANLossFacts.
Import Tensor.

Lemma has_shape_full q s : has_shape (length s) s (full q s) = true.
Proof.
  induction s as [|d s IH]; [done|].
  change (full q (d :: s)) with (replicate d (full q s)).
  apply has_shape_cons. split; [apply length_replicate|].
  apply Forall_forall. by intros u ->%elem_of_replicate_inv.
Qed.

Lemma zipM_replicate {A B C} (f : A -> B -> result C) x y c d :
  f x y = Ok c -> zipM f (replicate d x) (replicate d y) = Ok (replicate d c).
Proof.
  intros H. induction d as [|d IH]; [done|].
  cbn [replicate zipM]. rewrite H. cbn. rewrite IH. done.
Qed.

Lemma pointwise_full f a b s :
  pointwise f (length s) (full a s) (full b s) = Ok (full (f a b) s).
Proof.
  induction s as [|d s IH]; [done|].
  change (pointwise f (length (d :: s)) (full a (d :: s)) (full b (d :: s)))
    with (bzip (pointwise f (length s)) (replicate d (full a s)) (replicate d (full b s))).
  rewrite bzip_same by (by rewrite !length_replicate).
  by apply zipM_replicate.
Qed.

Lemma tmap_full f q s : tmap f (length s) (full q s) = full (f q) s.
Proof.
  induction s as [|d s IH]; [done|].
  change (tmap f (length (d :: s)) (full q (d :: s)))
    with (map (tmap f (length s)) (replicate d (full q s))).
  change (map (tmap f (length s)) (replicate d (full q s)))
    with (tmap f (length s) <$> replicate d (full q s)).
  rewrite fmap_replicate, IH. done.
Qed.

Lemma tsum_full_zero q s : (q == 0)%Q -> (tsum (length s) (full q s) == 0)%Q.
Proof.
  intros Hq. induction s as [|d s IH]; [exact Hq|].
  change (tsum (length (d :: s)) (full q (d :: s)))
    with (foldr (fun u acc => (tsum (length s) u + acc)%Q) 0%Q
                (replicate d (full q s))).
  induction d as [|d IHd]; [reflexivity|].
  cbn [replicate foldr]. rewrite IH, IHd. ring.
Qed.

Lemma tget_full q s idx :
  in_range s idx = true -> tget (length s) (full q s) idx = Some q.
Proof.
  revert idx. induction s as [|d s IH]; intros [|i idx] Hi; try done.
  cbn in Hi. apply andb_true_iff in Hi as [Hi Hidx]. apply Nat.ltb_lt in Hi.
  etrans; [apply (tget_cons (length s) (replicate d (full q s)) i idx (full q s))|].
  - by apply lookup_replicate_2.
  - by apply IH.
Qed.

(** The mean squared error between a constant map and itself is 0. *)
Lemma MSELoss_full_same q s :
  exists l, MSELoss (full q s) (full q s) = Ok l /\ (l == 0)%Q.
Proof.
  unfold MSELoss, sub. rewrite pointwise_full. cbn [mbind result_bind rbind].
  eexists. split; [reflexivity|].
  unfold mean. rewrite tmap_full, tsum_full_zero by ring.
  unfold Qdiv. ring.
Qed.

End LSGANLossFacts.

Section LSGANLossClaim.
Context {T : Torch}.
Import Tensor.

(** C7. In the least-squares loop the target maps have shape
    [batchSize, 1, 8, 8], all ones and all zeros, and [loss_D] is
    [0.5 * (MSE(fake_score, zeros) + MSE(real_score, ones))]; when the
    real scores are the all-ones map and the fake scores the all-zeros map,
    [loss_D] is 0. *)
Theorem LSGAN_loss_D_formula (θD : list Q) (second_out_wholeimg img mask : tensor 4) :
  let valid : tensor 4 := full 1%Q [length img; 1; 8; 8]%nat in
  let fake : tensor 4 := full 0%Q [length img; 1; 8; 8]%nat in
  has_shape 4 [length img; 1; 8; 8]%nat valid = true /\
  has_shape 4 [length img; 1; 8; 8]%nat fake = true /\
  (forall idx, in_range [length img; 1; 8; 8]%nat idx = true ->
     tget 4 valid idx = Some 1%Q /\ tget 4 fake idx = Some 0%Q) /\
  (forall fake_scalar true_scalar,
     discriminator_forward θD second_out_wholeimg mask = Ok fake_scalar ->
     discriminator_forward θD img mask = Ok true_scalar ->
     LSGAN_loss_D θD second_out_wholeimg img mask valid fake =
       (loss_fake ← MSELoss fake_scalar fake;
        loss_true ← MSELoss true_scalar valid;
        Ok ((1 # 2) * (loss_fake + loss_true))%Q)) /\
  ((0 < length img)%nat ->
   discriminator_forward θD second_out_wholeimg mask = Ok fake ->
   discriminator_forward θD img mask = Ok valid ->
   exists loss_D,
     LSGAN_loss_D θD second_out_wholeimg img mask valid fake = Ok loss_D /\
     (loss_D == 0)%Q).
Proof.
  intros valid fake.
  split; [apply (has_shape_full 1%Q [length img; 1; 8; 8]%nat)|].
  split; [apply (has_shape_full 0%Q [length img; 1; 8; 8]%nat)|].
  split.
  { intros idx Hidx. split.
    - apply (tget_full 1%Q [length img; 1; 8; 8]%nat idx Hidx).
    - apply (tget_full 0%Q [length img; 1; 8; 8]%nat idx Hidx). }
  split.
  { intros fake_scalar true_scalar Hf Ht. unfold LSGAN_loss_D.
    rewrite Hf, Ht. reflexivity. }
  intros _ Hf Ht. unfold LSGAN_loss_D. rewrite Hf, Ht.
  cbn [mbind result_bind rbind]. unfold LSGAN_discriminator_loss.
  destruct (MSELoss_full_same 0%Q [length img; 1; 8; 8]%nat) as (lf & Hlf & Hlf0).
  destruct (MSELoss_full_same 1%Q [length img; 1; 8; 8]%nat) as (lt & Hlt & Hlt0).
  change (MSELoss fake fake = Ok lf) in Hlf.
  change (MSELoss valid valid = Ok lt) in Hlt.
  rewrite Hlf. cbn [mbind result_bind rbind]. rewrite Hlt.
  eexists. split; [reflexivity|]. rewrite Hlf0, Hlt0. ring.
Qed.

End LSGANLossClaim.

(** ** The generator's loss *)

Section GeneratorLossFacts.
Context {T : Torch}.
Import Tensor.

Lemma value_at_alter_grad (f : Param -> option Q) l l' h :
  value_at (alter (fun p => mkParam (data p) (f p)) l h) l' = value_at h l'.
Proof.
  unfold value_at. destruct (decide (l = l')) as [->|Hne].
  - rewrite list_lookup_alter_eq. by destruct (h !! l').
  - by rewrite list_lookup_alter_ne.
Qed.

Lemma zero_grad_value_at o s l :
  value_at (heap (zero_grad o s).2) l = value_at (heap s) l.
Proof.
  cbn. induction (optimizer_params o) as [|l0 ls IH]; [done|].
  cbn [foldr]. by rewrite value_at_alter_grad.
Qed.




End GeneratorLossFacts.

Section GeneratorLossWitness.
Import Tensor.


End GeneratorLossWitness.

(** ** Which parameters an optimizer step can change *)

Section OptimizerFacts.
Context {T : Torch}.

Lemma step_param_frame g acc l l' :
  l' <> l -> (step_param g acc l).1 !! l' = acc.1 !! l'.
Proof.
  intros Hne. unfold step_param.
  destruct (acc.1 !! l) as [[v [d|]]|]; [|done|done].
  cbn [fst]. by apply list_lookup_insert_ne.
Qed.

Lemma step_group_frame g acc l' :
  l' ∉ pg_params g -> (step_group acc g).1 !! l' = acc.1 !! l'.
Proof.
  unfold step_group. revert acc.
  induction (pg_params g) as [|l ls IH]; intros acc Hl'; [done|].
  cbn [foldl]. rewrite IH by set_solver.
  apply step_param_frame. set_solver.
Qed.

Lemma step_groups_frame gs acc l' :
  l' ∉ concat (pg_params <$> gs) ->
  (foldl step_group acc gs).1 !! l' = acc.1 !! l'.
Proof.
  revert acc. induction gs as [|g gs IH]; intros acc Hl'; [done|].
  cbn [foldl]. cbn in Hl'. rewrite IH by set_solver.
  apply step_group_frame. set_solver.
Qed.

(** [optimizer.step()] leaves every parameter that is not among the
    optimizer's own as it was, value and gradient. *)
Lemma step_frame o s l :
  l ∉ optimizer_params o -> heap (step o s).2 !! l = heap s !! l.
Proof.
  intros Hl. cbn. by apply (step_groups_frame (param_groups o) (heap s, opt_state o)).
Qed.

Lemma step_param_length g acc l : length (step_param g acc l).1 = length acc.1.
Proof.
  unfold step_param. destruct (acc.1 !! l) as [[v [d|]]|]; [|done|done].
  cbn [fst]. apply length_insert.
Qed.

Lemma load_groups_params gs hs gs' :
  load_groups gs hs = Some gs' -> pg_params <$> gs' = pg_params <$> gs.
Proof.
  revert hs gs'. induction gs as [|g gs IH]; intros [|[[[lr betas] wd] n] hs] gs' H;
    try discriminate.
  - by injection H as <-.
  - cbn in H. case_decide; [|discriminate].
    destruct (load_groups gs hs) as [gs0|] eqn:Hgs; [|discriminate].
    injection H as <-. cbn. f_equal. by eapply IH.
Qed.

Lemma optimizer_load_state_dict_params o v o' :
  optimizer_load_state_dict o v = Ok o' -> optimizer_params o' = optimizer_params o.
Proof.
  unfold optimizer_load_state_dict, optimizer_params.
  destruct v as [| |[|sts hs]]; try discriminate.
  destruct (load_groups (param_groups o) hs) as [gs|] eqn:Hgs; [|discriminate].
  intros [= <-]. cbn. by rewrite (load_groups_params _ _ _ Hgs).
Qed.

(** In the critic-style loop each optimizer is bound to its own network,
    with or without a checkpoint. *)
Lemma create_optimizers_params generator discriminator opt checkpoint og od :
  create_optimizers generator discriminator opt checkpoint = Ok (og, od) ->
  optimizer_params og = net_parameters generator /\
  optimizer_params od = net_parameters discriminator.
Proof.
  unfold create_optimizers. destruct (truthy checkpoint).
  - intros H.
    apply rbind_Ok in H as (v1 & _ & H). apply rbind_Ok in H as (o1 & H1 & H).
    apply rbind_Ok in H as (v2 & _ & H). apply rbind_Ok in H as (o2 & H2 & H).
    injection H as <- <-.
    apply optimizer_load_state_dict_params in H1, H2. rewrite H1, H2.
    unfold optimizer_params. cbn. by rewrite !app_nil_r.
  - intros [= <- <-]. unfold optimizer_params. cbn. by rewrite !app_nil_r.
Qed.

(** C6 (the code departs from it). In the least-squares loop the
    optimizer named [optimizer_d] is constructed over the generator's
    parameters, like [optimizer_g]: its step changes no parameter outside
    the generator's, so the discriminator's parameters are updated by no
    optimizer, and it does change the generator's.  On the sample
    stand-ins, one step of that optimizer moves the generator's parameter
    and leaves the discriminator's. *)
Theorem LSGAN_optimizer_d_updates_generator :
  (forall generator opt,
     optimizer_params (LSGAN_optimizers generator opt).1 = net_parameters generator /\
     optimizer_params (LSGAN_optimizers generator opt).2 = net_parameters generator) /\
  (forall generator opt s l,
     l ∉ net_parameters generator ->
     heap (step (LSGAN_optimizers generator opt).2 s).2 !! l = heap s !! l) /\
  heap (step (T := Sample.torch) (LSGAN_optimizers Sample.G Sample.opt).2
          (set_heap (fun _ => [mkParam 1 (Some 0%Q); mkParam 2 (Some 5%Q)])
                    Sample.empty_state)).2
  = [mkParam 0 (Some 0%Q); mkParam 2 (Some 5%Q)].
Proof.
  assert (Hp : forall generator opt,
     optimizer_params (LSGAN_optimizers generator opt).1 = net_parameters generator /\
     optimizer_params (LSGAN_optimizers generator opt).2 = net_parameters generator).
  { intros generator opt. unfold optimizer_params. cbn. by rewrite app_nil_r. }
  split; [exact Hp|]. split.
  - intros generator opt s l Hl. apply step_frame.
    by rewrite (proj2 (Hp generator opt)).
  - vm_compute. reflexivity.
Qed.

End OptimizerFacts.

(** ** What the critic-style loop emits *)

Section WGANTraceFacts.
Context {T : Torch}.

Lemma heap_only_run {A} (m : M State A) s r s' :
  heap_only m -> m s = (r, s') -> same_world s s'.
Proof. intros Hm H. specialize (Hm s). by rewrite H in Hm. Qed.

Lemma pymod_Ok a b r : pymod a b = Ok r -> b <> 0 /\ r = a `mod` b.
Proof. unfold pymod. case_decide; [discriminate|]. by intros [= <-]. Qed.

Lemma heap_only_WGAN_discriminator_step discriminator optimizer_d img mask sw :
  heap_only (WGAN_discriminator_step discriminator optimizer_d img mask sw).
Proof.
  unfold WGAN_discriminator_step.
  pose proof heap_only_values. pose proof heap_only_backward. pose proof heap_only_step.
  heap_only_tac.
Qed.

Lemma heap_only_WGAN_generator_step opt generator discriminator perceptualnet
    optimizer_g img mask fw sw :
  heap_only (WGAN_generator_step opt generator discriminator perceptualnet
               optimizer_g img mask fw sw).
Proof.
  unfold WGAN_generator_step.
  pose proof heap_only_values. pose proof heap_only_backward.
  pose proof heap_only_step. pose proof heap_only_zero_grad.
  heap_only_tac.
Qed.

Lemma log_images_run img mask fw sw s :
  (Logger.add_image img "image/training";;
   Logger.add_image mask "mask/training";;
   Logger.add_image fw "image/first iteration";;
   Logger.add_image sw "image/second iteration") s
  = (Ok tt,
     mkState (fs s) (cloud s) (run_dir s)
       (trace s ++ image_events (current_iteration s) img mask fw sw)
       (current_iteration s) (heap s)).
Proof.
  unfold mbind, M_bind, bind, Logger.add_image, modify, emit. cbn.
  f_equal. f_equal. by rewrite <- !app_assoc.
Qed.

(** One iteration: the counter advances by one and the events are those
    of [batch_events]. *)
Lemma WGAN_batch_events opt generator discriminator perceptualnet epoch vars item
    s vars' s' :
  WGAN_batch opt generator discriminator perceptualnet epoch vars item s
    = (Ok vars', s') ->
  vars'.1.1 = vars.1.1 + 1 /\
  run_dir s' = run_dir s /\
  exists evs, trace s' = trace s ++ evs /\
              batch_events opt (run_dir s) (vars.1.1 + 1) item.2.1 item.2.2 evs.
Proof.
  unfold WGAN_batch. set (n := vars.1.1 + 1). intros H.
  apply bind_Ok in H as ([] & s1 & Hb & H).
  assert (s1 = set_current_iteration n s) as -> by (by injection Hb).
  apply bind_Ok in H as ([] & s2 & Hz & H).
  apply (heap_only_run _ _ _ _ (heap_only_zero_grad _)) in Hz
    as (_ & _ & Hrd2 & Htr2 & Hci2).
  cbn [set_current_iteration run_dir trace current_iteration] in Hrd2, Htr2, Hci2.
  apply bind_Ok in H as (θG & s3 & HG & H). rewrite values_run in HG.
  injection HG as <- <-.
  apply bind_Ok in H as (outs & s3 & Ho & H). apply lift_Ok in Ho as [Ho ->].
  apply bind_Ok in H as (fw & s3 & Hfw & H). apply lift_Ok in Hfw as [Hfw ->].
  apply bind_Ok in H as (sw & s3 & Hsw & H). apply lift_Ok in Hsw as [Hsw ->].
  apply bind_Ok in H as (r & s3 & Hr & H). apply lift_Ok in Hr as [Hr ->].
  apply pymod_Ok in Hr as [_ ->].
  apply bind_Ok in H as ([] & s3 & Himg & H).
  apply bind_Ok in H as (d & s4 & Hd & H).
  apply (heap_only_run _ _ _ _ (heap_only_WGAN_discriminator_step _ _ _ _ _)) in Hd
    as (_ & _ & Hrd4 & Htr4 & Hci4).
  apply bind_Ok in H as (g & s5 & Hg & H).
  apply (heap_only_run _ _ _ _ (heap_only_WGAN_generator_step _ _ _ _ _ _ _ _ _)) in Hg
    as (_ & _ & Hrd5 & Htr5 & Hci5).
  apply bind_Ok in H as ([] & s6 & Hsc & H).
  unfold Logger.add_scalars, modify in Hsc. injection Hsc as <-.
  apply bind_Ok in H as (r2 & s7 & Hr2 & H). apply lift_Ok in Hr2 as [Hr2 ->].
  apply pymod_Ok in Hr2 as [_ ->].
  apply bind_Ok in H as ([] & s7 & Hsave & H).
  apply mret_Ok in H as [-> ->].
  split; [done|].
  (* the images *)
  assert (Himages : run_dir s3 = run_dir s /\ current_iteration s3 = n /\
            exists images, trace s3 = trace s ++ images /\
              (if decide (n `mod` log_every opt = 1)
               then exists first_out second_out fw' sw',
                 whole_image item.2.1 item.2.2 first_out = Ok fw' /\
                 whole_image item.2.1 item.2.2 second_out = Ok sw' /\
                 images = image_events n item.2.1 item.2.2 fw' sw'
               else images = [])).
  { destruct (decide (n `mod` log_every opt = 1)) as [Hn|Hn].
    - rewrite log_images_run in Himg. injection Himg as <-. cbn.
      split; [done|]. split; [done|].
      eexists. split; [by rewrite Htr2|]. rewrite Hci2. by exists outs.1, outs.2, fw, sw.
    - apply mret_Ok in Himg as [_ ->]. split; [done|]. split; [done|].
      exists []. by rewrite app_nil_r. }
  destruct Himages as (Hrd3 & Hci3 & images & Htr3 & Himages).
  (* the scalars and the checkpoint *)
  assert (Hrd6 : run_dir s5 = run_dir s) by congruence.
  assert (Hci6 : current_iteration s5 = n) by congruence.
  assert (Htr6 : trace s5 = trace s ++ images) by congruence.
  destruct (decide (n `mod` checkpoint_every opt = 1)) as [Hn|Hn].
  - apply save_state_Ok in Hsave as (dict & Hdict & ->).
    cbn [run_dir emit set_fs trace]. split; [done|].
    eexists. split.
    { rewrite Htr6, Hci6, <- !app_assoc. reflexivity. }
    eexists images, _, _. split; [cbn; reflexivity|]. split; [reflexivity|].
    split; [exact Himages|].
    destruct (decide (n `mod` checkpoint_every opt = 1)); [|done].
    rewrite Hrd6. by eexists dict, _, _.
  - apply mret_Ok in Hsave as [_ ->]. cbn [run_dir emit trace]. split; [done|].
    eexists. split.
    { rewrite Htr6, Hci6, <- !app_assoc. reflexivity. }
    eexists images, _, []. split; [cbn; reflexivity|]. split; [reflexivity|].
    split; [exact Himages|].
    by destruct (decide (n `mod` checkpoint_every opt = 1)).
Qed.

End WGANTraceFacts.

Section QuietFacts.
Context {T : Torch}.

Lemma heap_only_quiet {A} (m : M State A) : heap_only m -> quiet m.
Proof. intros H s. destruct (H s) as (_ & _ & ? & ? & _). done. Qed.

Lemma quiet_ret {A} (a : A) : quiet (mret a).
Proof. by intros s. Qed.

Lemma quiet_raise {A} e : quiet (raise e : M State A).
Proof. by intros s. Qed.

Lemma quiet_set_fs f : quiet (modify (set_fs f)).
Proof. by intros s. Qed.

Lemma quiet_bind {A B} (m : M State A) (k : A -> M State B) :
  quiet m -> (forall a, quiet (k a)) -> quiet (x ← m; k x).
Proof.
  intros Hm Hk s. unfold mbind, M_bind, bind.
  destruct (Hm s) as [Ht Hr]. destruct (m s) as [[a|e] s1]; cbn in *; [|done].
  destruct (Hk a s1) as [Ht' Hr']. split; congruence.
Qed.

Lemma quiet_try_except {A} (body : M State A) handler :
  quiet body -> (forall e, quiet (handler e)) -> quiet (try_except body handler).
Proof.
  intros Hm Hk s. unfold try_except.
  destruct (Hm s) as [Ht Hr]. destruct (body s) as [[a|e] s1]; cbn in *; [done|].
  destruct (Hk e s1) as [Ht' Hr']. split; congruence.
Qed.

Lemma quiet_run {A} (m : M State A) s r s' :
  quiet m -> m s = (r, s') -> trace s' = trace s /\ run_dir s' = run_dir s.
Proof. intros Hm H. specialize (Hm s). by rewrite H in Hm. Qed.

Lemma quiet_torch_load path : quiet (torch_load path).
Proof.
  intros s. unfold torch_load, mbind, M_bind, bind, get.
  by destruct (fs s !! path) as [[o|]|].
Qed.

Lemma quiet_copyfile src dst : quiet (copyfile src dst).
Proof.
  intros s. unfold copyfile. case_decide; [done|].
  unfold mbind, M_bind, bind, get. by destruct (fs s !! src).
Qed.

Lemma quiet_wandb_restore name run_path : quiet (wandb_restore name run_path).
Proof.
  intros s. unfold wandb_restore, mbind, M_bind, bind, get.
  destruct (cloud s !! run_path) as [files|]; [|done].
  destruct (fs s !! _); [done|]. by destruct (files !! name).
Qed.

Lemma quiet_restore opt : quiet (restore opt).
Proof.
  unfold restore. destruct (negb _); [apply quiet_ret|].
  apply quiet_try_except; [|intros; apply quiet_ret].
  apply quiet_bind; [by intros s|]. intros s0.
  apply quiet_bind.
  - destruct (contains _ _); [apply quiet_copyfile|apply quiet_wandb_restore].
  - intros _. apply quiet_bind; [apply quiet_torch_load|]. intros; apply quiet_ret.
Qed.

Lemma heap_only_create_networks opt checkpoint :
  heap_only (create_networks opt checkpoint).
Proof.
  unfold create_networks.
  pose proof heap_only_new_module. pose proof heap_only_load_state_dict.
  heap_only_tac.
  - destruct (truthy checkpoint); heap_only_tac.
  - destruct (multi_gpu opt); heap_only_tac.
Qed.

End QuietFacts.

Section WGANRunFacts.
Context {T : Torch}.

Lemma run_events_app opt rd n0 xs ys e1 e2 :
  run_events opt rd n0 xs e1 ->
  run_events opt rd (n0 + Z.of_nat (length xs)) ys e2 ->
  run_events opt rd n0 (xs ++ ys) (e1 ++ e2).
Proof.
  revert n0 e1. induction xs as [|x xs IH]; intros n0 e1 H1 H2.
  - cbn in H1. subst e1. cbn in H2. by rewrite Z.add_0_r in H2.
  - destruct H1 as (a & b & -> & Ha & Hb).
    exists a, (b ++ e2). split; [by rewrite app_assoc|]. split; [done|].
    apply IH; [done|]. replace (n0 + 1 + Z.of_nat (length xs))
      with (n0 + Z.of_nat (length (x :: xs))) by (cbn [length]; lia). done.
Qed.

(** The batches of one epoch. *)
Lemma WGAN_batches_events opt generator discriminator perceptualnet epoch items :
  forall vars s vars' s',
    foldM (WGAN_batch opt generator discriminator perceptualnet epoch) vars items s
      = (Ok vars', s') ->
    vars'.1.1 = vars.1.1 + Z.of_nat (length items) /\
    run_dir s' = run_dir s /\
    exists evs, trace s' = trace s ++ evs /\
                run_events opt (run_dir s) vars.1.1 (items.*2) evs.
Proof.
  induction items as [|item items IH]; intros vars s vars' s' H.
  - injection H as <- <-. split; [cbn; lia|]. split; [done|].
    exists []. by rewrite app_nil_r.
  - cbn [foldM] in H. apply (bind_Ok (WGAN_batch _ _ _ _ _ vars item)) in H
      as (vars1 & s1 & Hb & H).
    apply WGAN_batch_events in Hb as (Hn1 & Hrd1 & e1 & Htr1 & He1).
    apply IH in H as (Hn & Hrd & e2 & Htr & He2).
    split; [cbn [length]; lia|]. split; [congruence|].
    exists (e1 ++ e2). split; [by rewrite Htr, Htr1, app_assoc|].
    cbn [fmap list_fmap]. exists e1, e2. split; [done|]. split; [done|].
    by rewrite <- Hn1, <- Hrd1.
Qed.

Lemma enumerate_snd {A} (l : list A) : (enumerate l).*2 = l.
Proof.
  unfold enumerate. apply snd_zip. rewrite length_seqZ. lia.
Qed.

Lemma enumerate_length {A} (l : list A) : length (enumerate l) = length l.
Proof.
  unfold enumerate. rewrite length_zip, length_seqZ. lia.
Qed.

(** One epoch. *)
Lemma WGAN_epoch_events opt generator discriminator perceptualnet vars epoch
    s vars' s' :
  WGAN_epoch opt generator discriminator perceptualnet vars epoch s = (Ok vars', s') ->
  vars'.1.1 = vars.1.1 + Z.of_nat (length (dataloader opt epoch)) /\
  run_dir s' = run_dir s /\
  exists evs, trace s' = trace s ++ evs /\
              run_events opt (run_dir s) vars.1.1 (dataloader opt epoch) evs.
Proof.
  unfold WGAN_epoch. intros H.
  apply bind_Ok in H as (vars1 & s1 & Hb & H).
  apply WGAN_batches_events in Hb as (Hn & Hrd & evs & Htr & Hev).
  rewrite enumerate_length in Hn. rewrite enumerate_snd in Hev.
  apply bind_Ok in H as (og & s2 & Hg & H). apply lift_Ok in Hg as [_ ->].
  apply bind_Ok in H as (od & s2 & Hd & H). apply lift_Ok in Hd as [_ ->].
  apply mret_Ok in H as [-> ->]. cbn [fst]. eauto.
Qed.

(** The epochs of a run. *)
Lemma WGAN_epochs_events opt generator discriminator perceptualnet epochs_run :
  forall vars s vars' s',
    foldM (WGAN_epoch opt generator discriminator perceptualnet) vars epochs_run s
      = (Ok vars', s') ->
    run_dir s' = run_dir s /\
    exists evs, trace s' = trace s ++ evs /\
                run_events opt (run_dir s) vars.1.1
                  (concat (dataloader opt <$> epochs_run)) evs.
Proof.
  induction epochs_run as [|epoch es IH]; intros vars s vars' s' H.
  - injection H as <- <-. split; [done|]. exists []. by rewrite app_nil_r.
  - cbn [foldM] in H. apply (bind_Ok (WGAN_epoch _ _ _ _ vars epoch)) in H
      as (vars1 & s1 & He & H).
    apply WGAN_epoch_events in He as (Hn1 & Hrd1 & e1 & Htr1 & He1).
    apply IH in H as (Hrd & e2 & Htr & He2).
    split; [congruence|].
    exists (e1 ++ e2). split; [by rewrite Htr, Htr1, app_assoc|].
    cbn [fmap list_fmap concat]. apply run_events_app; [done|].
    by rewrite <- Hn1, <- Hrd1.
Qed.

End WGANRunFacts.

Section WGANTraceClaim.





End WGANTraceClaim.

(** ** What the least-squares loop persists *)

Section LSGANFacts.
Context {T : Torch}.

Lemma heap_only_LSGAN_batch opt generator discriminator perceptualnet epoch vars item :
  heap_only (LSGAN_batch opt generator discriminator perceptualnet epoch vars item).
Proof.
  unfold LSGAN_batch.
  pose proof heap_only_values. pose proof heap_only_backward.
  pose proof heap_only_step. pose proof heap_only_zero_grad.
  heap_only_tac.
Qed.

(** [save_model] either leaves the state as it is, or it is the end of an
    epoch that is a multiple of [checkpoint_interval] and it saves the
    network object under the epoch's file name. *)
Lemma save_model_run net epoch opt s r s' :
  save_model net epoch opt s = (r, s') ->
  (s' = s /\ (r = Ok tt -> epoch `mod` checkpoint_interval opt <> 0)) \/
  (r = Ok tt /\ epoch `mod` checkpoint_interval opt = 0 /\
   s' = emit (EvSave (model_path opt epoch)
                (Pickle (PModule (value_at (heap s) <$> net_parameters net))))
          (set_fs <[model_path opt epoch :=
                      Pickle (PModule (value_at (heap s) <$> net_parameters net))]> s)).
Proof.
  unfold save_model. fold (model_path opt epoch).
  assert (Hcase :
    (r0 ← lift (pymod epoch (checkpoint_interval opt));
     if decide (r0 = 0)
     then torch_save_net (Plain (net_module net)) (model_path opt epoch)
     else mret tt) s = (r, s') ->
    (s' = s /\ (r = Ok tt -> epoch `mod` checkpoint_interval opt <> 0)) \/
    (r = Ok tt /\ epoch `mod` checkpoint_interval opt = 0 /\
     s' = emit (EvSave (model_path opt epoch)
                  (Pickle (PModule (value_at (heap s) <$> net_parameters net))))
            (set_fs <[model_path opt epoch :=
                        Pickle (PModule (value_at (heap s) <$> net_parameters net))]> s))).
  { intros H. apply bind_inv in H as [(r0 & s1 & Hr & H)|(e & Hr & ->)].
    - apply lift_Ok in Hr as [Hr ->]. apply pymod_Ok in Hr as [_ ->].
      case_decide.
      + right. injection H as <- <-. done.
      + left. injection H as <- <-. done.
    - left. unfold lift in Hr. injection Hr as _ <-. split; [done|discriminate]. }
  destruct (multi_gpu opt).
  - destruct net as [m|m].
    + (* a plain network has no [.module] *)
      intros H. left. apply bind_inv in H as [(r0 & s1 & Hr & H)|(e & Hr & ->)].
      * apply lift_Ok in Hr as [Hr ->]. apply pymod_Ok in Hr as [_ ->].
        case_decide; injection H as <- <-; split; done.
      * unfold lift in Hr. injection Hr as _ <-. split; [done|discriminate].
    + exact Hcase.
  - destruct net as [m|m]; exact Hcase.
Qed.

Lemma LSGAN_epoch_run opt generator discriminator perceptualnet vars epoch s r s' :
  LSGAN_epoch opt generator discriminator perceptualnet vars epoch s = (r, s') ->
  cloud s' = cloud s /\
  exists evs,
    trace s' = trace s ++ evs /\
    fs s' = fs_after evs (fs s) /\
    ((evs = [] /\
      (is_ok r = true -> (epoch + 1) `mod` checkpoint_interval opt <> 0)) \/
     (is_ok r = true /\ (epoch + 1) `mod` checkpoint_interval opt = 0 /\
      exists vals, length vals = length (net_parameters generator) /\
        evs = [EvSave (model_path opt (epoch + 1)) (Pickle (PModule vals))])).
Proof.
  unfold LSGAN_epoch. intros H.
  assert (Hnone : forall s1, same_world s s1 ->
            cloud s1 = cloud s /\
            exists evs, trace s1 = trace s ++ evs /\ fs s1 = fs_after evs (fs s) /\ evs = []).
  { intros s1 (Hfs & Hcl & _ & Htr & _). split; [done|].
    exists []. by rewrite app_nil_r. }
  apply bind_inv in H as [(vars1 & s1 & Hb & H)|(e & Hb & ->)].
  2:{ apply (heap_only_run _ _ _ _
               (heap_only_foldM _ _ (heap_only_LSGAN_batch _ _ _ _ _) _)) in Hb.
      destruct (Hnone _ Hb) as (? & evs & ? & ? & ->).
      split; [done|]. exists []. repeat split; try done. left. done. }
  apply (heap_only_run _ _ _ _
           (heap_only_foldM _ _ (heap_only_LSGAN_batch _ _ _ _ _) _)) in Hb.
  apply bind_inv in H as [(og & s2 & Hg & H)|(e & Hg & ->)].
  2:{ unfold lift in Hg. injection Hg as _ <-.
      destruct (Hnone _ Hb) as (? & evs & ? & ? & ->).
      split; [done|]. exists []. repeat split; try done. left. done. }
  apply lift_Ok in Hg as [_ ->].
  apply bind_inv in H as [(od & s2 & Hd & H)|(e & Hd & ->)].
  2:{ unfold lift in Hd. injection Hd as _ <-.
      destruct (Hnone _ Hb) as (? & evs & ? & ? & ->).
      split; [done|]. exists []. repeat split; try done. left. done. }
  apply lift_Ok in Hd as [_ ->].
  apply bind_inv in H as [([] & s2 & Hs & H)|(e & Hs & ->)].
  - injection H as <- <-.
    apply save_model_run in Hs as [[-> Hne]|(_ & Hmod & ->)].
    + destruct (Hnone _ Hb) as (? & evs & ? & ? & ->).
      split; [done|]. exists []. repeat split; try done. left. split; auto.
    + destruct Hb as (Hfs & Hcl & _ & Htr & _).
      split; [done|]. eexists. split; [cbn; by rewrite Htr|].
      split; [cbn; by rewrite Hfs|]. right. repeat split; try done.
      eexists. split; [|reflexivity]. by rewrite length_fmap.
  - apply save_model_run in Hs as [[-> _]|(? & _)]; [|discriminate].
    destruct (Hnone _ Hb) as (? & evs & ? & ? & ->).
    split; [done|]. exists []. repeat split; try done. left. done.
Qed.

Lemma fs_after_app e1 e2 f : fs_after (e1 ++ e2) f = fs_after e2 (fs_after e1 f).
Proof. apply foldl_app. Qed.

Lemma saved_paths_app e1 e2 : saved_paths (e1 ++ e2) = saved_paths e1 ++ saved_paths e2.
Proof. apply omap_app. Qed.

(** The epochs [es] of a run, whatever its outcome. *)
Lemma LSGAN_epochs_run opt generator discriminator perceptualnet es :
  forall vars s r s',
    foldM (LSGAN_epoch opt generator discriminator perceptualnet) vars es s = (r, s') ->
    cloud s' = cloud s /\
    exists evs,
      trace s' = trace s ++ evs /\
      fs s' = fs_after evs (fs s) /\
      Forall (fun ev => exists e vals,
                e ∈ es /\ (e + 1) `mod` checkpoint_interval opt = 0 /\
                length vals = length (net_parameters generator) /\
                ev = EvSave (model_path opt (e + 1)) (Pickle (PModule vals))) evs /\
      (is_ok r = true ->
       saved_paths evs =
         model_path opt <$>
           filter (fun e => e `mod` checkpoint_interval opt = 0)
                  ((fun e => e + 1) <$> es)).
Proof.
  induction es as [|epoch es IH]; intros vars s r s' H.
  - injection H as <- <-. split; [done|]. exists [].
    rewrite app_nil_r. repeat split; done.
  - cbn [foldM] in H.
    apply (bind_inv (LSGAN_epoch _ _ _ _ vars epoch)) in H
      as [(vars1 & s1 & He & H)|(e & He & ->)].
    + apply LSGAN_epoch_run in He as (Hcl1 & e1 & Htr1 & Hfs1 & Hcase).
      apply IH in H as (Hcl & e2 & Htr & Hfs & Hall & Hpaths).
      split; [congruence|]. exists (e1 ++ e2).
      split; [by rewrite Htr, Htr1, app_assoc|].
      split; [by rewrite Hfs, Hfs1, fs_after_app|].
      split.
      * apply Forall_app. split.
        -- destruct Hcase as [[-> _]|(_ & Hmod & vals & Hlen & ->)]; [done|].
           apply Forall_singleton. exists epoch, vals. set_solver.
        -- eapply Forall_impl; [exact Hall|]. intros ev (e & vals & ? & ?).
           exists e, vals. set_solver.
      * intros Hok. rewrite saved_paths_app, (Hpaths Hok). cbn [fmap list_fmap].
        rewrite filter_cons.
        destruct Hcase as [[-> Hne]|(_ & Hmod & vals & Hlen & ->)].
        -- rewrite decide_False by (by apply Hne). done.
        -- by rewrite decide_True by done.
    + apply LSGAN_epoch_run in He as (Hcl1 & e1 & Htr1 & Hfs1 & Hcase).
      split; [done|]. exists e1. repeat split; try done.
      destruct Hcase as [[-> _]|(Hok & _)]; [done|discriminate].
Qed.

End LSGANFacts.

Section LSGANClaim.

Lemma fmap_succ_seqZ m n : (fun e => e + 1) <$> seqZ m n = seqZ (m + 1) n.
Proof.
  replace (m + 1) with (1 + m) by lia. rewrite <- fmap_add_seqZ.
  apply list_fmap_ext. intros _ e _. lia.
Qed.

(** C10. Whatever its outcome, a run of [LSGAN_trainer] (which has no call
    of [restore] or [save_state]) leaves the remote store alone, and emits
    and writes nothing but saves of the generator network object (its
    parameter values, no dictionary), each under the file name of an epoch
    [e] in [1 .. epochs] with [e % checkpoint_interval == 0]; a run that
    completes has saved at exactly those epochs, in order.  No training
    state (discriminator, optimizers, counters, loss) is ever pickled. *)
Theorem LSGAN_trainer_persistence (T : Torch) (opt : Opt) (s s' : State)
    (r : result unit) :
  LSGAN_trainer opt s = (r, s') ->
  cloud s' = cloud s /\
  exists evs,
    trace s' = trace s ++ evs /\
    fs s' = fs_after evs (fs s) /\
    Forall (generator_save opt (length (create_generator opt))) evs /\
    (r = Ok tt ->
     saved_paths evs =
       model_path opt <$>
         filter (fun e => e `mod` checkpoint_interval opt = 0)
                (seqZ 1 (epochs opt))).
Proof.
  unfold LSGAN_trainer. intros H.
  apply bind_inv in H as [(generator & s1 & Hg & H)|(e & Hg & _)]; [|discriminate Hg].
  assert (Hlen : length (parameters generator) = length (create_generator opt)).
  { injection Hg as <- _. cbn. apply length_seq. }
  apply (heap_only_run _ _ _ _ (heap_only_new_module _)) in Hg
    as (Hfs1 & Hcl1 & _ & Htr1 & _).
  apply bind_inv in H as [(discriminator & s2 & Hd & H)|(e & Hd & _)]; [|discriminate Hd].
  apply (heap_only_run _ _ _ _ (heap_only_new_module _)) in Hd
    as (Hfs2 & Hcl2 & _ & Htr2 & _).
  apply bind_inv in H as [(perceptualnet & s3 & Hp & H)|(e & Hp & _)]; [|discriminate Hp].
  apply (heap_only_run _ _ _ _ (heap_only_new_module _)) in Hp
    as (Hfs3 & Hcl3 & _ & Htr3 & _).
  assert (Hrun : exists r0,
    foldM (LSGAN_epoch opt
             ((if multi_gpu opt then DataParallel else Plain) generator)
             ((if multi_gpu opt then DataParallel else Plain) discriminator)
             ((if multi_gpu opt then DataParallel else Plain) perceptualnet))
          (LSGAN_optimizers ((if multi_gpu opt then DataParallel else Plain) generator) opt)
          (seqZ 0 (epochs opt)) s3 = (r0, s') /\
    (r = Ok tt -> is_ok r0 = true)).
  { apply bind_inv in H as [(vars & s4 & Hf & H)|(e & Hf & ->)].
    - injection H as <- <-. eauto.
    - eexists. split; [exact Hf|discriminate]. }
  destruct Hrun as (r0 & Hrun & Hok).
  apply LSGAN_epochs_run in Hrun as (Hcl & evs & Htr & Hfs & Hall & Hpaths).
  split; [congruence|]. exists evs.
  split; [congruence|]. split; [congruence|]. split.
  - eapply Forall_impl; [exact Hall|].
    intros ev (e & vals & He & Hmod & Hvals & ->).
    exists (e + 1), vals. apply elem_of_seqZ in He.
    repeat split; [lia|lia|done|].
    rewrite Hvals, <- Hlen. by destruct (multi_gpu opt).
  - intros Hr. rewrite (Hpaths (Hok Hr)), fmap_succ_seqZ. done.
Qed.

Lemma LSGAN_trainer_persistence_witness :
  let run := LSGAN_trainer (T := Sample.torch) Sample.opt Sample.empty_state in
  cloud run.2 = cloud Sample.empty_state /\
  exists evs,
    trace run.2 = trace Sample.empty_state ++ evs /\
    fs run.2 = fs_after evs (fs Sample.empty_state) /\
    Forall (generator_save Sample.opt
              (length (create_generator (Torch := Sample.torch) Sample.opt))) evs /\
    (run.1 = Ok tt ->
     saved_paths evs =
       model_path Sample.opt <$>
         filter (fun e => e `mod` checkpoint_interval Sample.opt = 0)
                (seqZ 1 (epochs Sample.opt))).
Proof.
  apply (LSGAN_trainer_persistence Sample.torch Sample.opt Sample.empty_state).
  apply surjective_pairing.
Defined.

End LSGANClaim.

(** * Further properties of the code *)

(** ** [save_state] on a single device *)

Section SaveStateFiles.

Lemma pretty_N_go_head (x : N) (s : string) :
  (0 < x)%N \/ (exists c s', s = String c s' /\ c <> "l"%char) ->
  exists c s', pretty_N_go x s = String c s' /\ c <> "l"%char.
Proof.
  revert s. induction (N.lt_wf_0 x) as [x _ IH]; intros s Hs.
  assert (x = 0 \/ 0 < x)%N as [->|Hx] by lia.
  - rewrite pretty_N_go_0. destruct Hs as [?|Hs]; [lia|exact Hs].
  - rewrite pretty_N_go_step by done. apply IH.
    { by apply N.div_lt. }
    right. eexists _, _. split; [reflexivity|].
    unfold pretty_N_char. by repeat case_match.
Qed.

Lemma pretty_Z_head (n : Z) :
  exists c s, pretty n = String c s /\ c <> "l"%char.
Proof.
  destruct n as [|p|p].
  - by exists "0"%char, "".
  - unfold pretty, pretty_Z, pretty, pretty_positive, pretty, pretty_N.
    rewrite decide_False by lia. apply pretty_N_go_head. left. lia.
  - exists "-"%char, (pretty p). done.
Qed.

Lemma path_join_inj d a b : path_join d a = path_join d b -> a = b.
Proof.
  unfold path_join. destruct (negb (nonempty d)); [done|].
  destruct (ends_with_slash d).
  - apply (inj (String.app d)).
  - intros H. apply (inj (String.app d)) in H. by apply (inj (String.app "/")) in H.
Qed.

Lemma string_length_app (a b : string) :
  String.length (a +:+ b) = (String.length a + String.length b)%nat.
Proof.
  induction a as [|c a IH]; [done|].
  change (String c a +:+ b) with (String c (a +:+ b)). cbn [String.length].
  by rewrite IH.
Qed.

Lemma string_app_inj_r (t a b : string) : a +:+ t = b +:+ t -> a = b.
Proof.
  intros H.
  assert (Hlen : String.length a = String.length b).
  { apply (f_equal String.length) in H. rewrite !string_length_app in H. lia. }
  revert b H Hlen. induction a as [|c a IH]; intros [|c' b] H Hlen; try done.
  change (String c (a +:+ t) = String c' (b +:+ t)) in H.
  injection H as -> H. f_equal. apply IH; [done|].
  cbn in Hlen. lia.
Qed.

(** The per-iteration file is never the "latest" file, and the files of
    two iterations are different files. *)
Lemma checkpoint_path_ne_latest rd n : checkpoint_path rd n <> latest_path rd.
Proof.
  unfold checkpoint_path, latest_path. intros H%path_join_inj.
  change "checkpoint_latest.pth" with ("checkpoint_" +:+ "latest.pth") in H.
  apply (inj (String.app "checkpoint_")) in H.
  destruct (pretty_Z_head n) as (c & s & Hp & Hc). rewrite Hp in H.
  change (String c s +:+ ".pth") with (String c (s +:+ ".pth")) in H.
  injection H as Hl _. done.
Qed.

Lemma checkpoint_path_inj rd n1 n2 :
  checkpoint_path rd n1 = checkpoint_path rd n2 -> n1 = n2.
Proof.
  unfold checkpoint_path. intros H%path_join_inj.
  apply (inj (String.app "checkpoint_")) in H.
  apply string_app_inj_r in H. by apply (inj pretty) in H.
Qed.

(** X1. With [opt.multi_gpu] unset [save_state] always returns, and it
    writes the pickled training state to two different files, the one of
    the iteration and "latest": both then hold the same dictionary (epoch,
    n_iter, loss, the two networks' and the two optimizers' state
    dictionaries), every other file is as before, the two writes are the
    only events, and the parameters, the remote store and the Logger's
    iteration are untouched. *)
Theorem save_state_writes_two_files epoch batch n_iter G optimizer_g D optimizer_d
    loss opt s :
  multi_gpu opt = false ->
  exists d s',
    save_state epoch batch n_iter G optimizer_g D optimizer_d loss opt s = (Ok tt, s') /\
    training_state d epoch n_iter loss /\
    checkpoint_path (run_dir s) n_iter <> latest_path (run_dir s) /\
    fs s' !! checkpoint_path (run_dir s) n_iter = Some (Pickle (PDict d)) /\
    fs s' !! latest_path (run_dir s) = Some (Pickle (PDict d)) /\
    (forall p, p <> checkpoint_path (run_dir s) n_iter -> p <> latest_path (run_dir s) ->
               fs s' !! p = fs s !! p) /\
    trace s' = trace s ++ [EvSave (checkpoint_path (run_dir s) n_iter) (Pickle (PDict d));
                           EvSave (latest_path (run_dir s)) (Pickle (PDict d))] /\
    heap s' = heap s /\ cloud s' = cloud s /\ run_dir s' = run_dir s /\
    current_iteration s' = current_iteration s.
Proof.
  intros Hm.
  destruct (save_state_single epoch batch n_iter G optimizer_g D optimizer_d loss opt s Hm)
    as [s' Hs].
  pose proof Hs as Hs'. apply save_state_Ok in Hs' as (d & Hd & ->).
  exists d. eexists. split; [exact Hs|]. split; [done|].
  pose proof (checkpoint_path_ne_latest (run_dir s) n_iter) as Hne.
  split; [done|]. cbn [fs emit set_fs trace heap cloud run_dir current_iteration].
  split; [by rewrite lookup_insert_ne, lookup_insert_eq|].
  split; [by rewrite lookup_insert_eq|].
  split; [intros p H1 H2; by rewrite !lookup_insert_ne|].
  split; [by rewrite <- app_assoc|]. done.
Qed.

Lemma save_state_writes_two_files_witness :
  exists d s',
    save_state 1 0 5 (ONet Sample.G) (OOptim Sample.optimizer_g)
      (ONet Sample.D) (OOptim Sample.optimizer_d) 1 Sample.opt Sample.state_with_file
      = (Ok tt, s') /\
    training_state d 1 5 1 /\
    checkpoint_path (run_dir Sample.state_with_file) 5
      <> latest_path (run_dir Sample.state_with_file) /\
    fs s' !! checkpoint_path (run_dir Sample.state_with_file) 5 = Some (Pickle (PDict d)) /\
    fs s' !! latest_path (run_dir Sample.state_with_file) = Some (Pickle (PDict d)) /\
    (forall p, p <> checkpoint_path (run_dir Sample.state_with_file) 5 ->
               p <> latest_path (run_dir Sample.state_with_file) ->
               fs s' !! p = fs Sample.state_with_file !! p) /\
    trace s' = trace Sample.state_with_file
               ++ [EvSave (checkpoint_path (run_dir Sample.state_with_file) 5)
                     (Pickle (PDict d));
                   EvSave (latest_path (run_dir Sample.state_with_file))
                     (Pickle (PDict d))] /\
    heap s' = heap Sample.state_with_file /\ cloud s' = cloud Sample.state_with_file /\
    run_dir s' = run_dir Sample.state_with_file /\
    current_iteration s' = current_iteration Sample.state_with_file.
Proof.
  apply (save_state_writes_two_files 1 0 5 (ONet Sample.G) (OOptim Sample.optimizer_g)
           (ONet Sample.D) (OOptim Sample.optimizer_d) 1 Sample.opt
           Sample.state_with_file).
  reflexivity.
Defined.

(** X2. The per-iteration files are permanent: after a save at iteration
    [n1] and a later save at a different iteration [n2] in the same run
    directory, the file of [n1] still holds the first state, the file of
    [n2] and "latest" hold the second. *)
Theorem save_state_keeps_earlier_checkpoint
    e1 b1 n1 G1 og1 D1 od1 l1 e2 b2 n2 G2 og2 D2 od2 l2 opt s s1 s2 :
  save_state e1 b1 n1 G1 og1 D1 od1 l1 opt s = (Ok tt, s1) ->
  save_state e2 b2 n2 G2 og2 D2 od2 l2 opt s1 = (Ok tt, s2) ->
  n1 <> n2 ->
  exists d1 d2,
    training_state d1 e1 n1 l1 /\
    training_state d2 e2 n2 l2 /\
    fs s2 !! checkpoint_path (run_dir s) n1 = Some (Pickle (PDict d1)) /\
    fs s2 !! checkpoint_path (run_dir s) n2 = Some (Pickle (PDict d2)) /\
    fs s2 !! latest_path (run_dir s) = Some (Pickle (PDict d2)).
Proof.
  intros H1 H2 Hn.
  apply save_state_Ok in H1 as (d1 & Hd1 & ->).
  apply save_state_Ok in H2 as (d2 & Hd2 & ->).
  exists d1, d2. do 2 (split; [done|]).
  cbn [fs emit set_fs run_dir].
  pose proof (checkpoint_path_ne_latest (run_dir s) n1) as Hne1.
  pose proof (checkpoint_path_ne_latest (run_dir s) n2) as Hne2.
  assert (checkpoint_path (run_dir s) n2 <> checkpoint_path (run_dir s) n1)
    by (intros ?%checkpoint_path_inj; congruence).
  split.
  { rewrite lookup_insert_ne by done. rewrite lookup_insert_ne by done.
    rewrite lookup_insert_ne by done. by rewrite lookup_insert_eq. }
  split.
  { rewrite lookup_insert_ne by done. by rewrite lookup_insert_eq. }
  by rewrite lookup_insert_eq.
Qed.

Lemma save_state_keeps_earlier_checkpoint_witness :
  let s1 := (save_state 0 0 1 (ONet Sample.G) (OOptim Sample.optimizer_g)
               (ONet Sample.D) (OOptim Sample.optimizer_d) 2 Sample.opt
               Sample.state_with_file).2 in
  let s2 := (save_state 0 2 3 (ONet Sample.G) (OOptim Sample.optimizer_g)
               (ONet Sample.D) (OOptim Sample.optimizer_d) 1 Sample.opt s1).2 in
  exists d1 d2,
    training_state d1 0 1 2 /\
    training_state d2 0 3 1 /\
    fs s2 !! checkpoint_path (run_dir Sample.state_with_file) 1
      = Some (Pickle (PDict d1)) /\
    fs s2 !! checkpoint_path (run_dir Sample.state_with_file) 3
      = Some (Pickle (PDict d2)) /\
    fs s2 !! latest_path (run_dir Sample.state_with_file) = Some (Pickle (PDict d2)).
Proof.
  intros s1 s2.
  apply (save_state_keeps_earlier_checkpoint
           0 0 1 (ONet Sample.G) (OOptim Sample.optimizer_g)
           (ONet Sample.D) (OOptim Sample.optimizer_d) 2
           0 2 3 (ONet Sample.G) (OOptim Sample.optimizer_g)
           (ONet Sample.D) (OOptim Sample.optimizer_d) 1
           Sample.opt Sample.state_with_file s1 s2).
  - reflexivity.
  - reflexivity.
  - discriminate.
Defined.

End SaveStateFiles.

(** ** [restore] *)

Section RestoreFiles.

(** The file a restore with identifier [id] places in the run directory. *)
Lemma restore_effect opt s r s' :
  restore opt s = (r, s') ->
  exists o, r = Ok o /\
    (s' = s \/
     exists b, s' = set_fs <[path_join (run_dir s)
                               ("checkpoint_" +:+ opt_restore opt +:+ ".pth") := b]> s).
Proof.
  unfold restore. destruct (negb _).
  { intros [= <- <-]. eauto. }
  unfold try_except, mbind, M_bind, bind, get.
  destruct (contains "/home" (wandb_runpath opt)).
  - unfold copyfile. case_decide.
    { intros [= <- <-]. eauto. }
    unfold mbind, M_bind, bind, get.
    destruct (fs s !! wandb_runpath opt) as [b|]; [|intros [= <- <-]; eauto].
    unfold modify, torch_load, mbind, M_bind, bind, get.
    destruct (fs (set_fs _ s) !! _) as [[o|]|]; intros [= <- <-]; eauto.
  - unfold wandb_restore, mbind, M_bind, bind, get.
    destruct (cloud s !! wandb_runpath opt) as [files|]; [|intros [= <- <-]; eauto].
    destruct (fs s !! path_join (run_dir s) _) as [b|] eqn:Hb.
    + unfold mret, M_ret, ret, torch_load, mbind, M_bind, bind, get. rewrite Hb.
      destruct b as [o|]; intros [= <- <-]; eauto.
    + destruct (files !! _) as [b|].
      * unfold modify, torch_load, mbind, M_bind, bind, get.
        destruct (fs (set_fs _ s) !! _) as [[o|]|]; intros [= <- <-]; eauto.
      * unfold mret, M_ret, ret, torch_load, mbind, M_bind, bind, get. rewrite Hb.
        intros [= <- <-]; eauto.
Qed.

(** X3. [restore] never raises, for any options and any contents of the
    disk and the remote store.  It emits nothing, leaves the parameters,
    the remote store and the Logger alone, and changes at most one file:
    [checkpoint_<id>.pth] in the run directory.  When [opt.restore] is
    unset it returns [None] and changes nothing. *)
Theorem restore_never_raises (opt : Opt) (s : State) :
  exists o s',
    restore opt s = (Ok o, s') /\
    trace s' = trace s /\ heap s' = heap s /\ cloud s' = cloud s /\
    run_dir s' = run_dir s /\ current_iteration s' = current_iteration s /\
    (forall p, p <> path_join (run_dir s) ("checkpoint_" +:+ opt_restore opt +:+ ".pth") ->
               fs s' !! p = fs s !! p) /\
    (opt_restore opt = "" -> o = PNone /\ s' = s).
Proof.
  destruct (restore opt s) as [r s'] eqn:Hr.
  pose proof Hr as Hr'. apply restore_effect in Hr' as (o & -> & Hs').
  exists o, s'. split; [done|].
  assert (Hunset : opt_restore opt = "" -> o = PNone /\ s' = s).
  { intros H. rewrite (restore_unset opt s H) in Hr. by injection Hr as <- <-. }
  destruct Hs' as [->|[b ->]]; cbn [trace heap cloud run_dir current_iteration set_fs fs];
    repeat (split; [done|]); [done|].
  split; [|done]. intros p Hp. by rewrite lookup_insert_ne.
Qed.

(** X4. A restore from a local path (a run path with "/home" in it) that
    holds a pickled object, and that is not the destination file itself,
    copies the file to [checkpoint_<id>.pth] in the run directory and
    returns the object; the identifier only names the copy. *)
Theorem restore_local_copies (opt : Opt) (s : State) (o : PyObj) :
  nonempty (opt_restore opt) = true ->
  contains "/home" (wandb_runpath opt) = true ->
  wandb_runpath opt
    <> path_join (run_dir s) ("checkpoint_" +:+ opt_restore opt +:+ ".pth") ->
  fs s !! wandb_runpath opt = Some (Pickle o) ->
  restore opt s =
    (Ok o,
     set_fs <[path_join (run_dir s) ("checkpoint_" +:+ opt_restore opt +:+ ".pth")
              := Pickle o]> s).
Proof.
  intros Hid Hlocal Hne Hfile. unfold restore. rewrite Hid, Hlocal. cbn [negb].
  unfold try_except, mbind, M_bind, bind, get, copyfile.
  rewrite decide_False by done.
  unfold mbind, M_bind, bind, get. rewrite Hfile.
  unfold modify, torch_load, mbind, M_bind, bind, get.
  cbn [fs set_fs run_dir]. by rewrite lookup_insert_eq.
Qed.

Lemma restore_local_copies_witness :
  restore Sample.opt_local Sample.state_with_file =
    (Ok (PDict Sample.old_checkpoint),
     set_fs <[path_join (run_dir Sample.state_with_file)
                ("checkpoint_" +:+ opt_restore Sample.opt_local +:+ ".pth")
              := Pickle (PDict Sample.old_checkpoint)]> Sample.state_with_file).
Proof.
  apply (restore_local_copies Sample.opt_local Sample.state_with_file
           (PDict Sample.old_checkpoint)).
  - reflexivity.
  - reflexivity.
  - discriminate.
  - reflexivity.
Defined.

(** X5. A restore from a local path fails softly in each of its failure
    modes: when the path is missing or is the destination file itself,
    [None] is returned and nothing changes; when the file is not a pickle,
    [None] is returned and the copy stays behind in the run directory. *)
Theorem restore_local_failures (opt : Opt) (s : State) :
  nonempty (opt_restore opt) = true ->
  contains "/home" (wandb_runpath opt) = true ->
  let dst := path_join (run_dir s) ("checkpoint_" +:+ opt_restore opt +:+ ".pth") in
  (fs s !! wandb_runpath opt = None -> restore opt s = (Ok PNone, s)) /\
  (wandb_runpath opt = dst -> restore opt s = (Ok PNone, s)) /\
  (wandb_runpath opt <> dst -> fs s !! wandb_runpath opt = Some Garbage ->
   restore opt s = (Ok PNone, set_fs <[dst := Garbage]> s)).
Proof.
  intros Hid Hlocal dst. unfold restore. rewrite Hid, Hlocal. cbn [negb].
  unfold try_except, mbind, M_bind, bind, get, copyfile. fold dst.
  split; [|split].
  - intros Hnone. case_decide; [done|].
    unfold mbind, M_bind, bind, get. by rewrite Hnone.
  - intros Hsame. by rewrite decide_True by done.
  - intros Hne Hfile. rewrite decide_False by done.
    unfold mbind, M_bind, bind, get. rewrite Hfile.
    unfold modify, torch_load, mbind, M_bind, bind, get.
    cbn [fs set_fs run_dir]. by rewrite lookup_insert_eq.
Qed.

Lemma restore_local_failures_witness :
  let dst := path_join (run_dir Sample.empty_state)
               ("checkpoint_" +:+ opt_restore Sample.opt_local +:+ ".pth") in
  (fs Sample.empty_state !! wandb_runpath Sample.opt_local = None ->
   restore Sample.opt_local Sample.empty_state = (Ok PNone, Sample.empty_state)) /\
  (wandb_runpath Sample.opt_local = dst ->
   restore Sample.opt_local Sample.empty_state = (Ok PNone, Sample.empty_state)) /\
  (wandb_runpath Sample.opt_local <> dst ->
   fs Sample.empty_state !! wandb_runpath Sample.opt_local = Some Garbage ->
   restore Sample.opt_local Sample.empty_state
   = (Ok PNone, set_fs <[dst := Garbage]> Sample.empty_state)).
Proof.
  apply (restore_local_failures Sample.opt_local Sample.empty_state); reflexivity.
Defined.

End RestoreFiles.

(** ** The learning-rate schedule as a staircase *)

Section ScheduleStaircase.

(** X6. The schedule is a staircase: for [e >= 0] and a positive decay
    period the rate set at epoch [e + lr_decrease_epoch] is the rate set at
    epoch [e] times [lr_decrease_factor], the rate is the base rate before
    the first period is over, and any two epochs of one period give the
    same optimizer. *)
Theorem learning_rate_staircase (lr_in : Q) (optimizer : Optimizer) (e : Z) (opt : Opt) :
  0 <= e -> 0 < lr_decrease_epoch opt ->
  exists o1 o2,
    adjust_learning_rate lr_in optimizer e opt = Ok o1 /\
    adjust_learning_rate lr_in optimizer (e + lr_decrease_epoch opt) opt = Ok o2 /\
    Forall2 (fun g1 g2 => (pg_lr g2 == pg_lr g1 * lr_decrease_factor opt)%Q /\
                          pg_params g2 = pg_params g1)
            (param_groups o1) (param_groups o2) /\
    (e < lr_decrease_epoch opt ->
     Forall (fun g => (pg_lr g == lr_in)%Q) (param_groups o1)) /\
    (forall e', 0 <= e' ->
       e' `div` lr_decrease_epoch opt = e `div` lr_decrease_epoch opt ->
       adjust_learning_rate lr_in optimizer e' opt = Ok o1).
Proof.
  intros He Hd. set (d := lr_decrease_epoch opt) in *.
  eexists _, _.
  split; [by apply adjust_learning_rate_ok|].
  split; [apply adjust_learning_rate_ok; [lia|done]|].
  cbn [param_groups]. split; [|split].
  - assert (Hstep : (scheduled_lr lr_in opt (e + d)
                     == scheduled_lr lr_in opt e * lr_decrease_factor opt)%Q).
    { unfold scheduled_lr. fold d.
      replace ((e + d) `div` d) with (e `div` d + 1).
      2:{ replace (e + d) with (e + 1 * d) by lia. rewrite Z.div_add by lia. done. }
      assert (0 <= e `div` d) by (apply Z.div_pos; lia).
      rewrite Qpower_plus' by lia. change (lr_decrease_factor opt ^ 1)%Q
        with (lr_decrease_factor opt). ring. }
    induction (param_groups optimizer) as [|g gs IH]; [constructor|].
    cbn [fmap list_fmap]. constructor; [|exact IH]. split; [exact Hstep|done].
  - intros Hlt. apply Forall_fmap, Forall_forall. intros g _. cbn.
    unfold scheduled_lr. fold d. rewrite Z.div_small by lia.
    change (lr_decrease_factor opt ^ 0)%Q with 1%Q. ring.
  - intros e' He' Hsame. rewrite adjust_learning_rate_ok by done.
    unfold scheduled_lr. fold d. by rewrite Hsame.
Qed.

Lemma learning_rate_staircase_witness :
  exists o1 o2,
    adjust_learning_rate (lr_g Sample.opt) Sample.optimizer_g 25 Sample.opt = Ok o1 /\
    adjust_learning_rate (lr_g Sample.opt) Sample.optimizer_g
      (25 + lr_decrease_epoch Sample.opt) Sample.opt = Ok o2 /\
    Forall2 (fun g1 g2 => (pg_lr g2 == pg_lr g1 * lr_decrease_factor Sample.opt)%Q /\
                          pg_params g2 = pg_params g1)
            (param_groups o1) (param_groups o2) /\
    (25 < lr_decrease_epoch Sample.opt ->
     Forall (fun g => (pg_lr g == lr_g Sample.opt)%Q) (param_groups o1)) /\
    (forall e', 0 <= e' ->
       e' `div` lr_decrease_epoch Sample.opt = 25 `div` lr_decrease_epoch Sample.opt ->
       adjust_learning_rate (lr_g Sample.opt) Sample.optimizer_g e' Sample.opt = Ok o1).
Proof.
  apply (learning_rate_staircase (lr_g Sample.opt) Sample.optimizer_g 25 Sample.opt);
    [discriminate | reflexivity].
Defined.


End ScheduleStaircase.

Section EpochFailure.
Context {T : Torch}.

(** X8. With a decay period of 0 no epoch of either loop completes: the
    learning-rate decrease at its end raises (unless a batch has raised
    before). *)
Theorem epoch_fails_without_decay_period (opt : Opt)
    (generator discriminator perceptualnet : Net) (epoch : Z) (s : State) :
  lr_decrease_epoch opt = 0 ->
  (forall vars,
     is_ok (WGAN_epoch opt generator discriminator perceptualnet vars epoch s).1 = false) /\
  (forall vars,
     is_ok (LSGAN_epoch opt generator discriminator perceptualnet vars epoch s).1 = false).
Proof.
  intros Hd.
  assert (Hadj : forall lr_in o e, adjust_learning_rate lr_in o e opt
                                   = Raise ZeroDivisionError).
  { intros. unfold adjust_learning_rate, floordiv. by rewrite decide_True. }
  split; intros vars.
  - unfold WGAN_epoch.
    destruct (foldM (WGAN_batch opt generator discriminator perceptualnet epoch)
                vars (enumerate (dataloader opt epoch)) s) as [[vars1|e] s1] eqn:Hb.
    + rewrite (bind_run _ _ _ _ _ Hb), (Hadj (lr_g opt)). reflexivity.
    + rewrite (bind_raise _ _ _ _ _ Hb). reflexivity.
  - unfold LSGAN_epoch.
    destruct (foldM (LSGAN_batch opt generator discriminator perceptualnet epoch)
                vars (enumerate (dataloader opt epoch)) s) as [[vars1|e] s1] eqn:Hb.
    + rewrite (bind_run _ _ _ _ _ Hb), (Hadj (lr_g opt)). reflexivity.
    + rewrite (bind_raise _ _ _ _ _ Hb). reflexivity.
Qed.

End EpochFailure.

Section EpochFailureWitness.

Lemma epoch_fails_without_decay_period_witness :
  (forall vars,
     is_ok (WGAN_epoch (T := Sample.torch) Sample.opt_no_decay_period
              Sample.G Sample.D Sample.P vars 0 Sample.state_with_nets).1 = false) /\
  (forall vars,
     is_ok (LSGAN_epoch (T := Sample.torch) Sample.opt_no_decay_period
              Sample.G Sample.D Sample.P vars 0 Sample.state_with_nets).1 = false).
Proof.
  apply (epoch_fails_without_decay_period (T := Sample.torch)
           Sample.opt_no_decay_period Sample.G Sample.D Sample.P 0
           Sample.state_with_nets).
  reflexivity.
Defined.

End EpochFailureWitness.

(** ** Which parameter values a training step can change *)

Section ValueFrames.
Context {T : Torch}.

Lemma keeps_heap_values {A} (m : M State A) ls : keeps_heap m -> keeps_values ls m.
Proof. intros H s l _. by rewrite H. Qed.

Lemma keeps_heap_ret {A} (a : A) : keeps_heap (mret a).
Proof. by intros s. Qed.

Lemma keeps_heap_lift {A} (r : result A) : keeps_heap (lift r).
Proof. by intros s. Qed.

Lemma keeps_heap_bind {A B} (m : M State A) (k : A -> M State B) :
  keeps_heap m -> (forall a, keeps_heap (k a)) -> keeps_heap (x ← m; k x).
Proof.
  intros Hm Hk s. unfold mbind, M_bind, bind. specialize (Hm s).
  destruct (m s) as [[a|e] s1]; cbn in *; [|done]. by rewrite Hk.
Qed.

Lemma keeps_values_bind {A B} ls (m : M State A) (k : A -> M State B) :
  keeps_values ls m -> (forall a, keeps_values ls (k a)) ->
  keeps_values ls (x ← m; k x).
Proof.
  intros Hm Hk s l Hl. unfold mbind, M_bind, bind. specialize (Hm s l Hl).
  destruct (m s) as [[a|e] s1]; cbn in *; [|done]. by rewrite Hk.
Qed.

Lemma keeps_values_mono {A} ls ls' (m : M State A) :
  ls ⊆ ls' -> keeps_values ls m -> keeps_values ls' m.
Proof. intros Hsub Hm s l Hl. apply Hm. intros ?. apply Hl. by apply Hsub. Qed.

Lemma keeps_heap_values_of m : keeps_heap (values m).
Proof. by intros s. Qed.

Lemma keeps_heap_torch_save o path : keeps_heap (torch_save o path).
Proof. by intros s. Qed.

Lemma keeps_heap_state_dict o : keeps_heap (state_dict o).
Proof. intros s. by destruct o as [[m|m]|o]. Qed.

Lemma keeps_heap_package opt o : keeps_heap (package opt o).
Proof.
  unfold package. destruct (multi_gpu opt); [|apply keeps_heap_state_dict].
  apply keeps_heap_bind; [apply keeps_heap_lift|]. intros; apply keeps_heap_state_dict.
Qed.

Lemma keeps_heap_save_state epoch batch n_iter G og D od loss opt :
  keeps_heap (save_state epoch batch n_iter G og D od loss opt).
Proof.
  unfold save_state.
  repeat (apply keeps_heap_bind; [apply keeps_heap_package|intros ?]).
  apply keeps_heap_bind; [by intros s|]. intros s0.
  apply keeps_heap_bind; [apply keeps_heap_torch_save|]. intros _.
  apply keeps_heap_torch_save.
Qed.

Lemma keeps_heap_restore opt : keeps_heap (restore opt).
Proof.
  intros s. destruct (restore opt s) as [r s'] eqn:Hr.
  apply restore_effect in Hr as (o & _ & [->|[b ->]]); done.
Qed.

Lemma accumulate_value_at ls gs h l :
  value_at (accumulate ls gs h) l = value_at h l.
Proof.
  revert gs h. induction ls as [|l0 ls IH]; intros [|g gs] h; try done.
  cbn [accumulate]. rewrite IH.
  apply (value_at_alter_grad
           (fun p => Some (from_option (fun g0 => g0 + g) g (grad p))%Q)).
Qed.

Lemma keeps_values_zero_grad ls o : keeps_values ls (zero_grad o).
Proof. intros s l _. apply zero_grad_value_at. Qed.

Lemma keeps_values_backward ls f m : keeps_values ls (backward f m).
Proof. intros s l _. cbn. apply accumulate_value_at. Qed.

Lemma keeps_values_step ls o :
  optimizer_params o ⊆ ls -> keeps_values ls (step o).
Proof.
  intros Hsub s l Hl. unfold value_at. rewrite step_frame; [done|].
  intros ?. apply Hl. by apply Hsub.
Qed.

Lemma step_params o s o' s' :
  step o s = (Ok o', s') -> optimizer_params o' = optimizer_params o.
Proof. cbn. by intros [= <- _]. Qed.

Lemma adjust_learning_rate_params lr_in o e opt o' :
  adjust_learning_rate lr_in o e opt = Ok o' ->
  optimizer_params o' = optimizer_params o.
Proof.
  intros [Hg _]%adjust_learning_rate_inv. unfold optimizer_params. rewrite Hg.
  f_equal. rewrite <- list_fmap_compose. by apply list_fmap_ext.
Qed.

(** A loop keeps the values outside [ls] if its body does so under an
    invariant of the loop-carried variables that the body maintains. *)
Lemma keeps_values_foldM {A B} ls (Inv : B -> Prop) (body : B -> A -> M State B) xs :
  (forall b x, Inv b ->
     keeps_values ls (body b x) /\
     forall s b' s', body b x s = (Ok b', s') -> Inv b') ->
  forall b, Inv b ->
    keeps_values ls (foldM body b xs) /\
    forall s b' s', foldM body b xs s = (Ok b', s') -> Inv b'.
Proof.
  intros Hbody. induction xs as [|x xs IH]; intros b Hb.
  - split; [by intros s l _|]. intros s b' s' [= <- _]. done.
  - destruct (Hbody b x Hb) as [Hkeep Hinv]. split.
    + intros s l Hl. cbn [foldM]. unfold bind.
      pose proof (Hkeep s l Hl) as Hk.
      destruct (body b x s) as [[b1|e] s1] eqn:Hrun; cbn in *; [|done].
      destruct (IH b1 (Hinv _ _ _ Hrun)) as [Hrest _]. by rewrite Hrest.
    + intros s b' s' Hrun. cbn [foldM] in Hrun.
      apply (bind_Ok (body b x)) in Hrun as (b1 & s1 & H1 & Hrun).
      destruct (IH b1 (Hinv _ _ _ H1)) as [_ Hrest]. by eapply Hrest.
Qed.

Lemma keeps_values_bind_post {A B} ls (Post : A -> Prop)
    (m : M State A) (k : A -> M State B) :
  keeps_values ls m ->
  (forall s a s', m s = (Ok a, s') -> Post a) ->
  (forall a, Post a -> keeps_values ls (k a)) ->
  keeps_values ls (x ← m; k x).
Proof.
  intros Hm Hpost Hk s l Hl. unfold mbind, M_bind, bind.
  pose proof (Hm s l Hl) as Hv.
  destruct (m s) as [[a|e] s1] eqn:Hrun; cbn in *; [|done].
  rewrite (Hk a (Hpost _ _ _ Hrun)); done.
Qed.

Lemma keeps_values_WGAN_discriminator_step ls discriminator optimizer_d img mask sw :
  optimizer_params optimizer_d ⊆ ls ->
  keeps_values ls (WGAN_discriminator_step discriminator optimizer_d img mask sw).
Proof.
  intros Hd. unfold WGAN_discriminator_step.
  apply keeps_values_bind; [apply keeps_heap_values, keeps_heap_values_of|intros ?].
  apply keeps_values_bind; [apply keeps_heap_values, keeps_heap_lift|intros ?].
  apply keeps_values_bind; [apply keeps_values_backward|intros ?].
  apply keeps_values_bind; [by apply keeps_values_step|intros ?].
  apply keeps_heap_values, keeps_heap_ret.
Qed.

Lemma keeps_values_WGAN_generator_step ls opt generator discriminator perceptualnet
    optimizer_g img mask fw sw :
  optimizer_params optimizer_g ⊆ ls ->
  keeps_values ls (WGAN_generator_step opt generator discriminator perceptualnet
                     optimizer_g img mask fw sw).
Proof.
  intros Hg. unfold WGAN_generator_step.
  apply keeps_values_bind; [apply keeps_values_zero_grad|intros ?].
  do 3 (apply keeps_values_bind; [apply keeps_heap_values, keeps_heap_values_of|intros ?]).
  apply keeps_values_bind; [apply keeps_heap_values, keeps_heap_lift|intros ?].
  do 2 (apply keeps_values_bind; [apply keeps_values_backward|intros ?]).
  apply keeps_values_bind; [by apply keeps_values_step|intros ?].
  apply keeps_heap_values, keeps_heap_ret.
Qed.

Lemma WGAN_discriminator_step_params discriminator optimizer_d img mask sw s r s' :
  WGAN_discriminator_step discriminator optimizer_d img mask sw s = (Ok r, s') ->
  optimizer_params r.2 = optimizer_params optimizer_d.
Proof.
  intros H. unfold WGAN_discriminator_step in H.
  do 3 (apply bind_Ok in H as (? & ? & _ & H)).
  apply bind_Ok in H as (o' & ? & Hs & H).
  apply mret_Ok in H as [-> _]. by rewrite <- (step_params _ _ _ _ Hs).
Qed.

Lemma WGAN_generator_step_params opt generator discriminator perceptualnet optimizer_g
    img mask fw sw s r s' :
  WGAN_generator_step opt generator discriminator perceptualnet optimizer_g
    img mask fw sw s = (Ok r, s') ->
  optimizer_params r.2 = optimizer_params optimizer_g.
Proof.
  intros H. unfold WGAN_generator_step in H.
  do 7 (apply bind_Ok in H as (? & ? & _ & H)).
  apply bind_Ok in H as (o' & ? & Hs & H).
  apply mret_Ok in H as [-> _]. by rewrite <- (step_params _ _ _ _ Hs).
Qed.

(** X9. In the critic-style loop, with each optimizer bound to its own
    network, the discriminator step changes no parameter value outside the
    discriminator and the generator step none outside the generator,
    whatever their outcome; the optimizers they return are bound as
    before. *)
Theorem WGAN_steps_change_own_parameters (opt : Opt)
    (generator discriminator perceptualnet : Net) (optimizer_g optimizer_d : Optimizer)
    (img mask first_out_wholeimg second_out_wholeimg : tensor 4) :
  optimizer_params optimizer_g = net_parameters generator ->
  optimizer_params optimizer_d = net_parameters discriminator ->
  keeps_values (net_parameters discriminator)
    (WGAN_discriminator_step discriminator optimizer_d img mask second_out_wholeimg) /\
  keeps_values (net_parameters generator)
    (WGAN_generator_step opt generator discriminator perceptualnet optimizer_g
       img mask first_out_wholeimg second_out_wholeimg) /\
  (forall s r s',
     WGAN_discriminator_step discriminator optimizer_d img mask second_out_wholeimg s
       = (Ok r, s') ->
     optimizer_params r.2 = net_parameters discriminator) /\
  (forall s r s',
     WGAN_generator_step opt generator discriminator perceptualnet optimizer_g
       img mask first_out_wholeimg second_out_wholeimg s = (Ok r, s') ->
     optimizer_params r.2 = net_parameters generator).
Proof.
  intros Hg Hd. split; [|split; [|split]].
  - apply keeps_values_WGAN_discriminator_step. by rewrite Hd.
  - apply keeps_values_WGAN_generator_step. by rewrite Hg.
  - intros s r s' H. rewrite <- Hd. by eapply WGAN_discriminator_step_params.
  - intros s r s' H. rewrite <- Hg. by eapply WGAN_generator_step_params.
Qed.

End ValueFrames.

Section ValueFramesWitness.

Lemma WGAN_steps_change_own_parameters_witness :
  keeps_values (net_parameters Sample.D)
    (WGAN_discriminator_step (T := Sample.torch) Sample.D Sample.optimizer_d
       Sample.img Sample.mask Sample.second_out) /\
  keeps_values (net_parameters Sample.G)
    (WGAN_generator_step (T := Sample.torch) Sample.opt Sample.G Sample.D Sample.P
       Sample.optimizer_g Sample.img Sample.mask Sample.first_out Sample.second_out) /\
  (forall s r s',
     WGAN_discriminator_step (T := Sample.torch) Sample.D Sample.optimizer_d
       Sample.img Sample.mask Sample.second_out s = (Ok r, s') ->
     optimizer_params r.2 = net_parameters Sample.D) /\
  (forall s r s',
     WGAN_generator_step (T := Sample.torch) Sample.opt Sample.G Sample.D Sample.P
       Sample.optimizer_g Sample.img Sample.mask Sample.first_out Sample.second_out s
       = (Ok r, s') ->
     optimizer_params r.2 = net_parameters Sample.G).
Proof.
  apply (WGAN_steps_change_own_parameters (T := Sample.torch) Sample.opt
           Sample.G Sample.D Sample.P Sample.optimizer_g Sample.optimizer_d
           Sample.img Sample.mask Sample.first_out Sample.second_out); reflexivity.
Defined.

End ValueFramesWitness.

(** ** Parameter values over a whole run *)

Section RunFrames.
Context {T : Torch}.

Lemma new_module_run init s :
  new_module init s =
    (Ok (mkModule (seq (length (heap s)) (length init))),
     set_heap (fun h => h ++ ((fun v => mkParam v None) <$> init)) s).
Proof. reflexivity. Qed.

Lemma value_at_app_l h h' l :
  (l < length h)%nat -> value_at (h ++ h') l = value_at h l.
Proof. intros Hl. unfold value_at. by rewrite lookup_app_l. Qed.

Lemma values_fresh h init :
  value_at (h ++ ((fun v => mkParam v None) <$> init)) <$> seq (length h) (length init)
  = init.
Proof.
  revert h. induction init as [|v init IH]; intros h; [done|].
  cbn [length seq fmap list_fmap]. f_equal.
  - unfold value_at. rewrite lookup_app_r by lia. by rewrite Nat.sub_diag.
  - rewrite cons_middle, app_assoc.
    replace (S (length h)) with (length (h ++ [mkParam v None]))
      by (rewrite length_app; cbn; lia).
    apply IH.
Qed.

Lemma values_app_l h h' a n :
  (a + n <= length h)%nat ->
  value_at (h ++ h') <$> seq a n = value_at h <$> seq a n.
Proof.
  intros Hle. apply list_fmap_ext. intros _ l Hl%list_elem_of_lookup_2.
  apply elem_of_seq in Hl. apply value_at_app_l. lia.
Qed.

Lemma keeps_values_seq {A} ls (m : M State A) s a n :
  keeps_values ls m ->
  (forall l, (a <= l < a + n)%nat -> l ∉ ls) ->
  value_at (heap (m s).2) <$> seq a n = value_at (heap s) <$> seq a n.
Proof.
  intros Hm Hout. apply list_fmap_ext. intros _ l Hl%list_elem_of_lookup_2.
  apply elem_of_seq in Hl. apply Hm, Hout. lia.
Qed.

Lemma keeps_heap_save_model net epoch opt : keeps_heap (save_model net epoch opt).
Proof.
  assert (Hsave : forall n p, keeps_heap (torch_save_net n p)).
  { intros n p. unfold torch_save_net.
    apply keeps_heap_bind; [apply keeps_heap_values_of|intros; apply keeps_heap_torch_save]. }
  unfold save_model. destruct (multi_gpu opt).
  - apply keeps_heap_bind; [apply keeps_heap_lift|]. intros r. case_decide.
    + apply keeps_heap_bind; [apply keeps_heap_lift|]. intros; apply Hsave.
    + apply keeps_heap_ret.
  - apply keeps_heap_bind; [apply keeps_heap_lift|]. intros r. case_decide.
    + apply Hsave.
    + apply keeps_heap_ret.
Qed.

(** One iteration of the least-squares loop, both optimizers being bound
    inside [ls]. *)
Lemma keeps_values_LSGAN_batch ls opt generator discriminator perceptualnet epoch
    vars item :
  optimizer_params vars.1 ⊆ ls -> optimizer_params vars.2 ⊆ ls ->
  keeps_values ls (LSGAN_batch opt generator discriminator perceptualnet epoch vars item) /\
  forall s vars' s',
    LSGAN_batch opt generator discriminator perceptualnet epoch vars item s
      = (Ok vars', s') ->
    optimizer_params vars'.1 = optimizer_params vars.1 /\
    optimizer_params vars'.2 = optimizer_params vars.2.
Proof.
  intros Hg Hd. split.
  - unfold LSGAN_batch.
    apply keeps_values_bind; [apply keeps_values_zero_grad|intros ?].
    apply keeps_values_bind; [apply keeps_heap_values, keeps_heap_values_of|intros ?].
    do 3 (apply keeps_values_bind; [apply keeps_heap_values, keeps_heap_lift|intros ?]).
    apply keeps_values_bind; [apply keeps_heap_values, keeps_heap_values_of|intros ?].
    apply keeps_values_bind; [apply keeps_heap_values, keeps_heap_lift|intros ?].
    apply keeps_values_bind; [apply keeps_values_backward|intros ?].
    apply keeps_values_bind; [by apply keeps_values_step|intros ?].
    apply keeps_values_bind; [apply keeps_values_zero_grad|intros ?].
    do 3 (apply keeps_values_bind; [apply keeps_heap_values, keeps_heap_values_of|intros ?]).
    apply keeps_values_bind; [apply keeps_heap_values, keeps_heap_lift|intros ?].
    do 2 (apply keeps_values_bind; [apply keeps_values_backward|intros ?]).
    apply keeps_values_bind; [by apply keeps_values_step|intros ?].
    apply keeps_heap_values, keeps_heap_ret.
  - intros s vars' s' H. unfold LSGAN_batch in H.
    do 8 (apply bind_Ok in H as (? & ? & _ & H)).
    apply bind_Ok in H as (od & ? & Hsd & H).
    do 7 (apply bind_Ok in H as (? & ? & _ & H)).
    apply bind_Ok in H as (og & ? & Hsg & H).
    apply mret_Ok in H as [-> _]. cbn [fst snd].
    by rewrite (step_params _ _ _ _ Hsd), (step_params _ _ _ _ Hsg).
Qed.

Lemma keeps_values_LSGAN_epoch ls opt generator discriminator perceptualnet vars epoch :
  optimizer_params vars.1 ⊆ ls /\ optimizer_params vars.2 ⊆ ls ->
  keeps_values ls (LSGAN_epoch opt generator discriminator perceptualnet vars epoch) /\
  forall s vars' s',
    LSGAN_epoch opt generator discriminator perceptualnet vars epoch s = (Ok vars', s') ->
    optimizer_params vars'.1 ⊆ ls /\ optimizer_params vars'.2 ⊆ ls.
Proof.
  intros Hinv.
  destruct (keeps_values_foldM ls
              (fun v : Optimizer * Optimizer =>
                 optimizer_params v.1 ⊆ ls /\ optimizer_params v.2 ⊆ ls)
              (LSGAN_batch opt generator discriminator perceptualnet epoch)
              (enumerate (dataloader opt epoch))) with (b := vars) as [Hkeep Hpost].
  { intros b x [Hb1 Hb2].
    destruct (keeps_values_LSGAN_batch ls opt generator discriminator perceptualnet
                epoch b x Hb1 Hb2) as [Hk Hp].
    split; [done|]. intros s b' s' Hrun. destruct (Hp _ _ _ Hrun) as [-> ->]. done. }
  { done. }
  split.
  - unfold LSGAN_epoch.
    apply (keeps_values_bind_post ls _ _ _ Hkeep Hpost). intros vars1 [H1 H2].
    apply keeps_values_bind; [apply keeps_heap_values, keeps_heap_lift|intros ?].
    apply keeps_values_bind; [apply keeps_heap_values, keeps_heap_lift|intros ?].
    apply keeps_values_bind; [apply keeps_heap_values, keeps_heap_save_model|intros ?].
    apply keeps_heap_values, keeps_heap_ret.
  - intros s vars' s' H. unfold LSGAN_epoch in H.
    apply bind_Ok in H as (vars1 & s1 & Hb & H). apply Hpost in Hb as [H1 H2].
    apply bind_Ok in H as (og & ? & Hg & H). apply lift_Ok in Hg as [Hg _].
    apply bind_Ok in H as (od & ? & Hd & H). apply lift_Ok in Hd as [Hd _].
    apply bind_Ok in H as (? & ? & _ & H). apply mret_Ok in H as [-> _]. cbn [fst snd].
    by rewrite (adjust_learning_rate_params _ _ _ _ _ Hg),
      (adjust_learning_rate_params _ _ _ _ _ Hd).
Qed.

(** X10. However long a run of [LSGAN_trainer] is and whatever its
    outcome, the discriminator and the perceptual network end with the
    parameter values they were created with: no step of the least-squares
    loop ever changes a parameter outside the generator. *)
Theorem LSGAN_trainer_trains_generator_only (opt : Opt) (s : State) :
  let nG := length (create_generator opt) in
  let nD := length (create_discriminator opt) in
  let nP := length create_perceptualnet in
  let s' := (LSGAN_trainer opt s).2 in
  value_at (heap s') <$> seq (length (heap s) + nG) nD = create_discriminator opt /\
  value_at (heap s') <$> seq (length (heap s) + nG + nD) nP = create_perceptualnet.
Proof.
  intros nG nD nP. unfold LSGAN_trainer.
  rewrite (bind_run _ _ _ _ _ (new_module_run _ s)).
  rewrite (bind_run _ _ _ _ _ (new_module_run _ _)).
  rewrite (bind_run _ _ _ _ _ (new_module_run _ _)).
  cbn [heap set_heap]. rewrite !length_app, !length_fmap.
  fold nG nD nP.
  set (h3 := (heap s ++ ((fun v => mkParam v None) <$> create_generator opt))
             ++ ((fun v => mkParam v None) <$> create_discriminator opt)).
  set (s3 := set_heap _ (set_heap _ (set_heap _ s))).
  set (wrap := if multi_gpu opt then DataParallel else Plain).
  set (gen := wrap (mkModule (seq (length (heap s)) nG))).
  assert (Hgen : net_parameters gen = seq (length (heap s)) nG).
  { unfold gen, wrap. by destruct (multi_gpu opt). }
  assert (Hkeep : keeps_values (net_parameters gen)
            (foldM (LSGAN_epoch opt gen
                      (wrap (mkModule (seq (length (heap s) + nG) nD)))
                      (wrap (mkModule (seq (length (heap s) + nG + nD) nP))))
                   (LSGAN_optimizers gen opt) (seqZ 0 (epochs opt));; mret tt)).
  { apply keeps_values_bind; [|intros; apply keeps_heap_values, keeps_heap_ret].
    eapply (keeps_values_foldM (net_parameters gen)
              (fun v : Optimizer * Optimizer =>
                 optimizer_params v.1 ⊆ net_parameters gen /\
                 optimizer_params v.2 ⊆ net_parameters gen)).
    - intros b x Hb. by apply keeps_values_LSGAN_epoch.
    - unfold optimizer_params. cbn. by rewrite !app_nil_r. }
  assert (Hheap3 : heap s3 = h3 ++ ((fun v => mkParam v None) <$> create_perceptualnet)).
  { reflexivity. }
  split.
  - rewrite (keeps_values_seq _ _ s3 _ _ Hkeep).
    2:{ intros l Hl. rewrite Hgen, elem_of_seq. lia. }
    rewrite Hheap3.
    rewrite values_app_l by (unfold h3; rewrite !length_app, !length_fmap; fold nG nD; lia).
    unfold h3. replace (length (heap s) + nG)%nat
      with (length (heap s ++ ((fun v => mkParam v None) <$> create_generator opt)))
      by (rewrite length_app, length_fmap; done).
    apply values_fresh.
  - rewrite (keeps_values_seq _ _ s3 _ _ Hkeep).
    2:{ intros l Hl. rewrite Hgen, elem_of_seq. lia. }
    rewrite Hheap3.
    replace (length (heap s) + nG + nD)%nat with (length h3)
      by (unfold h3; rewrite !length_app, !length_fmap; done).
    apply values_fresh.
Qed.

End RunFrames.

Section WGANRunFrames.
Context {T : Torch}.

Lemma keeps_heap_modify_log f :
  (forall s, heap (f s) = heap s) -> keeps_heap (modify f).
Proof. intros H s. apply H. Qed.

Lemma keeps_values_WGAN_batch ls opt generator discriminator perceptualnet epoch
    vars item :
  optimizer_params vars.1.2 ⊆ ls -> optimizer_params vars.2 ⊆ ls ->
  keeps_values ls (WGAN_batch opt generator discriminator perceptualnet epoch vars item) /\
  forall s vars' s',
    WGAN_batch opt generator discriminator perceptualnet epoch vars item s
      = (Ok vars', s') ->
    optimizer_params vars'.1.2 = optimizer_params vars.1.2 /\
    optimizer_params vars'.2 = optimizer_params vars.2.
Proof.
  intros Hg Hd. split.
  - unfold WGAN_batch.
    apply keeps_values_bind; [by apply keeps_heap_values, keeps_heap_modify_log|intros ?].
    apply keeps_values_bind; [apply keeps_values_zero_grad|intros ?].
    apply keeps_values_bind; [apply keeps_heap_values, keeps_heap_values_of|intros ?].
    do 4 (apply keeps_values_bind; [apply keeps_heap_values, keeps_heap_lift|intros ?]).
    apply keeps_values_bind.
    { apply keeps_heap_values. case_decide; [|apply keeps_heap_ret].
      repeat (apply keeps_heap_bind; [by apply keeps_heap_modify_log|intros ?]).
      by apply keeps_heap_modify_log. }
    intros _.
    apply (keeps_values_bind_post ls
             (fun d : Q * Optimizer => optimizer_params d.2 ⊆ ls)).
    { by apply keeps_values_WGAN_discriminator_step. }
    { intros s d s' Hrun. by rewrite (WGAN_discriminator_step_params _ _ _ _ _ _ _ _ Hrun). }
    intros d Hd'.
    apply keeps_values_bind; [by apply keeps_values_WGAN_generator_step|intros g].
    apply keeps_values_bind; [by apply keeps_heap_values, keeps_heap_modify_log|intros ?].
    apply keeps_values_bind; [apply keeps_heap_values, keeps_heap_lift|intros ?].
    apply keeps_values_bind; [|intros; apply keeps_heap_values, keeps_heap_ret].
    apply keeps_heap_values. case_decide; [apply keeps_heap_save_state|apply keeps_heap_ret].
  - intros s vars' s' H. unfold WGAN_batch in H.
    do 8 (apply bind_Ok in H as (? & ? & _ & H)).
    apply bind_Ok in H as (d & ? & Hdr & H).
    apply bind_Ok in H as (g & ? & Hgr & H).
    do 3 (apply bind_Ok in H as (? & ? & _ & H)).
    apply mret_Ok in H as [-> _]. cbn [fst snd].
    by rewrite (WGAN_discriminator_step_params _ _ _ _ _ _ _ _ Hdr),
      (WGAN_generator_step_params _ _ _ _ _ _ _ _ _ _ _ _ Hgr).
Qed.

Lemma keeps_values_WGAN_epoch ls opt generator discriminator perceptualnet vars epoch :
  optimizer_params vars.1.2 ⊆ ls /\ optimizer_params vars.2 ⊆ ls ->
  keeps_values ls (WGAN_epoch opt generator discriminator perceptualnet vars epoch) /\
  forall s vars' s',
    WGAN_epoch opt generator discriminator perceptualnet vars epoch s = (Ok vars', s') ->
    optimizer_params vars'.1.2 ⊆ ls /\ optimizer_params vars'.2 ⊆ ls.
Proof.
  intros Hinv.
  destruct (keeps_values_foldM ls
              (fun v : Z * Optimizer * Optimizer =>
                 optimizer_params v.1.2 ⊆ ls /\ optimizer_params v.2 ⊆ ls)
              (WGAN_batch opt generator discriminator perceptualnet epoch)
              (enumerate (dataloader opt epoch))) with (b := vars) as [Hkeep Hpost].
  { intros b x [Hb1 Hb2].
    destruct (keeps_values_WGAN_batch ls opt generator discriminator perceptualnet
                epoch b x Hb1 Hb2) as [Hk Hp].
    split; [done|]. intros s b' s' Hrun. destruct (Hp _ _ _ Hrun) as [-> ->]. done. }
  { done. }
  split.
  - unfold WGAN_epoch.
    apply (keeps_values_bind_post ls _ _ _ Hkeep Hpost). intros vars1 [H1 H2].
    apply keeps_values_bind; [apply keeps_heap_values, keeps_heap_lift|intros ?].
    apply keeps_values_bind; [apply keeps_heap_values, keeps_heap_lift|intros ?].
    apply keeps_heap_values, keeps_heap_ret.
  - intros s vars' s' H. unfold WGAN_epoch in H.
    apply bind_Ok in H as (vars1 & s1 & Hb & H). apply Hpost in Hb as [H1 H2].
    apply bind_Ok in H as (og & ? & Hg & H). apply lift_Ok in Hg as [Hg _].
    apply bind_Ok in H as (od & ? & Hd & H). apply lift_Ok in Hd as [Hd _].
    apply mret_Ok in H as [-> _]. cbn [fst snd].
    by rewrite (adjust_learning_rate_params _ _ _ _ _ Hg),
      (adjust_learning_rate_params _ _ _ _ _ Hd).
Qed.

Lemma write_values_value_at ls vs h l :
  l ∉ ls -> value_at (write_values ls vs h) l = value_at h l.
Proof.
  revert vs h. induction ls as [|l0 ls IH]; intros [|v vs] h Hl; try done.
  cbn [write_values]. rewrite IH by set_solver.
  unfold value_at. rewrite list_lookup_alter_ne; [done|set_solver].
Qed.

Lemma keeps_values_load_state_dict ls m v :
  parameters m ⊆ ls -> keeps_values ls (load_state_dict m v).
Proof.
  intros Hsub. unfold load_state_dict.
  destruct v as [| |[[] vs|]]; try (apply keeps_heap_values; by intros s).
  case_decide; [|apply keeps_heap_values; by intros s].
  intros s l Hl. cbn. apply write_values_value_at. intros ?. apply Hl. by apply Hsub.
Qed.

(** What is left of [WGAN_trainer] once the networks exist. *)
Lemma keeps_values_WGAN_rest ls opt checkpoint (nets : Net * Net * Net) :
  net_parameters nets.1.1 ⊆ ls -> net_parameters nets.1.2 ⊆ ls ->
  keeps_values ls
    (optimizers ← lift (create_optimizers nets.1.1 nets.1.2 opt checkpoint);
     initial_epoch ←
       (if nonempty (opt_restore opt)
        then lift (v ← subscript checkpoint "epoch"; as_int v)
        else mret 0);
     n_iter ←
       (if nonempty (opt_restore opt)
        then lift (v ← subscript checkpoint "n_iter"; as_int v)
        else mret 0);
     foldM (WGAN_epoch opt nets.1.1 nets.1.2 nets.2)
           (n_iter, optimizers.1, optimizers.2)
           (seqZ initial_epoch (epochs opt - initial_epoch));;
     mret tt).
Proof.
  intros HG HD.
  apply (keeps_values_bind_post ls
           (fun o : Optimizer * Optimizer =>
              optimizer_params o.1 ⊆ ls /\ optimizer_params o.2 ⊆ ls)).
  { apply keeps_heap_values, keeps_heap_lift. }
  { intros s [og od] s' [Hc _]%lift_Ok.
    apply create_optimizers_params in Hc as [Hg' Hd']. cbn [fst snd].
    by rewrite Hg', Hd'. }
  intros optimizers Hopt.
  apply keeps_values_bind.
  { apply keeps_heap_values. destruct (nonempty _); [apply keeps_heap_lift|apply keeps_heap_ret]. }
  intros e0. apply keeps_values_bind.
  { apply keeps_heap_values. destruct (nonempty _); [apply keeps_heap_lift|apply keeps_heap_ret]. }
  intros n0.
  apply keeps_values_bind; [|intros; apply keeps_heap_values, keeps_heap_ret].
  eapply (keeps_values_foldM ls
            (fun v : Z * Optimizer * Optimizer =>
               optimizer_params v.1.2 ⊆ ls /\ optimizer_params v.2 ⊆ ls)).
  - intros b x Hb. by apply keeps_values_WGAN_epoch.
  - exact Hopt.
Qed.

(** X11. The perceptual network is frozen throughout the critic-style
    run: whatever the options, the checkpoint restored, the data and the
    outcome of [WGAN_trainer], the perceptual network ends with the
    parameter values it was created with. *)
Theorem WGAN_trainer_keeps_perceptualnet (opt : Opt) (s : State) :
  let nG := length (create_generator opt) in
  let nD := length (create_discriminator opt) in
  let nP := length create_perceptualnet in
  value_at (heap (WGAN_trainer opt s).2) <$> seq (length (heap s) + nG + nD) nP
  = create_perceptualnet.
Proof.
  intros nG nD nP. unfold WGAN_trainer.
  rewrite (bind_run (Logger.begin 0) _ s tt (set_current_iteration 0 s) eq_refl).
  destruct (restore_never_raises opt (set_current_iteration 0 s))
    as (checkpoint & s1 & Hr & _ & Hheap1 & _).
  rewrite (bind_run _ _ _ _ _ Hr). cbn [heap set_current_iteration] in Hheap1.
  set (ls := seq (length (heap s)) (nG + nD)).
  set (h3 := (heap s ++ ((fun v => mkParam v None) <$> create_generator opt))
             ++ ((fun v => mkParam v None) <$> create_discriminator opt)).
  assert (Hlen3 : length h3 = (length (heap s) + nG + nD)%nat).
  { unfold h3. by rewrite !length_app, !length_fmap. }
  (* the networks: allocation, then loading *)
  assert (Hnets : exists r s4,
    create_networks opt checkpoint s1 = (r, s4) /\
    value_at (heap s4) <$> seq (length (heap s) + nG + nD) nP = create_perceptualnet /\
    forall nets, r = Ok nets ->
      net_parameters nets.1.1 ⊆ ls /\ net_parameters nets.1.2 ⊆ ls).
  { unfold create_networks.
    rewrite (bind_run _ _ _ _ _ (new_module_run _ s1)).
    rewrite (bind_run _ _ _ _ _ (new_module_run _ _)).
    rewrite (bind_run _ _ _ _ _ (new_module_run _ _)).
    cbn [heap set_heap]. rewrite Hheap1, !length_app, !length_fmap. fold nG nD nP.
    set (g := mkModule (seq (length (heap s)) nG)).
    set (d := mkModule (seq (length (heap s) + nG) nD)).
    set (p := mkModule (seq (length (heap s) + nG + nD) nP)).
    set (s3 := set_heap _ (set_heap _ (set_heap _ s1))).
    assert (Hheap3 : heap s3 = h3 ++ ((fun v => mkParam v None) <$> create_perceptualnet)).
    { unfold s3, h3. cbn. by rewrite Hheap1. }
    assert (Hg : parameters g ⊆ ls).
    { intros l Hl. apply elem_of_seq in Hl. apply elem_of_seq. lia. }
    assert (Hd : parameters d ⊆ ls).
    { intros l Hl. apply elem_of_seq in Hl. apply elem_of_seq. lia. }
    set (load := if truthy checkpoint
                 then sd_G ← lift (subscript checkpoint "G");
                      load_state_dict g sd_G;;
                      sd_D ← lift (subscript checkpoint "D");
                      load_state_dict d sd_D
                 else mret tt).
    set (finish := if multi_gpu opt
                   then mret (DataParallel g, DataParallel d, DataParallel p)
                   else mret (Plain g, Plain d, Plain p)).
    assert (Hkeep : keeps_values ls (load;; finish)).
    { apply keeps_values_bind.
      - unfold load. destruct (truthy checkpoint); [|apply keeps_heap_values, keeps_heap_ret].
        apply keeps_values_bind; [apply keeps_heap_values, keeps_heap_lift|intros ?].
        apply keeps_values_bind; [by apply keeps_values_load_state_dict|intros ?].
        apply keeps_values_bind; [apply keeps_heap_values, keeps_heap_lift|intros ?].
        by apply keeps_values_load_state_dict.
      - intros _. unfold finish. destruct (multi_gpu opt); apply keeps_heap_values, keeps_heap_ret. }
    destruct ((load;; finish) s3) as [r s4] eqn:Hrun.
    exists r, s4. split; [done|]. split.
    - replace s4 with ((load;; finish) s3).2 by (by rewrite Hrun).
      rewrite (keeps_values_seq _ _ s3 _ _ Hkeep).
      2:{ intros l Hl. unfold ls. rewrite elem_of_seq. lia. }
      rewrite Hheap3, <- Hlen3. apply values_fresh.
    - intros nets ->. apply bind_Ok in Hrun as ([] & s5 & _ & Hfin).
      unfold finish in Hfin. destruct (multi_gpu opt); apply mret_Ok in Hfin as [-> _]; done. }
  destruct Hnets as (r & s4 & Hcreate & Hvals & Hparams).
  destruct r as [nets|e].
  - rewrite (bind_run _ _ _ _ _ Hcreate).
    destruct (Hparams nets eq_refl) as [HG HD].
    rewrite (keeps_values_seq _ _ s4 _ _ (keeps_values_WGAN_rest ls opt checkpoint nets HG HD)).
    + exact Hvals.
    + intros l Hl. unfold ls. rewrite elem_of_seq. lia.
  - rewrite (bind_raise _ _ _ _ _ Hcreate). exact Hvals.
Qed.

End WGANRunFrames.

(** ** Cadences and resumption *)

Section CadenceFacts.
Context {T : Torch}.

(** A completed run, with the checkpoint it started from. *)
Lemma WGAN_trainer_run opt s s' :
  WGAN_trainer opt s = (Ok tt, s') ->
  exists checkpoint s1 initial_epoch n_iter,
    restore opt (set_current_iteration 0 s) = (Ok checkpoint, s1) /\
    (if nonempty (opt_restore opt)
     then (v ← subscript checkpoint "epoch"; as_int v) = Ok initial_epoch /\
          (v ← subscript checkpoint "n_iter"; as_int v) = Ok n_iter
     else initial_epoch = 0 /\ n_iter = 0) /\
    exists evs,
      trace s' = trace s ++ evs /\
      run_events opt (run_dir s) n_iter
        (concat (dataloader opt <$> seqZ initial_epoch (epochs opt - initial_epoch)))
        evs.
Proof.
  unfold WGAN_trainer. intros H.
  apply bind_Ok in H as ([] & s1 & Hb & H).
  assert (s1 = set_current_iteration 0 s) as -> by (by injection Hb).
  apply bind_Ok in H as (checkpoint & s2 & Hr & H).
  pose proof Hr as Hrestore.
  apply (quiet_run _ _ _ _ (quiet_restore opt)) in Hr as [Htr2 Hrd2].
  apply bind_Ok in H as (nets & s3 & Hn & H).
  apply (quiet_run _ _ _ _ (heap_only_quiet _ (heap_only_create_networks _ _))) in Hn
    as [Htr3 Hrd3].
  apply bind_Ok in H as (optimizers & s4 & Ho & H). apply lift_Ok in Ho as [_ ->].
  apply bind_Ok in H as (e0 & s4 & He & H).
  apply bind_Ok in H as (n0 & s5 & Hn0 & H).
  assert (Hfields : s4 = s3 /\ s5 = s3 /\
            if nonempty (opt_restore opt)
            then (v ← subscript checkpoint "epoch"; as_int v) = Ok e0 /\
                 (v ← subscript checkpoint "n_iter"; as_int v) = Ok n0
            else e0 = 0 /\ n0 = 0).
  { destruct (nonempty (opt_restore opt)).
    - apply lift_Ok in He as [He ->]. apply lift_Ok in Hn0 as [Hn0 ->]. done.
    - apply mret_Ok in He as [-> ->]. apply mret_Ok in Hn0 as [-> ->]. done. }
  destruct Hfields as (-> & -> & Hfields).
  apply bind_Ok in H as (vars & s4 & Hrun & H).
  apply mret_Ok in H as [_ ->].
  apply WGAN_epochs_events in Hrun as (_ & evs & Htr & Hev).
  exists checkpoint, s2, e0, n0. split; [done|]. split; [done|].
  exists evs. cbn [fst] in Hev.
  rewrite Htr, Htr3, Htr2. rewrite Hrd3, Hrd2 in Hev. done.
Qed.

Lemma never_one_mod n K : K = 1 \/ K < 0 -> n `mod` K <> 1.
Proof.
  intros [->|HK].
  - rewrite Z.mod_1_r. lia.
  - pose proof (Z.mod_neg_bound n K HK). lia.
Qed.

Lemma run_events_no_images opt rd n0 batches evs :
  log_every opt = 1 \/ log_every opt < 0 ->
  run_events opt rd n0 batches evs -> image_iterations evs = [].
Proof.
  intros HK. revert n0 evs. induction batches as [|b rest IH]; intros n0 evs H.
  - cbn in H. by subst.
  - destruct H as (e1 & e2 & -> & (images & scalars & saves & -> & _ & Him & Hsv) & H2).
    unfold image_iterations. rewrite omap_app. fold (image_iterations e2).
    rewrite (IH _ _ H2), app_nil_r.
    rewrite decide_False in Him by (by apply never_one_mod). subst images.
    cbn. destruct (decide _) as [Hc|Hc] in Hsv.
    + by destruct Hsv as (d & ep & l & _ & ->).
    + by subst.
Qed.

Lemma run_events_no_saves opt rd n0 batches evs :
  checkpoint_every opt = 1 \/ checkpoint_every opt < 0 ->
  run_events opt rd n0 batches evs -> saved_paths evs = [].
Proof.
  intros HK. revert n0 evs. induction batches as [|b rest IH]; intros n0 evs H.
  - cbn in H. by subst.
  - destruct H as (e1 & e2 & -> & (images & scalars & saves & -> & _ & Him & Hsv) & H2).
    rewrite saved_paths_app, (IH _ _ H2), app_nil_r.
    rewrite decide_False in Hsv by (by apply never_one_mod). subst saves.
    rewrite saved_paths_app. cbn. rewrite app_nil_r.
    destruct (decide _) as [Hc|Hc] in Him.
    + by destruct Him as (? & ? & ? & ? & _ & _ & ->).
    + by subst.
Qed.

(** X12. A cadence of 1 does not mean "every iteration": the tests are
    [n % cadence == 1], so with [log_every] equal to 1 (or negative) a
    completed run of [WGAN_trainer] has logged no image at all, and with
    [checkpoint_every] equal to 1 (or negative) it has saved no
    checkpoint. *)
Theorem cadence_of_one_never_fires (opt : Opt) (s s' : State) :
  WGAN_trainer opt s = (Ok tt, s') ->
  (log_every opt = 1 \/ log_every opt < 0 ->
   image_iterations (trace s') = image_iterations (trace s)) /\
  (checkpoint_every opt = 1 \/ checkpoint_every opt < 0 ->
   saved_paths (trace s') = saved_paths (trace s)).
Proof.
  intros H. apply WGAN_trainer_run in H as (_ & _ & e0 & n0 & _ & _ & evs & -> & Hev).
  split; intros HK.
  - unfold image_iterations. rewrite omap_app. fold (image_iterations evs).
    by rewrite (run_events_no_images _ _ _ _ _ HK Hev), app_nil_r.
  - by rewrite saved_paths_app, (run_events_no_saves _ _ _ _ _ HK Hev), app_nil_r.
Qed.

(** X13. A cadence of 0 stops the run: with [log_every] or
    [checkpoint_every] equal to 0 no iteration of the critic-style loop
    completes, and with [checkpoint_interval] equal to 0 no epoch of the
    least-squares loop does. *)
Theorem zero_cadence_stops_the_run (opt : Opt)
    (generator discriminator perceptualnet : Net) (epoch : Z) (s : State) :
  (log_every opt = 0 \/ checkpoint_every opt = 0 ->
   forall vars item,
     is_ok (WGAN_batch opt generator discriminator perceptualnet epoch vars item s).1
     = false) /\
  (checkpoint_interval opt = 0 ->
   forall vars,
     is_ok (LSGAN_epoch opt generator discriminator perceptualnet vars epoch s).1
     = false).
Proof.
  split.
  - intros HK vars item.
    destruct (WGAN_batch _ _ _ _ _ vars item s) as [[vars'|e] s'] eqn:H; [|done].
    exfalso. unfold WGAN_batch in H.
    do 6 (apply bind_Ok in H as (? & ? & _ & H)).
    apply bind_Ok in H as (r & ? & Hr & H). apply lift_Ok in Hr as [Hr _].
    apply pymod_Ok in Hr as [HK1 _].
    do 4 (apply bind_Ok in H as (? & ? & _ & H)).
    apply bind_Ok in H as (r2 & ? & Hr2 & H). apply lift_Ok in Hr2 as [Hr2 _].
    apply pymod_Ok in Hr2 as [HK2 _]. lia.
  - intros HK vars.
    destruct (LSGAN_epoch _ _ _ _ vars epoch s) as [[vars'|e] s'] eqn:H; [|done].
    exfalso. unfold LSGAN_epoch in H.
    do 3 (apply bind_Ok in H as (? & ? & _ & H)).
    apply bind_Ok in H as ([] & ? & Hs & H).
    unfold save_model in Hs. destruct (multi_gpu opt);
      apply bind_Ok in Hs as (r & ? & Hr & _); apply lift_Ok in Hr as [Hr _];
      apply pymod_Ok in Hr as [HK1 _]; lia.
Qed.

End CadenceFacts.

Section ResumeFacts.
Context {T : Torch}.

(** X14. A run that restored a checkpoint resumes at the checkpoint's
    epoch and iteration: when it completes, it has run the epochs from the
    saved epoch on, each from its first batch, and numbered the iterations
    from the saved [n_iter] on. *)
Theorem WGAN_trainer_resumes_from_checkpoint (opt : Opt) (s s' s1 : State)
    (d : gmap string PyVal) (initial_epoch n_iter : Z) :
  nonempty (opt_restore opt) = true ->
  restore opt (set_current_iteration 0 s) = (Ok (PDict d), s1) ->
  d !! "epoch" = Some (VInt initial_epoch) ->
  d !! "n_iter" = Some (VInt n_iter) ->
  WGAN_trainer opt s = (Ok tt, s') ->
  exists evs,
    trace s' = trace s ++ evs /\
    run_events opt (run_dir s) n_iter
      (concat (dataloader opt <$> seqZ initial_epoch (epochs opt - initial_epoch)))
      evs.
Proof.
  intros Hid Hr He Hn H.
  apply WGAN_trainer_run in H as (ck & s1' & e0 & n0 & Hr' & Hfields & Hev).
  rewrite Hr in Hr'. injection Hr' as <- <-. rewrite Hid in Hfields.
  cbn [subscript] in Hfields. rewrite He, Hn in Hfields.
  destruct Hfields as [[= <-] [= <-]]. exact Hev.
Qed.

End ResumeFacts.

Section CadenceWitnesses.

Lemma WGAN_trainer_resumes_from_checkpoint_witness :
  exists evs,
    trace (WGAN_trainer (T := Sample.torch) Sample.opt_resume Sample.resume_state).2
      = trace Sample.resume_state ++ evs /\
    run_events Sample.opt_resume (run_dir Sample.resume_state) 5
      (concat (dataloader (Torch := Sample.torch) Sample.opt_resume
                 <$> seqZ 1 (epochs Sample.opt_resume - 1)))
      evs.
Proof.
  eapply (WGAN_trainer_resumes_from_checkpoint (T := Sample.torch)
            Sample.opt_resume Sample.resume_state).
  - reflexivity.
  - vm_compute. reflexivity.
  - vm_compute. reflexivity.
  - vm_compute. reflexivity.
  - vm_compute. reflexivity.
Defined.

Lemma cadence_of_one_never_fires_witness :
  let s' := (WGAN_trainer (T := Sample.torch) Sample.opt_cadence_1 Sample.empty_state).2 in
  (log_every Sample.opt_cadence_1 = 1 \/ log_every Sample.opt_cadence_1 < 0 ->
   image_iterations (trace s') = image_iterations (trace Sample.empty_state)) /\
  (checkpoint_every Sample.opt_cadence_1 = 1 \/ checkpoint_every Sample.opt_cadence_1 < 0 ->
   saved_paths (trace s') = saved_paths (trace Sample.empty_state)).
Proof.
  apply (cadence_of_one_never_fires (T := Sample.torch) Sample.opt_cadence_1
           Sample.empty_state).
  vm_compute. reflexivity.
Defined.

End CadenceWitnesses.

(** ** Loading a checkpoint into fresh networks *)

Section LoadFacts.
Context {T : Torch}.

Lemma length_write_values ls vs h : length (write_values ls vs h) = length h.
Proof.
  revert vs h. induction ls as [|l ls IH]; intros [|v vs] h; try done.
  cbn [write_values]. by rewrite IH, length_alter.
Qed.

Lemma write_values_values ls vs h :
  NoDup ls -> length vs = length ls -> (forall l, l ∈ ls -> (l < length h)%nat) ->
  value_at (write_values ls vs h) <$> ls = vs.
Proof.
  revert vs h. induction ls as [|l ls IH]; intros [|v vs] h Hnd Hlen Hin; try done.
  apply NoDup_cons in Hnd as [Hl Hnd]. cbn [write_values fmap list_fmap]. f_equal.
  - rewrite write_values_value_at by done. unfold value_at.
    rewrite list_lookup_alter_eq.
    destruct (lookup_lt_is_Some_2 h l) as [p Hp]; [apply Hin; set_solver|].
    by rewrite Hp.
  - apply IH; [done|by injection Hlen|].
    intros l' Hl'. rewrite length_alter. apply Hin. set_solver.
Qed.

Lemma values_outside (ls ls' : list nat) (vs : list Q) (h : list Param) :
  (forall l, l ∈ ls' -> l ∉ ls) ->
  value_at (write_values ls vs h) <$> ls' = value_at h <$> ls'.
Proof.
  intros Hout. apply list_fmap_ext. intros _ l Hl%list_elem_of_lookup_2.
  apply write_values_value_at. by apply Hout.
Qed.

(** X15. Given a checkpoint whose "G" and "D" entries are plain network
    state dictionaries of the sizes of the new networks,
    [create_networks] returns networks whose generator and discriminator
    hold exactly the checkpoint's values, the perceptual network holding
    its own initial values. *)
Theorem create_networks_loads_checkpoint (opt : Opt) (d : gmap string PyVal)
    (s : State) (vG vD : list Q) :
  d !! "G" = Some (VState (SDNet false vG)) ->
  d !! "D" = Some (VState (SDNet false vD)) ->
  length vG = length (create_generator opt) ->
  length vD = length (create_discriminator opt) ->
  exists nets s',
    create_networks opt (PDict d) s = (Ok nets, s') /\
    value_at (heap s') <$> net_parameters nets.1.1 = vG /\
    value_at (heap s') <$> net_parameters nets.1.2 = vD /\
    value_at (heap s') <$> net_parameters nets.2 = create_perceptualnet.
Proof.
  intros HG HD HlG HlD. unfold create_networks.
  rewrite (bind_run _ _ _ _ _ (new_module_run _ s)).
  rewrite (bind_run _ _ _ _ _ (new_module_run _ _)).
  rewrite (bind_run _ _ _ _ _ (new_module_run _ _)).
  cbn [heap set_heap]. rewrite !length_app, !length_fmap.
  set (nG := length (create_generator opt)) in *.
  set (nD := length (create_discriminator opt)) in *.
  set (nP := length create_perceptualnet).
  set (g := seq (length (heap s)) nG).
  set (dl := seq (length (heap s) + nG) nD).
  set (p := seq (length (heap s) + nG + nD) nP).
  set (s3 := set_heap _ (set_heap _ (set_heap _ s))).
  set (h2 := (heap s ++ ((fun v => mkParam v None) <$> create_generator opt))
             ++ ((fun v => mkParam v None) <$> create_discriminator opt)).
  assert (Hheap3 : heap s3 = h2 ++ ((fun v => mkParam v None) <$> create_perceptualnet)).
  { reflexivity. }
  assert (Hlen2 : length h2 = (length (heap s) + nG + nD)%nat).
  { unfold h2. by rewrite !length_app, !length_fmap. }
  assert (Hlen3 : length (heap s3) = (length (heap s) + nG + nD + nP)%nat).
  { rewrite Hheap3, length_app, length_fmap, Hlen2. done. }
  assert (Htruthy : truthy (PDict d) = true).
  { cbn. apply negb_true_iff, bool_decide_eq_false. intros ->.
    by rewrite lookup_empty in HG. }
  rewrite Htruthy. cbn [subscript]. rewrite HG, HD.
  set (h5 := write_values dl vD (write_values g vG (heap s3))).
  assert (Hrun : forall finish : M State (Net * Net * Net),
    ((sd_G ← lift (Ok (VState (SDNet false vG)));
      load_state_dict (mkModule g) sd_G;;
      sd_D ← lift (Ok (VState (SDNet false vD)));
      load_state_dict (mkModule dl) sd_D);; finish) s3
    = finish (set_heap (fun _ => h5) s3)).
  { intros finish. unfold mbind, M_bind, bind, lift, load_state_dict.
    cbn [parameters]. rewrite !decide_True by (unfold g, dl; by rewrite length_seq).
    reflexivity. }
  rewrite Hrun.
  assert (Hvals :
    value_at h5 <$> g = vG /\ value_at h5 <$> dl = vD /\
    value_at h5 <$> p = create_perceptualnet).
  { unfold h5. split; [|split].
    - rewrite values_outside.
      2:{ intros l Hl. unfold g, dl in *. rewrite elem_of_seq in Hl. rewrite elem_of_seq. lia. }
      apply write_values_values; [apply NoDup_seq|unfold g; by rewrite length_seq|].
      intros l Hl. unfold g in Hl. apply elem_of_seq in Hl. lia.
    - apply write_values_values; [apply NoDup_seq|unfold dl; by rewrite length_seq|].
      intros l Hl. unfold dl in Hl. apply elem_of_seq in Hl.
      rewrite length_write_values. lia.
    - rewrite !values_outside.
      2:{ intros l Hl. unfold g, p in *. rewrite elem_of_seq in Hl. rewrite elem_of_seq. lia. }
      2:{ intros l Hl. unfold dl, p in *. rewrite elem_of_seq in Hl. rewrite elem_of_seq. lia. }
      rewrite Hheap3. unfold p. rewrite <- Hlen2. apply values_fresh. }
  destruct (multi_gpu opt); eexists _, _; (split; [reflexivity|]); exact Hvals.
Qed.

(** X16. A checkpoint that cannot be loaded stops [create_networks]:
    a non-empty dictionary without "G" raises [KeyError]; a "G" entry of
    another size than the generator, or one taken from a DataParallel
    wrapper, raises [RuntimeError]. *)
Theorem create_networks_checkpoint_errors (opt : Opt) (d : gmap string PyVal)
    (s : State) :
  truthy (PDict d) = true ->
  (d !! "G" = None -> (create_networks opt (PDict d) s).1 = Raise KeyError) /\
  (forall vG, d !! "G" = Some (VState (SDNet false vG)) ->
     length vG <> length (create_generator opt) ->
     (create_networks opt (PDict d) s).1 = Raise RuntimeError) /\
  (forall vG, d !! "G" = Some (VState (SDNet true vG)) ->
     (create_networks opt (PDict d) s).1 = Raise RuntimeError).
Proof.
  intros Htruthy. unfold create_networks.
  rewrite (bind_run _ _ _ _ _ (new_module_run _ s)).
  rewrite (bind_run _ _ _ _ _ (new_module_run _ _)).
  rewrite (bind_run _ _ _ _ _ (new_module_run _ _)).
  rewrite Htruthy. cbn [subscript]. split; [|split].
  - intros ->. reflexivity.
  - intros vG -> Hlen. unfold mbind, M_bind, bind, lift, load_state_dict.
    cbn [parameters]. rewrite decide_False; [reflexivity|].
    by rewrite length_seq.
  - intros vG ->. reflexivity.
Qed.

End LoadFacts.

Section LoadWitnesses.

Lemma create_networks_loads_checkpoint_witness :
  exists nets s',
    create_networks (T := Sample.torch) Sample.opt (PDict Sample.net_checkpoint)
      Sample.empty_state = (Ok nets, s') /\
    value_at (heap s') <$> net_parameters nets.1.1 = [5%Q] /\
    value_at (heap s') <$> net_parameters nets.1.2 = [6%Q] /\
    value_at (heap s') <$> net_parameters nets.2
      = create_perceptualnet (Torch := Sample.torch).
Proof.
  apply (create_networks_loads_checkpoint (T := Sample.torch) Sample.opt
           Sample.net_checkpoint Sample.empty_state [5%Q] [6%Q]); reflexivity.
Defined.

Lemma create_networks_checkpoint_errors_witness :
  truthy (PDict Sample.old_checkpoint) = true /\
  (create_networks (T := Sample.torch) Sample.opt (PDict Sample.old_checkpoint)
     Sample.state_with_file).1 = Raise KeyError.
Proof.
  split; [reflexivity|].
  apply (create_networks_checkpoint_errors (T := Sample.torch) Sample.opt
           Sample.old_checkpoint Sample.state_with_file); reflexivity.
Defined.

End LoadWitnesses.

(** ** The masked L1 loss *)

Section MaskedLoss.
Import Tensor.

Lemma sum_ext {A} (f g : A -> Q) (a b : list A) :
  length a = length b ->
  (forall i u v, a !! i = Some u -> b !! i = Some v -> (f u == g v)%Q) ->
  (foldr (fun u acc => f u + acc) 0 a == foldr (fun u acc => g u + acc) 0 b)%Q.
Proof.
  revert b. induction a as [|x a IH]; intros [|y b] Hlen Hall; try done.
  cbn [foldr]. rewrite (Hall O x y), (IH b); [reflexivity| |..]; try done.
  - by injection Hlen.
  - intros i u v Hu Hv. by apply (Hall (S i)).
Qed.

Lemma tsum_ext n :
  forall s (a b : tensor n),
    has_shape n s a = true -> has_shape n s b = true ->
    (forall idx, in_range s idx = true ->
       exists x y, tget n a idx = Some x /\ tget n b idx = Some y /\ (x == y)%Q) ->
    (tsum n a == tsum n b)%Q.
Proof.
  induction n as [|k IH]; intros s a b Ha Hb Hall.
  - destruct s; [|discriminate].
    destruct (Hall [] eq_refl) as (x & y & [= <-] & [= <-] & Hxy). exact Hxy.
  - change (tensor (S k)) with (list (tensor k)) in a, b.
    destruct s as [|d s]; [discriminate|].
    apply has_shape_cons in Ha as [Hla Ha]. apply has_shape_cons in Hb as [Hlb Hb].
    rewrite Forall_lookup in Ha, Hb.
    change (tsum (S k) a) with (foldr (fun u acc => (tsum k u + acc)%Q) 0%Q a).
    change (tsum (S k) b) with (foldr (fun u acc => (tsum k u + acc)%Q) 0%Q b).
    apply sum_ext; [congruence|].
    intros i u v Hu Hv. apply (IH s); [by eapply Ha|by eapply Hb|].
    intros idx Hidx.
    assert (Hin : in_range (d :: s) (i :: idx) = true).
    { cbn [in_range]. apply andb_true_iff. split; [|done].
      apply Nat.ltb_lt. rewrite <- Hla. by eapply lookup_lt_Some. }
    destruct (Hall _ Hin) as (x & y & Hx & Hy & Hxy).
    rewrite (tget_cons k a i idx u Hu) in Hx.
    rewrite (tget_cons k b i idx v Hv) in Hy. eauto.
Qed.

Lemma sum_zero {A} (f : A -> Q) (a : list A) :
  (forall i u, a !! i = Some u -> (f u == 0)%Q) ->
  (foldr (fun u acc => f u + acc) 0 a == 0)%Q.
Proof.
  induction a as [|x a IH]; intros Hall; [reflexivity|].
  cbn [foldr]. rewrite (Hall O x eq_refl), IH; [ring|].
  intros i u Hu. by apply (Hall (S i)).
Qed.

Lemma tsum_zero n :
  forall s (a : tensor n),
    has_shape n s a = true ->
    (forall idx, in_range s idx = true ->
       exists x, tget n a idx = Some x /\ (x == 0)%Q) ->
    (tsum n a == 0)%Q.
Proof.
  induction n as [|k IH]; intros s a Ha Hall.
  - destruct s; [|discriminate].
    destruct (Hall [] eq_refl) as (x & [= <-] & Hx). exact Hx.
  - change (tensor (S k)) with (list (tensor k)) in a.
    destruct s as [|d s]; [discriminate|].
    apply has_shape_cons in Ha as [Hla Ha]. rewrite Forall_lookup in Ha.
    change (tsum (S k) a) with (foldr (fun u acc => (tsum k u + acc)%Q) 0%Q a).
    apply sum_zero. intros i u Hu. apply (IH s); [by eapply Ha|].
    intros idx Hidx.
    assert (Hin : in_range (d :: s) (i :: idx) = true).
    { cbn [in_range]. apply andb_true_iff. split; [|done].
      apply Nat.ltb_lt. rewrite <- Hla. by eapply lookup_lt_Some. }
    destruct (Hall _ Hin) as (x & Hx & Hx0).
    rewrite (tget_cons k a i idx u Hu) in Hx. eauto.
Qed.

Lemma numel_shape n :
  forall s (t : tensor n),
    has_shape n s t = true -> numel n t = foldr Nat.mul 1%nat s.
Proof.
  induction n as [|k IH]; intros s t Hs.
  - by destruct s.
  - change (tensor (S k)) with (list (tensor k)) in t.
    destruct s as [|d s]; [discriminate|].
    apply has_shape_cons in Hs as [<- Hall].
    change (numel (S k) t) with (foldr (fun u acc => (numel k u + acc)%nat) 0%nat t).
    cbn [foldr]. induction Hall as [|u t Hu _ IHt]; [done|].
    cbn [foldr length]. rewrite IHt, (IH s u Hu). lia.
Qed.

Lemma mean_ext n s (a b : tensor n) :
  has_shape n s a = true -> has_shape n s b = true ->
  (forall idx, in_range s idx = true ->
     exists x y, tget n a idx = Some x /\ tget n b idx = Some y /\ (x == y)%Q) ->
  (mean a == mean b)%Q.
Proof.
  intros Ha Hb Hall. unfold mean.
  rewrite (numel_shape n s a Ha), (numel_shape n s b Hb),
    (tsum_ext n s a b Ha Hb Hall). reflexivity.
Qed.

Lemma in_range_4_inv B C H W idx :
  in_range [B; C; H; W] idx = true ->
  exists b c h w, idx = [b; c; h; w] /\
    (b < B)%nat /\ (c < C)%nat /\ (h < H)%nat /\ (w < W)%nat.
Proof.
  destruct idx as [|b [|c [|h [|w [|]]]]]; try discriminate;
    cbn [in_range]; rewrite ?andb_true_iff, ?Nat.ltb_lt; try naive_solver.
Qed.

(** The entries of [|comp - img|] for a composite [comp]. *)
Lemma L1Loss_of_composite (B C H W : nat) (img mask out : tensor 4) :
  has_shape 4 [B; C; H; W] img = true ->
  has_shape 4 [B; 1%nat; H; W] mask = true ->
  has_shape 4 [B; C; H; W] out = true ->
  exists comp e,
    whole_image img mask out = Ok comp /\
    L1Loss comp img = Ok (mean e) /\
    has_shape 4 [B; C; H; W] e = true /\
    forall b c h w, (b < B)%nat -> (c < C)%nat -> (h < H)%nat -> (w < W)%nat ->
      exists x m y,
        tget 4 img [b; c; h; w] = Some x /\
        tget 4 mask [b; O; h; w] = Some m /\
        tget 4 out [b; c; h; w] = Some y /\
        tget 4 e [b; c; h; w] = Some (Qabs (x * (1 - m) + y * m - x)).
Proof.
  intros Himg Hmask Hout.
  destruct (whole_image_spec B C H W img mask out Himg Hmask Hout)
    as (comp & Hcomp & Hcs & Hcget).
  destruct (pointwise_spec Qminus 4 _ _ _ comp img Hcs Himg (bshape_refl _))
    as (d & Hd & Hds & Hdget).
  destruct (tmap_spec Qabs 4 _ d Hds) as [Hes Heget].
  exists comp, (tmap Qabs 4 d). split; [done|]. split.
  { unfold L1Loss, sub. rewrite Hd. reflexivity. }
  split; [done|].
  intros b c h w Hb Hc Hh Hw.
  pose proof (in_range_4 _ _ _ _ _ _ _ _ Hb Hc Hh Hw) as Hin.
  destruct (Hcget b c h w Hb Hc Hh Hw) as (x & m & y & Hx & Hm & Hy & Hv).
  destruct (Hdget _ Hin) as (v & x' & Hv' & Hx' & Hdv).
  rewrite (bidx_in_range _ _ Hin) in Hv', Hx'.
  rewrite Hv in Hv'. rewrite Hx in Hx'. injection Hv' as <-. injection Hx' as <-.
  exists x, m, y. repeat (split; [done|]).
  rewrite Heget, Hdv. reflexivity.
Qed.

(** X17. The "Mask L1 Loss" of a stage sees the stage's output only inside
    the hole: two outputs that agree wherever the mask is not 0 give
    composites with the same L1 distance to the image. *)
Theorem mask_L1_loss_ignores_output_outside_hole (B C H W : nat)
    (img mask out out' : tensor 4) :
  has_shape 4 [B; C; H; W] img = true ->
  has_shape 4 [B; 1%nat; H; W] mask = true ->
  has_shape 4 [B; C; H; W] out = true ->
  has_shape 4 [B; C; H; W] out' = true ->
  (forall b c h w m y y',
     tget 4 mask [b; O; h; w] = Some m ->
     tget 4 out [b; c; h; w] = Some y ->
     tget 4 out' [b; c; h; w] = Some y' ->
     (m == 0 \/ y == y')%Q) ->
  exists comp comp' l l',
    whole_image img mask out = Ok comp /\
    whole_image img mask out' = Ok comp' /\
    L1Loss comp img = Ok l /\
    L1Loss comp' img = Ok l' /\
    (l == l')%Q.
Proof.
  intros Himg Hmask Hout Hout' Hagree.
  destruct (L1Loss_of_composite B C H W img mask out Himg Hmask Hout)
    as (comp & e & Hcomp & Hl & Hes & Heget).
  destruct (L1Loss_of_composite B C H W img mask out' Himg Hmask Hout')
    as (comp' & e' & Hcomp' & Hl' & Hes' & Heget').
  exists comp, comp', (mean e), (mean e'). repeat (split; [done|]).
  apply (mean_ext 4 [B; C; H; W]); [done..|].
  intros idx (b & c & h & w & -> & Hb & Hc & Hh & Hw)%in_range_4_inv.
  destruct (Heget b c h w Hb Hc Hh Hw) as (x & m & y & Hx & Hm & Hy & He).
  destruct (Heget' b c h w Hb Hc Hh Hw) as (x' & m' & y' & Hx' & Hm' & Hy' & He').
  assert (x' = x) as -> by congruence. assert (m' = m) as -> by congruence.
  eexists _, _. split; [exact He|]. split; [exact He'|].
  apply Qabs_wd.
  destruct (Hagree b c h w m y y' Hm Hy Hy') as [H0|Hyy]; rewrite ?H0, ?Hyy;
    [ring|reflexivity].
Qed.

Lemma mask_L1_loss_ignores_output_outside_hole_witness :
  exists comp comp' l l',
    whole_image Sample.img Sample.mask Sample.first_out = Ok comp /\
    whole_image Sample.img Sample.mask Sample.first_out_elsewhere = Ok comp' /\
    L1Loss comp Sample.img = Ok l /\
    L1Loss comp' Sample.img = Ok l' /\
    (l == l')%Q.
Proof.
  apply (mask_L1_loss_ignores_output_outside_hole 1 1 2 2 Sample.img Sample.mask
           Sample.first_out Sample.first_out_elsewhere); try reflexivity.
  intros b c h w m y y'.
  destruct b as [|b]; [|discriminate]. destruct c as [|c]; [|discriminate].
  destruct h as [|[|h]]; [| |discriminate];
    (destruct w as [|[|w]]; [| |discriminate]);
    intros [= <-] [= <-] [= <-]; first [by left | by right].
Defined.

(** X18. Where the mask is 0 everywhere the composite is the image: its
    "Mask L1 Loss" is 0, whatever the generator produced. *)
Theorem mask_L1_loss_of_empty_hole (B C H W : nat) (img mask out : tensor 4) :
  has_shape 4 [B; C; H; W] img = true ->
  has_shape 4 [B; 1%nat; H; W] mask = true ->
  has_shape 4 [B; C; H; W] out = true ->
  (0 < B * C * H * W)%nat ->
  (forall b h w m, tget 4 mask [b; O; h; w] = Some m -> (m == 0)%Q) ->
  exists comp l,
    whole_image img mask out = Ok comp /\
    L1Loss comp img = Ok l /\
    (l == 0)%Q.
Proof.
  intros Himg Hmask Hout Hpos Hzero.
  destruct (L1Loss_of_composite B C H W img mask out Himg Hmask Hout)
    as (comp & e & Hcomp & Hl & Hes & Heget).
  exists comp, (mean e). repeat (split; [done|]).
  unfold mean. rewrite (tsum_zero 4 [B; C; H; W] e Hes).
  { unfold Qdiv. ring. }
  intros idx (b & c & h & w & -> & Hb & Hc & Hh & Hw)%in_range_4_inv.
  destruct (Heget b c h w Hb Hc Hh Hw) as (x & m & y & Hx & Hm & Hy & He).
  eexists. split; [exact He|].
  rewrite (Hzero b h w m Hm).
  assert (Hx0 : (x * (1 - 0) + y * 0 - x == 0)%Q) by ring.
  rewrite Hx0. reflexivity.
Qed.

Lemma mask_L1_loss_of_empty_hole_witness :
  exists comp l,
    whole_image Sample.img Sample.no_hole Sample.first_out = Ok comp /\
    L1Loss comp Sample.img = Ok l /\
    (l == 0)%Q.
Proof.
  apply (mask_L1_loss_of_empty_hole 1 1 2 2 Sample.img Sample.no_hole
           Sample.first_out); try reflexivity.
  - vm_compute. lia.
  - intros b h w m.
    destruct b as [|b]; [|discriminate].
    destruct h as [|[|h]]; [| |discriminate];
      (destruct w as [|[|w]]; [| |discriminate]);
      intros [= <-]; reflexivity.
Defined.

End MaskedLoss.

(** ** Optimizers across a checkpoint *)

Section OptimizerRoundTrip.

Lemma load_states_lookup (st : gmap nat AdamState) (ls : list nat) (k : nat) :
  load_states ls ((fun l => st !! l) <$> ls) !! k
  = if decide (k ∈ ls) then st !! k else None.
Proof.
  induction ls as [|l ls IH]; [done|].
  cbn [fmap list_fmap load_states]. destruct (st !! l) as [a|] eqn:Hl.
  - destruct (decide (k = l)) as [->|Hne].
    + rewrite lookup_insert_eq, decide_True by set_solver. done.
    + rewrite lookup_insert_ne by done. rewrite IH.
      destruct (decide (k ∈ ls)), (decide (k ∈ l :: ls)); set_solver.
  - rewrite IH. destruct (decide (k = l)) as [->|Hne].
    + rewrite (decide_True (P := l ∈ l :: ls)) by set_solver.
      destruct (decide (l ∈ ls)); done.
    + destruct (decide (k ∈ ls)), (decide (k ∈ l :: ls)); set_solver.
Qed.

Lemma load_states_own (st : gmap nat AdamState) (ls : list nat) :
  (forall l, is_Some (st !! l) -> l ∈ ls) ->
  load_states ls ((fun l => st !! l) <$> ls) = st.
Proof.
  intros Hdom. apply map_eq. intros k. rewrite load_states_lookup.
  destruct (decide (k ∈ ls)) as [|Hk]; [done|].
  destruct (st !! k) eqn:Hst; [|done]. destruct Hk. apply Hdom. by rewrite Hst.
Qed.

Lemma optimizer_load_own_state_dict (g : ParamGroup) (st : gmap nat AdamState)
    (lr : Q) (betas : Q * Q) (wd : Q) (s : State) :
  (forall l, is_Some (st !! l) -> l ∈ pg_params g) ->
  exists sd, state_dict (OOptim (mkOptimizer [g] st)) s = (Ok sd, s) /\
    optimizer_load_state_dict (Adam (pg_params g) lr betas wd) (VState sd)
    = Ok (mkOptimizer [g] st).
Proof.
  intros Hdom. eexists. split; [reflexivity|].
  unfold optimizer_load_state_dict, Adam.
  cbn [param_groups opt_state fmap list_fmap concat pg_params group_hyper load_groups].
  rewrite decide_True by done. cbn [fmap option_fmap option_map].
  rewrite app_nil_r, load_states_own by done. by destruct g.
Qed.

(** X19. The optimizers survive a checkpoint: from a checkpoint that holds
    the state dictionaries of two single-group optimizers over the
    networks' parameters, [create_optimizers] returns exactly those
    optimizers, with their own learning rates, betas, weight decay and
    per-parameter state, whatever the options say. *)
Theorem create_optimizers_round_trip (generator discriminator : Net) (opt : Opt)
    (d : gmap string PyVal) (gg gd : ParamGroup) (stg std : gmap nat AdamState)
    (sd_g sd_d : StateDict) (s : State) :
  pg_params gg = net_parameters generator ->
  pg_params gd = net_parameters discriminator ->
  (forall l, is_Some (stg !! l) -> l ∈ net_parameters generator) ->
  (forall l, is_Some (std !! l) -> l ∈ net_parameters discriminator) ->
  (state_dict (OOptim (mkOptimizer [gg] stg)) s).1 = Ok sd_g ->
  (state_dict (OOptim (mkOptimizer [gd] std)) s).1 = Ok sd_d ->
  d !! "optimizer_g" = Some (VState sd_g) ->
  d !! "optimizer_d" = Some (VState sd_d) ->
  create_optimizers generator discriminator opt (PDict d)
  = Ok (mkOptimizer [gg] stg, mkOptimizer [gd] std).
Proof.
  intros Hpg Hpd Hdg Hdd Hsg Hsd Hg Hd.
  rewrite <- Hpg in Hdg. rewrite <- Hpd in Hdd.
  destruct (optimizer_load_own_state_dict gg stg (lr_g opt) (b1 opt, b2 opt)
              (weight_decay opt) s Hdg) as (sd1 & Hs1 & Hl1).
  destruct (optimizer_load_own_state_dict gd std (lr_d opt) (b1 opt, b2 opt)
              (weight_decay opt) s Hdd) as (sd2 & Hs2 & Hl2).
  rewrite Hs1 in Hsg. rewrite Hs2 in Hsd. cbn [fst] in Hsg, Hsd.
  injection Hsg as ->. injection Hsd as ->.
  unfold create_optimizers.
  assert (Htruthy : truthy (PDict d) = true).
  { cbn. apply negb_true_iff, bool_decide_eq_false. intros ->.
    by rewrite lookup_empty in Hg. }
  rewrite Htruthy. cbn [subscript]. rewrite Hg, Hd, <- Hpg, <- Hpd.
  cbn [mbind result_bind rbind]. rewrite Hl1. cbn [rbind]. rewrite Hl2. done.
Qed.

Lemma create_optimizers_round_trip_witness :
  create_optimizers Sample.G Sample.D Sample.opt (PDict Sample.optimizer_checkpoint)
  = Ok (Sample.trained_optimizer_g, Sample.trained_optimizer_d).
Proof.
  apply (create_optimizers_round_trip Sample.G Sample.D Sample.opt
           Sample.optimizer_checkpoint
           (mkParamGroup [0%nat] (1 # 20000) (1 # 2, 999 # 1000) 0)
           (mkParamGroup [1%nat] (1 # 5000) (1 # 2, 999 # 1000) 0)
           {[ 0%nat := mkAdamState 3 1 1 ]} {[ 1%nat := mkAdamState 3 2 4 ]}
           (SDOptim [Some (mkAdamState 3 1 1)]
                    [(1 # 20000, (1 # 2, 999 # 1000), 0%Q, 1%nat)])
           (SDOptim [Some (mkAdamState 3 2 4)]
                    [(1 # 5000, (1 # 2, 999 # 1000), 0%Q, 1%nat)])
           Sample.empty_state); try reflexivity.
  - intros l [a Hl]. destruct (decide (l = 0%nat)) as [->|Hne]; [set_solver|].
    by rewrite lookup_singleton_ne in Hl.
  - intros l [a Hl]. destruct (decide (l = 1%nat)) as [->|Hne]; [set_solver|].
    by rewrite lookup_singleton_ne in Hl.
Defined.

End OptimizerRoundTrip.
